(** * Note Collab backend: room manager and socket event handlers

    A shallow embedding of [utils/roomManager.js] and
    [utils/socketHandlers.js], and the properties of the room/session
    protocol proved over it.

    Conventions of the embedding.
    - A JavaScript string is the list of its UTF-16 code units ([list N]);
      [.length], [.substring], [.trim] and the non-unicode regular
      expressions of the source all work on code units.
    - A JavaScript [Map] is an association list in insertion order
      (module [JsMap]): [Array.from(room.values())] and [rooms.forEach]
      observe that order.  [roomMetadata] is only ever read by key, so it is
      a [gmap].
    - The handlers run to completion one at a time; each is a function from
      the server state to the server state.  The state carries the two
      registries of the source, the socket.io adapter (which rooms each
      socket has joined) and the log of emitted events. *)

From Stdlib Require Import ZArith NArith String Ascii Lia Bool.
From stdpp Require Import base option list gmap.

Set Warnings "-register-all".

(** ** JavaScript values *)

Abbreviation jsstring := (list N).

(** The code units of an ASCII literal of the source. *)
Definition jsstr (s : string) : jsstring :=
  List.map N_of_ascii (list_ascii_of_string s).

(** The values a client can put in an event payload, and the objects the
    server builds.  Numbers are kept to the integers: the handlers never
    compute with a number received from a client, they only test it for
    truthiness or forward it. *)
Inductive JsValue : Type :=
| JsUndefined
| JsNull
| JsBool (b : bool)
| JsNumber (n : Z)
| JsString (s : jsstring)
| JsArray (items : list JsValue)
| JsObject (fields : list (string * JsValue)).

(** [typeof v] *)
Definition typeof (v : JsValue) : string :=
  match v with
  | JsUndefined => "undefined"
  | JsNull => "object"
  | JsBool _ => "boolean"
  | JsNumber _ => "number"
  | JsString _ => "string"
  | JsArray _ => "object"
  | JsObject _ => "object"
  end.

(** [ToBoolean v], the test behind [!v] and [v || w]. *)
Definition truthy (v : JsValue) : bool :=
  match v with
  | JsUndefined | JsNull => false
  | JsBool b => b
  | JsNumber n => negb (n =? 0)%Z
  | JsString s => negb (bool_decide (s = []))
  | JsArray _ | JsObject _ => true
  end.

(** [o.name] on an object literal built by the server. *)
Fixpoint field (name : string) (fields : list (string * JsValue)) : option JsValue :=
  match fields with
  | [] => None
  | (k, v) :: rest => if String.eqb k name then Some v else field name rest
  end.

(** [p.name] on a payload; [None] when the payload has no such field. *)
Definition payloadField (name : string) (p : JsValue) : option JsValue :=
  match p with
  | JsObject fields => field name fields
  | _ => None
  end.

(** ** roomManager.js *)

(** [USER_COLORS] *)
Definition USER_COLORS : list jsstring :=
  List.map jsstr
    [ "#FF6B6B"; "#4ECDC4"; "#45B7D1"; "#FFA07A"; "#98D8C8"; "#F7DC6F";
      "#BB8FCE"; "#85C1E2"; "#F8B739"; "#52B788"; "#E76F51"; "#2A9D8F" ]%string.

(** [getUserColor(index)]: [USER_COLORS[index % USER_COLORS.length]]; an
    index outside the array would read [undefined]. *)
Definition getUserColor (index : nat) : JsValue :=
  match USER_COLORS !! (index mod length USER_COLORS) with
  | Some c => JsString c
  | None => JsUndefined
  end.

(** The character class [[a-zA-Z0-9-_]] on one code unit. *)
Definition isRoomIdChar (c : N) : bool :=
  ((97 <=? c) && (c <=? 122) || (65 <=? c) && (c <=? 90) ||
   (48 <=? c) && (c <=? 57) || (c =? 45) || (c =? 95))%N.

(** [/^[a-zA-Z0-9-_]+$/.test(s)]: without the [m] flag [^] and [$] only
    match at the two ends of the input, so the whole string is one or more
    characters of the class. *)
Definition roomIdPattern (s : jsstring) : bool :=
  match s with
  | [] => false
  | _ => forallb isRoomIdChar s
  end.

(** [isValidRoomId(roomId)].  [typeof] accepts every value and [&&] stops at
    the first false operand, so [.length] is only read from a string. *)
Definition isValidRoomId (roomId : JsValue) : bool :=
  String.eqb (typeof roomId) "string" &&
  match roomId with
  | JsString s => (0 <? length s) && (length s <? 100) && roomIdPattern s
  | _ => false
  end.

(** The code units [String.prototype.trim] removes: WhiteSpace (TAB, VT, FF,
    ZWNBSP and the Unicode space separators) and LineTerminator. *)
Definition isWhiteSpace (c : N) : bool :=
  ((c =? 9) || (c =? 10) || (c =? 11) || (c =? 12) || (c =? 13) || (c =? 32) ||
   (c =? 160) || (c =? 5760) || (8192 <=? c) && (c <=? 8202) ||
   (c =? 8232) || (c =? 8233) || (c =? 8239) || (c =? 8287) ||
   (c =? 12288) || (c =? 65279))%N.

Fixpoint trimStart (s : jsstring) : jsstring :=
  match s with
  | [] => []
  | c :: rest => if isWhiteSpace c then trimStart rest else s
  end.

Definition trimEnd (s : jsstring) : jsstring := rev (trimStart (rev s)).

(** [s.trim()] *)
Definition trim (s : jsstring) : jsstring := trimEnd (trimStart s).

(** [s.replace(/[<>]/g, '')] *)
Definition stripAngles (s : jsstring) : jsstring :=
  List.filter (fun c => negb ((c =? 60) || (c =? 62))%N) s.

(** Decimal digits of a natural number, most significant first. *)
Fixpoint digitsAux (fuel : nat) (n : N) (acc : jsstring) : jsstring :=
  match fuel with
  | O => acc
  | S fuel' =>
      let acc' := (48 + n mod 10)%N :: acc in
      if (n <? 10)%N then acc' else digitsAux fuel' (n / 10)%N acc'
  end.

Definition digits (n : N) : jsstring := digitsAux (S (N.to_nat (N.log2 n))) n [].

(** Number-to-string conversion of an integer time value, as the template
    literal [`${Date.now()}`] performs it. *)
Definition numberToString (t : Z) : jsstring :=
  if (t <? 0)%Z then 45%N :: digits (Z.to_N (- t)) else digits (Z.to_N t).

(** [`Guest-${Date.now()}`], where [now] is what [Date.now()] returned. *)
Definition guestName (now : Z) : jsstring := jsstr "Guest-" ++ numberToString now.

(** [sanitizeUsername(username)], with the reading [now] of the clock that a
    fallback to a guest name would use. *)
Definition sanitizeUsername (now : Z) (username : JsValue) : jsstring :=
  if negb (truthy username) || negb (String.eqb (typeof username) "string")
  then guestName now
  else
    match username with
    | JsString s =>
        let sanitized := take 50 (trim (stripAngles s)) in
        if bool_decide (sanitized = []) then guestName now else sanitized
    | _ => guestName now
    end.

(** ** JavaScript [Map] and [Set] keyed by strings, in insertion order *)

Definition JsMap (V : Type) : Type := list (list N * V).

Module JsMap.
Section Ops.
Context {V : Type}.

(** [m.get(k)]; [None] is [undefined]. *)
Fixpoint get (k : jsstring) (m : JsMap V) : option V :=
  match m with
  | [] => None
  | (k', v) :: rest => if decide (k' = k) then Some v else get k rest
  end.

(** [m.has(k)] *)
Definition has (k : jsstring) (m : JsMap V) : bool :=
  match get k m with Some _ => true | None => false end.

(** [m.set(k, v)]: an existing key keeps its place, a new one goes last. *)
Fixpoint set (k : jsstring) (v : V) (m : JsMap V) : JsMap V :=
  match m with
  | [] => [(k, v)]
  | (k', v') :: rest =>
      if decide (k' = k) then (k, v) :: rest else (k', v') :: set k v rest
  end.

(** [m.delete(k)] *)
Fixpoint delete (k : jsstring) (m : JsMap V) : JsMap V :=
  match m with
  | [] => []
  | (k', v') :: rest =>
      if decide (k' = k) then delete k rest else (k', v') :: delete k rest
  end.

(** [m.size] *)
Definition size (m : JsMap V) : nat := length m.

(** [Array.from(m.keys())] and [Array.from(m.values())] *)
Definition keys (m : JsMap V) : list jsstring := List.map fst m.
Definition values (m : JsMap V) : list V := List.map snd m.
End Ops.
End JsMap.

Module JsSet.
(** [s.add(x)] *)
Definition add (x : jsstring) (s : list jsstring) : list jsstring :=
  if bool_decide (x ∈ s) then s else s ++ [x].

(** [s.delete(x)] *)
Definition delete (x : jsstring) (s : list jsstring) : list jsstring :=
  List.filter (fun y => negb (bool_decide (y = x))) s.
End JsSet.

(** ** Server state *)

(** The [userData] object of the join handler. *)
Record UserData : Type := mkUserData {
  id_ : jsstring;          (* id: socket.id *)
  username : jsstring;
  userId : JsValue;
  color : JsValue;
  joinedAt : jsstring
}.

(** The metadata object of a room. *)
Record RoomMeta : Type := mkRoomMeta {
  createdAt : jsstring;
  createdBy : jsstring
}.

(** The addressing modes of the source: [socket.emit], [socket.to(room).emit]
    and [io.to(room).emit]. *)
Inductive Target : Type :=
| ToSocket (socket : jsstring)
| ToOthers (sender : jsstring) (room : jsstring)
| ToRoom (room : jsstring).

(** One call of [emit]: how it was addressed, the sockets the adapter handed
    it to at that instant, the event name and the payload. *)
Record Emission : Type := mkEmission {
  target : Target;
  delivered : list jsstring;
  event : string;
  payload : JsValue
}.

(** The state the handlers share: [rooms] and [roomMetadata] of the source,
    the adapter of socket.io, and the events emitted so far. *)
Record Server : Type := mkServer {
  rooms : JsMap (JsMap UserData);          (* Map<roomId, Map<socketId, userData>> *)
  roomMetadata : gmap (list N) RoomMeta;   (* Map<roomId, {createdAt, createdBy}> *)
  sids : JsMap (list jsstring);            (* adapter: socket id -> socket.rooms *)
  outbox : list Emission                   (* every emit so far, oldest first *)
}.

(** The server when it starts. *)
Definition initial : Server :=
  {| rooms := []; roomMetadata := ∅; sids := []; outbox := [] |}.

(** Updates of one part of the state. *)
Definition withRooms (f : JsMap (JsMap UserData) -> JsMap (JsMap UserData)) (s : Server) : Server :=
  {| rooms := f (rooms s); roomMetadata := roomMetadata s; sids := sids s; outbox := outbox s |}.

Definition withMetadata (f : gmap (list N) RoomMeta -> gmap (list N) RoomMeta) (s : Server) : Server :=
  {| rooms := rooms s; roomMetadata := f (roomMetadata s); sids := sids s; outbox := outbox s |}.

Definition withSids (f : JsMap (list jsstring) -> JsMap (list jsstring)) (s : Server) : Server :=
  {| rooms := rooms s; roomMetadata := roomMetadata s; sids := f (sids s); outbox := outbox s |}.

(** ** The socket.io adapter

    Every socket is in the room named by its own id from the moment it
    connects; [socket.rooms] is the set of rooms it has joined.  A room's
    sockets are those that have it in their set. *)

(** [socket.rooms] *)
Definition socketRooms (c : jsstring) (s : Server) : list jsstring :=
  default [] (JsMap.get c (sids s)).

(** [socket.join(room)] *)
Definition socketJoin (c room : jsstring) (s : Server) : Server :=
  withSids (JsMap.set c (JsSet.add room (socketRooms c s))) s.

(** [socket.leave(room)] *)
Definition socketLeave (c room : jsstring) (s : Server) : Server :=
  match JsMap.get c (sids s) with
  | Some rs => withSids (JsMap.set c (JsSet.delete room rs)) s
  | None => s
  end.

(** The sockets of a room: those known to the adapter whose set of rooms
    holds it. *)
Definition inRoom (room : jsstring) (adapter : JsMap (list jsstring)) : list jsstring :=
  List.filter (fun x => bool_decide (room ∈ default [] (JsMap.get x adapter)))
    (JsMap.keys adapter).

(** Who receives an emission.  [socket.emit] writes to the socket itself;
    [io.to(room)] reaches the sockets of [room]; [socket.to(room)] reaches
    the sockets of [room] outside the sender's own room. *)
Definition recipients (adapter : JsMap (list jsstring)) (t : Target) : list jsstring :=
  match t with
  | ToSocket c => [c]
  | ToRoom room => inRoom room adapter
  | ToOthers c room =>
      List.filter (fun x => negb (bool_decide (x ∈ inRoom c adapter))) (inRoom room adapter)
  end.

(** [emit(ev, p)] on the target [t]: the emission is logged with the sockets
    it reaches in the adapter as it is now. *)
Definition emit (t : Target) (ev : string) (p : JsValue) (s : Server) : Server :=
  {| rooms := rooms s; roomMetadata := roomMetadata s; sids := sids s;
     outbox := outbox s ++ [ {| target := t; delivered := recipients (sids s) t;
                                event := ev; payload := p |} ] |}.

(** ** Payloads *)

(** The [userData] object as it is sent. *)
Definition userDataJs (u : UserData) : JsValue :=
  JsObject [ ("id", JsString (id_ u)); ("username", JsString (username u));
             ("userId", userId u); ("color", color u);
             ("joinedAt", JsString (joinedAt u)) ]%string.

(** [getRoomUsers(rooms, roomId)] *)
Definition getRoomUsers (rms : JsMap (JsMap UserData)) (roomId : jsstring) : list UserData :=
  match JsMap.get roomId rms with
  | None => []
  | Some room => JsMap.values room
  end.

(** One entry of [rooms] in the result of [getRoomStats]. *)
Record RoomStats : Type := mkRoomStats {
  statsRoomId : jsstring;
  userCount : nat;
  users : list (jsstring * jsstring * jsstring)   (* id, username, joinedAt *)
}.

(** The result of [getRoomStats]. *)
Record Stats : Type := mkStats {
  totalRooms : nat;
  totalUsers : nat;
  statsRooms : list RoomStats
}.

(** [getRoomStats(rooms)] *)
Definition getRoomStats (rms : JsMap (JsMap UserData)) : Stats :=
  {| totalRooms := JsMap.size rms;
     totalUsers := fold_left (fun acc room => acc + JsMap.size room) (JsMap.values rms) 0;
     statsRooms :=
       List.map
         (fun e : list N * JsMap UserData =>
            {| statsRoomId := e.1;
               userCount := JsMap.size e.2;
               users := List.map (fun u => (id_ u, username u, joinedAt u)) (JsMap.values e.2) |})
         rms |}.

(** The array [getRoomUsers(rooms, roomId)] as it is sent. *)
Definition roomUsersJs (rms : JsMap (JsMap UserData)) (roomId : jsstring) : JsValue :=
  JsArray (List.map userDataJs (getRoomUsers rms roomId)).

(** [{ message }] *)
Definition errorJs (message : string) : JsValue :=
  JsObject [ ("message", JsString (jsstr message)) ]%string.

(** [{ userId: socket.id, username: user.username }] *)
Definition userLeftJs (c : jsstring) (user : UserData) : JsValue :=
  JsObject [ ("userId", JsString c); ("username", JsString (username user)) ]%string.

(** [{ roomId, userData, userCount }] *)
Definition joinSuccessJs (roomId : jsstring) (userData : UserData) (userCount : nat) : JsValue :=
  JsObject [ ("roomId", JsString roomId); ("userData", userDataJs userData);
             ("userCount", JsNumber (Z.of_nat userCount)) ]%string.

(** ** socketHandlers.js *)

(** [handleUserLeaving(io, socket, rooms, roomMetadata, roomId)] for the
    socket [c].  The registry is keyed by strings, so [rooms.get] of any
    other value is [undefined]. *)
Definition handleUserLeaving (c : jsstring) (roomId : JsValue) (s : Server) : Server :=
  match roomId with
  | JsString r =>
      match JsMap.get r (rooms s) with
      | Some room =>
          match JsMap.get c room with
          | Some user =>
              (* room.delete(socket.id): the room object is updated in place *)
              let room' := JsMap.delete c room in
              let s1 := withRooms (JsMap.set r room') s in
              let s2 := emit (ToOthers c r) "user-left" (userLeftJs c user) s1 in
              let s3 :=
                if 0 <? JsMap.size room'
                then emit (ToRoom r) "room-users" (roomUsersJs (rooms s2) r) s2
                else withMetadata (base.delete r) (withRooms (JsMap.delete r) s2) in
              socketLeave c r s3
          | None => s
          end
      | None => s
      end
  | _ => s
  end.

(** The readings of the clock a join can take: [new Date().toISOString()]
    for the metadata of a new room, [Date.now()] for a guest name, and
    [new Date().toISOString()] for [joinedAt]. *)
Record Clock : Type := mkClock {
  createdAtIso : jsstring;
  guestMillis : Z;
  joinedAtIso : jsstring
}.

(** The callback of "Leave any existing rooms first": every room of the
    socket but the one of its own id is left. *)
Definition leaveVisit (c : jsstring) (acc : Server) (room : jsstring) : Server :=
  if bool_decide (room ≠ c)
  then handleUserLeaving c (JsString room) (socketLeave c room acc)
  else acc.

(** [Array.from(socket.rooms).forEach(...)]: the rooms are those the socket
    had when the loop started. *)
Definition leaveExistingRooms (c : jsstring) (s : Server) : Server :=
  fold_left (leaveVisit c) (socketRooms c s) s.

(** "Initialize room if it doesn't exist" *)
Definition initRoom (c r : jsstring) (clk : Clock) (s : Server) : Server :=
  if JsMap.has r (rooms s) then s
  else withMetadata (insert r {| createdAt := createdAtIso clk; createdBy := c |})
         (withRooms (JsMap.set r []) s).

(** The [join-room] handler of the socket [c]. *)
Definition joinRoom (c : jsstring) (roomId uname uid : JsValue) (clk : Clock) (s : Server) : Server :=
  if negb (isValidRoomId roomId)
  then emit (ToSocket c) "error" (errorJs "Invalid room ID") s
  else
    match roomId with
    | JsString r =>
        let s1 := leaveExistingRooms c s in
        let s2 := socketJoin c r s1 in
        let s3 := initRoom c r clk s2 in
        match JsMap.get r (rooms s3) with
        | Some room =>
            let colorIndex := JsMap.size room in
            let userData :=
              {| id_ := c;
                 username := sanitizeUsername (guestMillis clk) uname;
                 userId := if truthy uid then uid else JsString c;
                 color := getUserColor colorIndex;
                 joinedAt := joinedAtIso clk |} in
            let room' := JsMap.set c userData room in
            let s4 := withRooms (JsMap.set r room') s3 in
            let s5 := emit (ToSocket c) "room-users" (roomUsersJs (rooms s4) r) s4 in
            let s6 := emit (ToOthers c r) "user-joined" (userDataJs userData) s5 in
            let s7 := emit (ToRoom r) "room-users" (roomUsersJs (rooms s6) r) s6 in
            emit (ToSocket c) "join-success"
              (joinSuccessJs r userData (JsMap.size room')) s7
        | None =>
            (* room.size of undefined throws; the catch block reports it *)
            emit (ToSocket c) "error" (errorJs "Failed to join room") s3
        end
    | _ => s   (* not reached: only strings pass isValidRoomId *)
    end.

(** The relay handlers. *)
Definition yjsUpdate (c roomId : jsstring) (update : JsValue) (s : Server) : Server :=
  emit (ToOthers c roomId) "yjs-update"
    (JsObject [("update", update); ("from", JsString c)]%string) s.

Definition awarenessUpdate (c roomId : jsstring) (update : JsValue) (s : Server) : Server :=
  emit (ToOthers c roomId) "awareness-update"
    (JsObject [("update", update); ("from", JsString c)]%string) s.

Definition cursorUpdate (c roomId : jsstring) (position : JsValue) (s : Server) : Server :=
  match JsMap.get roomId (rooms s) with
  | Some room =>
      match JsMap.get c room with
      | Some userData =>
          emit (ToOthers c roomId) "cursor-update"
            (JsObject [("userId", JsString c); ("username", JsString (username userData));
                       ("color", color userData); ("position", position)]%string) s
      | None => s
      end
  | None => s
  end.

Definition typing (c roomId : jsstring) (isTyping : JsValue) (s : Server) : Server :=
  match JsMap.get roomId (rooms s) with
  | Some room =>
      match JsMap.get c room with
      | Some userData =>
          emit (ToOthers c roomId) "user-typing"
            (JsObject [("userId", JsString c); ("username", JsString (username userData));
                       ("isTyping", isTyping)]%string) s
      | None => s
      end
  | None => s
  end.

Definition requestSync (c roomId : jsstring) (s : Server) : Server :=
  emit (ToOthers c roomId) "sync-requested" (JsObject [("from", JsString c)]%string) s.

Definition sendSync (c to : jsstring) (roomId state : JsValue) (s : Server) : Server :=
  emit (ToRoom to) "receive-sync"
    (JsObject [("from", JsString c); ("roomId", roomId); ("state", state)]%string) s.

(** The [leave-room] handler. *)
Definition leaveRoom (c : jsstring) (roomId : JsValue) (s : Server) : Server :=
  handleUserLeaving c roomId s.

(** The callback of the [disconnect] handler, on the entry [roomId] of the
    registry: [users] is the room as it is when the entry is visited. *)
Definition disconnectVisit (c : jsstring) (acc : Server) (roomId : jsstring) : Server :=
  match JsMap.get roomId (rooms acc) with
  | Some users =>
      if JsMap.has c users then handleUserLeaving c (JsString roomId) acc else acc
  | None => acc
  end.

(** The [disconnect] handler: [rooms.forEach] visits the entries in
    insertion order; an entry the callback deletes is the one it is visiting,
    so every entry present at the start is visited. *)
Definition onDisconnect (c : jsstring) (s : Server) : Server :=
  fold_left (disconnectVisit c) (JsMap.keys (rooms s)) s.

(** The callback of [cleanupEmptyRooms]; the second component is
    [emptyRooms]. *)
Definition sweepVisit (acc : Server * list jsstring) (roomId : jsstring) : Server * list jsstring :=
  match JsMap.get roomId (rooms acc.1) with
  | Some users =>
      if bool_decide (JsMap.size users = 0)
      then (withMetadata (base.delete roomId) (withRooms (JsMap.delete roomId) acc.1),
            acc.2 ++ [roomId])
      else acc
  | None => acc
  end.

(** [cleanupEmptyRooms(rooms, roomMetadata)], with the ids it returns. *)
Definition cleanupEmptyRooms (s : Server) : Server * list jsstring :=
  fold_left sweepVisit (JsMap.keys (rooms s)) (s, []).

(** ** Events

    What a client can send on its socket.  The relay events name a room or
    a peer by a string, as the interface declares; [join-room] and
    [leave-room] are modelled for every value of [roomId]. *)
Inductive ClientEvent : Type :=
| JoinRoom (roomId uname uid : JsValue) (clk : Clock)
| YjsUpdate (roomId : jsstring) (update : JsValue)
| AwarenessUpdate (roomId : jsstring) (update : JsValue)
| CursorUpdate (roomId : jsstring) (position : JsValue)
| Typing (roomId : jsstring) (isTyping : JsValue)
| RequestSync (roomId : jsstring)
| SendSync (to : jsstring) (roomId state : JsValue)
| LeaveRoom (roomId : JsValue).

(** [setupSocketHandlers]: the handler each event of socket [c] runs. *)
Definition handle (c : jsstring) (e : ClientEvent) (s : Server) : Server :=
  match e with
  | JoinRoom roomId uname uid clk => joinRoom c roomId uname uid clk s
  | YjsUpdate roomId update => yjsUpdate c roomId update s
  | AwarenessUpdate roomId update => awarenessUpdate c roomId update s
  | CursorUpdate roomId position => cursorUpdate c roomId position s
  | Typing roomId isTyping => typing c roomId isTyping s
  | RequestSync roomId => requestSync c roomId s
  | SendSync to roomId state => sendSync c to roomId state s
  | LeaveRoom roomId => leaveRoom c roomId s
  end.

(** What happens to the server: a socket connects, a connected socket sends
    an event, a socket disconnects, the periodic sweep runs. *)
Inductive Event : Type :=
| Connect (c : jsstring)
| Receive (c : jsstring) (e : ClientEvent)
| Disconnect (c : jsstring)
| Sweep.

(** The socket [c] is connected: the adapter knows it. *)
Definition connected (c : jsstring) (s : Server) : bool := JsMap.has c (sids s).

(** One event, handled to completion.  On connection socket.io puts the
    socket in the room of its own id; on disconnection it takes the socket
    out of all its rooms and then fires [disconnect]. *)
Definition step (s : Server) (ev : Event) : Server :=
  match ev with
  | Connect c => if connected c s then s else withSids (JsMap.set c [c]) s
  | Receive c e => if connected c s then handle c e s else s
  | Disconnect c =>
      if connected c s then onDisconnect c (withSids (JsMap.delete c) s) else s
  | Sweep => (cleanupEmptyRooms s).1
  end.

(** The events [evs], one after the other. *)
Definition run (evs : list Event) (s : Server) : Server := fold_left step evs s.

(** The rooms of the registry that list [c] as a member. *)
Definition memberships (c : jsstring) (s : Server) : list jsstring :=
  List.map fst (List.filter (fun e => JsMap.has c e.2) (rooms s)).

(** The member record of [c] in room [r], if any. *)
Definition member (c r : jsstring) (s : Server) : option UserData :=
  JsMap.get r (rooms s) ≫= JsMap.get c.

(** ** Predicates of the statements *)

(** The ways a [roomId] fails validation: it is not a string, or it is
    empty, or has 100 code units or more, or holds a code unit outside
    [[a-zA-Z0-9-_]]. *)
Definition invalidRoomId (roomId : JsValue) : Prop :=
  (∀ r, roomId ≠ JsString r) ∨
  ∃ r, roomId = JsString r ∧
       (r = [] ∨ 100 ≤ length r ∨ ∃ ch, ch ∈ r ∧ isRoomIdChar ch = false).

(** The room named by [roomId] is absent from the registry, or does not
    hold [c]. *)
Definition notMemberOf (c : jsstring) (roomId : JsValue) (s : Server) : Prop :=
  ∀ r, roomId = JsString r →
       JsMap.get r (rooms s) = None ∨
       ∃ room, JsMap.get r (rooms s) = Some room ∧ JsMap.has c room = false.

(** Every room of the registry has a member. *)
Definition roomsNonEmpty (s : Server) : Prop :=
  ∀ r room, JsMap.get r (rooms s) = Some room → 1 ≤ JsMap.size room.

(** The [user-left] emission for [c] leaving [r]: sent with [socket.to(r)]
    under the given adapter, its payload has the two fields [userId] and
    [username]. *)
Definition userLeft (c r : jsstring) (user : UserData) (adapter : JsMap (list jsstring)) : Emission :=
  {| target := ToOthers c r; delivered := recipients adapter (ToOthers c r);
     event := "user-left";
     payload := JsObject [("userId", JsString c); ("username", JsString (username user))]%string |}.

(** The string holds neither [<] nor [>]. *)
Definition noAngles (x : jsstring) : Prop := Forall (fun ch => ch ≠ 60%N ∧ ch ≠ 62%N) x.

(** The last code unit of the string is one that [trim] removes. *)
Definition endsWithWhiteSpace (x : jsstring) : bool :=
  match last x with
  | Some ch => isWhiteSpace ch
  | None => false
  end.

(** The first code unit of the string, if any, is not one that [trim]
    removes. *)
Definition startsClean (x : jsstring) : Prop :=
  match x with
  | [] => True
  | ch :: _ => isWhiteSpace ch = false
  end.

(** The number a string of decimal digits denotes. *)
Definition decimalValue (ds : jsstring) : N :=
  fold_left (fun a d => (10 * a + (d - 48))%N) ds 0%N.

(** The range of an ECMAScript time value, which bounds [Date.now()]. *)
Definition timeValue (t : Z) : Prop := (-8640000000000000 ≤ t ≤ 8640000000000000)%Z.

(** [room.size] for the room [r] of the registry, 0 when there is none. *)
Definition memberCount (r : jsstring) (s : Server) : nat :=
  JsMap.size (default [] (JsMap.get r (rooms s))).

(** The socket on whose behalf an event runs a handler of
    [setupSocketHandlers]. *)
Definition actsFor (ev : Event) : option jsstring :=
  match ev with
  | Receive c _ | Disconnect c => Some c
  | Connect _ | Sweep => None
  end.

(** The events that only relay. *)
Definition isRelay (e : ClientEvent) : bool :=
  match e with
  | JoinRoom _ _ _ _ | LeaveRoom _ => false
  | _ => true
  end.

(** A client about to join: its socket id and the fields of its
    [join-room] payload, with the clock readings of its join. *)
Record Joiner : Type := mkJoiner {
  joinerId : jsstring;
  joinerName : JsValue;
  joinerUserId : JsValue;
  joinerClock : Clock
}.

(** The [join-room] of [j] for the room [r]. *)
Definition joinEvent (r : jsstring) (j : Joiner) : Event :=
  Receive (joinerId j) (JoinRoom (JsString r) (joinerName j) (joinerUserId j) (joinerClock j)).

(** The room the connection [c] should be in after the events [evs],
    starting from [cur]: the [roomId] of its last [join-room] that passes
    validation. *)
Definition lastValidJoin (c : jsstring) (cur : option jsstring) (evs : list Event) : option jsstring :=
  fold_left
    (fun acc ev =>
       match ev with
       | Receive c' (JoinRoom (JsString r) _ _ _) =>
           if bool_decide (c' = c) && isValidRoomId (JsString r) then Some r else acc
       | _ => acc
       end)
    evs cur.

(** The events handled for [c] are [join-room]s that do not name the room
    of its own id; the other sockets do as they please. *)
Definition onlyJoinsElsewhere (c : jsstring) (ev : Event) : Prop :=
  match ev with
  | Receive c' e =>
      c' = c → match e with JoinRoom roomId _ _ _ => roomId ≠ JsString c | _ => False end
  | Disconnect c' => c' ≠ c
  | Connect _ | Sweep => True
  end.

(** The rooms of the registry that list [c] are rooms its socket has
    joined, and none is the room of its own id. *)
Definition membershipsTracked (c : jsstring) (s : Server) : Prop :=
  ∀ r, member c r s ≠ None → r ∈ socketRooms c s ∧ r ≠ c.

(** The room named by the id of [c] holds the socket [c] and no other: no
    other socket has joined a room of that name, and [c] has not left it. *)
Definition ownRoomPrivate (c : jsstring) (s : Server) : Prop :=
  ∀ x, c ∈ socketRooms x s ↔ x = c.

(** No map of the state holds a key twice, as in a JavaScript [Map]. *)
Definition wellFormed (s : Server) : Prop :=
  NoDup (JsMap.keys (rooms s)) ∧
  (∀ r room, JsMap.get r (rooms s) = Some room → NoDup (JsMap.keys room)) ∧
  NoDup (JsMap.keys (sids s)).

(** The metadata registry has an entry for the rooms of the registry and
    for no other id. *)
Definition metadataInStep (s : Server) : Prop :=
  ∀ r, JsMap.has r (rooms s) = true ↔ is_Some (roomMetadata s !! r).

(** The adapter and the registry agree: apart from the room of its own id,
    a socket has joined the rooms that list it as a member and no other, and
    the registry lists connected sockets only. *)
Definition coherent (s : Server) : Prop :=
  ∀ x, (∀ r, r ≠ x → (r ∈ socketRooms x s ↔ member x r s ≠ None)) ∧
       (∀ r, member x r s ≠ None → connected x s = true).

(** The states the server reaches from its start. *)
Definition reachable (s : Server) : Prop := ∃ evs, s = run evs initial.

(** ** The rest of roomManager.js *)

(** The object [getRoomMetadata] returns; [None] in [createdAt] and
    [createdBy] is [undefined] (no metadata under that id). *)
Record RoomInfo : Type := mkRoomInfo {
  infoRoomId : jsstring;
  infoUserCount : nat;
  infoUsers : list UserData;
  infoCreatedAt : option jsstring;
  infoCreatedBy : option jsstring
}.

(** [getRoomMetadata(rooms, roomMetadata, roomId)]; [None] is [null]. *)
Definition getRoomMetadata (rms : JsMap (JsMap UserData)) (md : gmap (list N) RoomMeta)
    (roomId : jsstring) : option RoomInfo :=
  match JsMap.get roomId rms with
  | None => None
  | Some room =>
      Some {| infoRoomId := roomId;
              infoUserCount := JsMap.size room;
              infoUsers := getRoomUsers rms roomId;
              infoCreatedAt := createdAt <$> md !! roomId;
              infoCreatedBy := createdBy <$> md !! roomId |}
  end.

(** [getUserColor(index)] for an integer [index] of either sign.  The
    remainder [%] has the sign of the dividend, and an array has no element
    at a negative index: the read gives [undefined] there.  On the sizes of
    rooms this is [getUserColor]. *)
Definition getUserColorAt (index : Z) : JsValue :=
  let i := Z.rem index (Z.of_nat (length USER_COLORS)) in
  if (i <? 0)%Z then JsUndefined
  else
    match USER_COLORS !! Z.to_nat i with
    | Some c => JsString c
    | None => JsUndefined
    end.

(** A member record as the join handler builds it: its [id] is the socket it
    is stored under, its name is not empty, holds neither [<] nor [>] and
    does not begin with white space, and its colour is one of the palette. *)
Definition recordOk (c : jsstring) (u : UserData) : Prop :=
  id_ u = c ∧ username u ≠ [] ∧ noAngles (username u) ∧ startsClean (username u) ∧
  ∃ col, col ∈ USER_COLORS ∧ color u = JsString col.

(** Every code unit of the string is white space, [<] or [>]. *)
Definition blankOrAngles (x : jsstring) : Prop :=
  Forall (fun ch => isWhiteSpace ch = true ∨ ch = 60%N ∨ ch = 62%N) x.

(** The [userData] object the [join-room] handler of [c] stores for the name
    [uname], the user id [uid] and the clock readings [clk], when the room
    holds [n] members. *)
Definition writtenByJoin (c : jsstring) (uname uid : JsValue) (clk : Clock) (n : nat)
    (u : UserData) : Prop :=
  u = {| id_ := c;
         username := sanitizeUsername (guestMillis clk) uname;
         userId := if truthy uid then uid else JsString c;
         color := getUserColor n;
         joinedAt := joinedAtIso clk |}.

(** The registry holds the room [r] with no member in it. *)
Definition emptyRoom (r : jsstring) (s : Server) : bool :=
  match JsMap.get r (rooms s) with
  | Some users => bool_decide (JsMap.size users = 0)
  | None => false
  end.

(** * Properties *)

(** ** Facts about [JsMap] and lists *)

Section JsMapFacts.
Context {V : Type}.
Implicit Types (k : list N) (v : V) (m : JsMap V).

Lemma get_set_eq k v m : JsMap.get k (JsMap.set k v m) = Some v.
Proof.
  induction m as [|[k' v'] m IH]; simpl.
  - by rewrite decide_True.
  - destruct (decide (k' = k)) as [->|Hne]; simpl.
    + by rewrite decide_True.
    + by rewrite decide_False.
Qed.

Lemma get_set_ne k k' v m : k ≠ k' → JsMap.get k' (JsMap.set k v m) = JsMap.get k' m.
Proof.
  intros Hne. induction m as [|[k0 v0] m IH]; simpl.
  - by rewrite decide_False.
  - destruct (decide (k0 = k)) as [->|Hk0]; simpl.
    + by rewrite !decide_False.
    + destruct (decide (k0 = k')); [done | apply IH].
Qed.

Lemma get_delete_eq k m : JsMap.get k (JsMap.delete k m) = None.
Proof.
  induction m as [|[k' v'] m IH]; simpl; [done|].
  destruct (decide (k' = k)); simpl; [done|]. by rewrite decide_False.
Qed.

Lemma get_delete_ne k k' m : k ≠ k' → JsMap.get k' (JsMap.delete k m) = JsMap.get k' m.
Proof.
  intros Hne. induction m as [|[k0 v0] m IH]; simpl; [done|].
  destruct (decide (k0 = k)) as [->|Hk0]; simpl.
  - by rewrite decide_False.
  - destruct (decide (k0 = k')); [done | apply IH].
Qed.

Lemma has_true k m : JsMap.has k m = true ↔ ∃ v, JsMap.get k m = Some v.
Proof.
  unfold JsMap.has. destruct (JsMap.get k m); split; eauto; try done.
  by intros [? ?].
Qed.

Lemma has_false k m : JsMap.has k m = false ↔ JsMap.get k m = None.
Proof. unfold JsMap.has. by destruct (JsMap.get k m). Qed.

Lemma get_nil k : JsMap.get k ([] : JsMap V) = None.
Proof. done. Qed.

Lemma set_size_pos k v m : 0 < JsMap.size (JsMap.set k v m).
Proof.
  destruct m as [|[k' v'] m]; simpl; [lia|].
  destruct (decide (k' = k)); simpl; lia.
Qed.

Lemma set_size_fresh k v m :
  JsMap.get k m = None → JsMap.size (JsMap.set k v m) = S (JsMap.size m).
Proof.
  unfold JsMap.size. induction m as [|[k' v'] m IH]; simpl; [done|].
  destruct (decide (k' = k)); [done|]. intros H. simpl. by rewrite IH.
Qed.

Lemma set_fresh k v m : JsMap.get k m = None → JsMap.set k v m = m ++ [(k, v)].
Proof.
  induction m as [|[k' v'] m IH]; simpl; [done|].
  destruct (decide (k' = k)); [done|]. intros H. by rewrite IH.
Qed.

Lemma get_keys k m : JsMap.get k m = None ↔ k ∉ JsMap.keys m.
Proof.
  unfold JsMap.keys. induction m as [|[k' v'] m IH]; simpl.
  - split; [intros _; apply not_elem_of_nil | done].
  - rewrite not_elem_of_cons. destruct (decide (k' = k)) as [->|Hne].
    + split; [done | by intros [? _]].
    + rewrite IH. split; [by split | by intros [_ ?]].
Qed.

(** A map never holds two entries under one key. *)
Lemma set_NoDup k v m : NoDup (JsMap.keys m) → NoDup (JsMap.keys (JsMap.set k v m)).
Proof.
  unfold JsMap.keys. induction m as [|[k' v'] m IH]; simpl.
  - intros _. apply NoDup_singleton.
  - rewrite NoDup_cons. intros [Hk' Hm].
    destruct (decide (k' = k)) as [->|Hne]; simpl; rewrite NoDup_cons; [done|].
    split; [|by apply IH].
    apply (get_keys k'). rewrite get_set_ne by done. by apply get_keys.
Qed.

Lemma delete_NoDup k m : NoDup (JsMap.keys m) → NoDup (JsMap.keys (JsMap.delete k m)).
Proof.
  unfold JsMap.keys. induction m as [|[k' v'] m IH]; simpl; [done|].
  rewrite NoDup_cons. intros [Hk' Hm].
  destruct (decide (k' = k)) as [->|Hne]; simpl; [by apply IH|].
  rewrite NoDup_cons. split; [|by apply IH].
  apply (get_keys k'). rewrite get_delete_ne by done. by apply get_keys.
Qed.
End JsMapFacts.

Lemma get_Some_keys {V} (k : list N) (v : V) (m : JsMap V) :
  JsMap.get k m = Some v → k ∈ JsMap.keys m.
Proof.
  intros H. destruct (decide (k ∈ JsMap.keys m)) as [|Hn]; [done|].
  apply get_keys in Hn. congruence.
Qed.

Lemma get_app_l {V} (k : list N) (v : V) (m m' : JsMap V) :
  JsMap.get k m = Some v → JsMap.get k (m ++ m') = Some v.
Proof.
  induction m as [|[k0 v0] m IH]; simpl; [done|].
  by destruct (decide (k0 = k)).
Qed.

Lemma delete_nil {V} (c : list N) (u : V) : JsMap.delete c [(c, u)] = [].
Proof. simpl. by rewrite decide_True. Qed.

Lemma fold_left_invariant {A B} (P : A → Prop) (f : A → B → A) (l : list B) (a : A) :
  (∀ a b, P a → P (f a b)) → P a → P (fold_left f l a).
Proof. intros Hf. revert a. induction l as [|b l IH]; simpl; auto. Qed.

Lemma forallb_false {A} (f : A → bool) (l : list A) :
  forallb f l = false ↔ ∃ x, x ∈ l ∧ f x = false.
Proof.
  induction l as [|a l IH]; simpl.
  - split; [done | intros (x & Hin & _); by apply elem_of_nil in Hin].
  - rewrite andb_false_iff, IH. split.
    + intros [Ha|(x & Hin & Hx)]; [exists a | exists x]; split; try done.
      * apply list_elem_of_here.
      * by apply list_elem_of_further.
    + intros (x & Hin & Hx). apply elem_of_cons in Hin as [->|Hin]; eauto.
Qed.

Lemma elem_of_map {A B} (f : A → B) (x : A) (l : list A) : x ∈ l → f x ∈ List.map f l.
Proof. rewrite !list_elem_of_In. apply in_map. Qed.

Lemma elem_of_add x l : x ∈ JsSet.add x l.
Proof.
  unfold JsSet.add. case_bool_decide; [done|].
  apply elem_of_app. right. apply list_elem_of_here.
Qed.

Lemma elem_of_add_other x y l : y ∈ l → y ∈ JsSet.add x l.
Proof.
  unfold JsSet.add. case_bool_decide; [done|].
  intros Hy. apply elem_of_app. by left.
Qed.

Lemma elem_of_set_delete x y (l : list jsstring) : x ∈ JsSet.delete y l ↔ x ∈ l ∧ x ≠ y.
Proof.
  unfold JsSet.delete. rewrite list_elem_of_In, filter_In, negb_true_iff, bool_decide_eq_false.
  by rewrite <- list_elem_of_In.
Qed.

(** ** Validation of room ids *)

Lemma roomIdPattern_false (r : jsstring) :
  roomIdPattern r = false ↔ r = [] ∨ ∃ ch, ch ∈ r ∧ isRoomIdChar ch = false.
Proof.
  destruct r as [|c r]; [by split; [left|]|].
  unfold roomIdPattern. rewrite forallb_false. split; [by right|].
  by intros [?|?].
Qed.

Lemma isValidRoomId_string (r : jsstring) :
  isValidRoomId (JsString r) = (0 <? length r) && (length r <? 100) && roomIdPattern r.
Proof. done. Qed.

Lemma isValidRoomId_false (roomId : JsValue) :
  isValidRoomId roomId = false ↔ invalidRoomId roomId.
Proof.
  unfold invalidRoomId. split.
  - destruct roomId as [| | | |r| |]; try (intros _; left; intros r; discriminate).
    rewrite isValidRoomId_string, !andb_false_iff, Nat.ltb_ge, Nat.ltb_ge.
    rewrite roomIdPattern_false. intros H. right. exists r. split; [done|].
    destruct H as [[H|H]|[H|H]]; auto.
    left. destruct r; [done | simpl in H; lia].
  - intros [H|(r & -> & H)].
    + destruct roomId; try done. by destruct (H s).
    + rewrite isValidRoomId_string, !andb_false_iff, Nat.ltb_ge, Nat.ltb_ge.
      rewrite roomIdPattern_false. destruct H as [->|[H|H]]; auto.
Qed.

Lemma isValidRoomId_true (roomId : JsValue) :
  isValidRoomId roomId = true →
  ∃ r, roomId = JsString r ∧ r ≠ [] ∧ length r < 100 ∧ Forall (fun ch => isRoomIdChar ch = true) r.
Proof.
  destruct roomId as [| | | |r| |]; try done.
  rewrite isValidRoomId_string, !andb_true_iff, Nat.ltb_lt, Nat.ltb_lt.
  intros [[Hpos Hlt] Hpat]. exists r. repeat split; try done.
  - by destruct r; [simpl in Hpos; lia|].
  - destruct r; [done|]. unfold roomIdPattern in Hpat.
    rewrite forallb_forall in Hpat. apply Forall_forall. intros ch Hin.
    by apply Hpat, list_elem_of_In.
Qed.

(** ** Sanitizing user names *)

Lemma stripAngles_id x : noAngles x → stripAngles x = x.
Proof.
  unfold noAngles, stripAngles. induction 1 as [|ch x [H60 H62] _ IH]; simpl; [done|].
  rewrite (proj2 (N.eqb_neq ch 60)), (proj2 (N.eqb_neq ch 62)) by done.
  simpl. by rewrite IH.
Qed.

Lemma trimStart_suffix x : ∃ ws, x = ws ++ trimStart x.
Proof.
  induction x as [|ch x [ws IH]]; simpl; [by exists []|].
  destruct (isWhiteSpace ch); [|by exists []].
  exists (ch :: ws). simpl. by rewrite <- IH.
Qed.

Lemma trimStart_startsClean x : startsClean (trimStart x).
Proof.
  induction x as [|ch x IH]; simpl; [done|].
  destruct (isWhiteSpace ch) eqn:E; [done|]. simpl. done.
Qed.

Lemma trimStart_id x : startsClean x → trimStart x = x.
Proof. destruct x as [|ch x]; simpl; [done|]. by intros ->. Qed.

Lemma trimEnd_prefix x : trimEnd x `prefix_of` x.
Proof.
  unfold trimEnd. destruct (trimStart_suffix (rev x)) as [ws Hws].
  exists (rev ws). rewrite <- rev_app_distr, <- Hws. by rewrite rev_involutive.
Qed.

Lemma prefix_startsClean (p x : jsstring) : p `prefix_of` x → startsClean x → startsClean p.
Proof. intros [k ->]. by destruct p. Qed.

Lemma last_rev_head (x : jsstring) : last x = head (rev x).
Proof.
  induction x as [|ch x IH] using rev_ind; [done|].
  by rewrite last_snoc, rev_app_distr.
Qed.

Lemma trimEnd_id x : endsWithWhiteSpace x = false → trimEnd x = x.
Proof.
  unfold endsWithWhiteSpace, trimEnd. rewrite last_rev_head. intros H.
  rewrite trimStart_id; [apply rev_involutive|].
  by destruct (rev x).
Qed.

Lemma trim_startsClean x : startsClean (trim x).
Proof.
  unfold trim. eapply prefix_startsClean; [apply trimEnd_prefix|].
  apply trimStart_startsClean.
Qed.

Lemma trim_id x : startsClean x → endsWithWhiteSpace x = false → trim x = x.
Proof. intros H1 H2. unfold trim. rewrite trimStart_id by done. by apply trimEnd_id. Qed.

Lemma trimStart_noAngles x : noAngles x → noAngles (trimStart x).
Proof.
  unfold noAngles. destruct (trimStart_suffix x) as [ws Hws]. rewrite Hws at 1.
  rewrite Forall_app. by intros [_ ?].
Qed.

Lemma trim_noAngles x : noAngles x → noAngles (trim x).
Proof.
  intros H. apply trimStart_noAngles in H. unfold trim.
  destruct (trimEnd_prefix (trimStart x)) as [k Hk]. unfold noAngles in *.
  rewrite Hk in H. apply Forall_app in H. tauto.
Qed.

(** A clean name is returned as it is. *)
Lemma sanitizeUsername_clean t y :
  y ≠ [] → noAngles y → startsClean y → endsWithWhiteSpace y = false → length y ≤ 50 →
  sanitizeUsername t (JsString y) = y.
Proof.
  intros Hne Hang Hstart Hend Hlen. unfold sanitizeUsername. simpl.
  rewrite bool_decide_eq_false_2 by done. simpl.
  rewrite stripAngles_id, trim_id, take_ge by done.
  by rewrite bool_decide_eq_false_2.
Qed.

(** The guest name: its length and its code units. *)
Lemma digit_clean n : (n < 10)%N → isWhiteSpace (48 + n) = false ∧ (48 + n ≠ 60 ∧ 48 + n ≠ 62)%N.
Proof.
  intros H. split; [|lia]. unfold isWhiteSpace.
  repeat match goal with
         | |- context [(?a =? ?b)%N] => rewrite (proj2 (N.eqb_neq a b)) by lia
         end.
  rewrite (proj2 (N.leb_gt 8192 _)) by lia. done.
Qed.

Lemma digitsAux_length fuel : ∀ k n acc,
  (n < 10 ^ N.of_nat (S k))%N → length (digitsAux fuel n acc) ≤ length acc + S k.
Proof.
  induction fuel as [|fuel IH]; intros k n acc Hn; simpl; [lia|].
  destruct (N.ltb_spec n 10) as [Hlt|Hge]; simpl; [lia|].
  destruct k as [|k].
  { change (10 ^ N.of_nat 1)%N with 10%N in Hn. lia. }
  etrans; [apply (IH k)|simpl; lia].
  rewrite Nat2N.inj_succ, N.pow_succ_r' in Hn.
  apply N.Div0.div_lt_upper_bound. lia.
Qed.

Lemma digitsAux_clean fuel : ∀ n acc,
  Forall (fun ch => isWhiteSpace ch = false ∧ (ch ≠ 60 ∧ ch ≠ 62)%N) acc →
  Forall (fun ch => isWhiteSpace ch = false ∧ (ch ≠ 60 ∧ ch ≠ 62)%N) (digitsAux fuel n acc).
Proof.
  induction fuel as [|fuel IH]; intros n acc Hacc; simpl; [done|].
  assert (Forall (fun ch => isWhiteSpace ch = false ∧ (ch ≠ 60 ∧ ch ≠ 62)%N)
            ((48 + n mod 10)%N :: acc)) as Hacc'.
  { constructor; [|done]. apply digit_clean. by apply N.mod_lt. }
  destruct (n <? 10)%N; [done|]. by apply IH.
Qed.

Lemma digitsAux_nonempty fuel n acc : acc ≠ [] → digitsAux fuel n acc ≠ [].
Proof.
  revert n acc. induction fuel as [|fuel IH]; intros n acc Hacc; simpl; [done|].
  destruct (n <? 10)%N; [done|]. by apply IH.
Qed.

(** The fuel of [digits] is enough: the digits denote the number. *)
Lemma digitsAux_value fuel : ∀ n acc,
  (n < 2 ^ N.of_nat fuel)%N →
  ∃ ds, digitsAux fuel n acc = ds ++ acc ∧ decimalValue ds = n.
Proof.
  induction fuel as [|fuel IH]; intros n acc Hn.
  { change (2 ^ N.of_nat 0)%N with 1%N in Hn. exists []. split; [done|].
    unfold decimalValue. simpl. lia. }
  simpl. destruct (N.ltb_spec n 10) as [Hlt|Hge].
  - exists [(48 + n)%N]. rewrite N.mod_small by done. split; [done|].
    unfold decimalValue. simpl. lia.
  - destruct (IH (n / 10)%N ((48 + n mod 10)%N :: acc)) as (ds & -> & Hds).
    { rewrite Nat2N.inj_succ, N.pow_succ_r' in Hn.
      apply N.Div0.div_lt_upper_bound. lia. }
    exists (ds ++ [(48 + n mod 10)%N]). rewrite <- app_assoc. split; [done|].
    unfold decimalValue in *. rewrite fold_left_app, Hds. simpl.
    pose proof (N.Div0.div_mod n 10) as Hdm. revert Hdm.
    generalize (n / 10)%N (n mod 10)%N. intros q m Hdm. lia.
Qed.

Lemma digits_value n : decimalValue (digits n) = n.
Proof.
  unfold digits.
  destruct (digitsAux_value (S (N.to_nat (N.log2 n))) n []) as (ds & -> & Hds).
  - rewrite Nat2N.inj_succ, N2Nat.id. destruct n as [|p]; [done|].
    apply N.log2_spec. lia.
  - by rewrite app_nil_r.
Qed.

Lemma numberToString_length t : timeValue t → length (numberToString t) ≤ 17.
Proof.
  unfold timeValue, numberToString, digits. intros Ht.
  destruct (Z.ltb_spec t 0); simpl length.
  - pose proof (digitsAux_length (S (N.to_nat (N.log2 (Z.to_N (- t))))) 15 (Z.to_N (- t)) []) as H'.
    simpl length in H'. cut (Z.to_N (- t) < 10 ^ N.of_nat 16)%N; [lia|].
    change (10 ^ N.of_nat 16)%N with 10000000000000000%N. lia.
  - pose proof (digitsAux_length (S (N.to_nat (N.log2 (Z.to_N t)))) 15 (Z.to_N t) []) as H'.
    simpl length in H'. cut (Z.to_N t < 10 ^ N.of_nat 16)%N; [lia|].
    change (10 ^ N.of_nat 16)%N with 10000000000000000%N. lia.
Qed.

Lemma numberToString_clean t :
  Forall (fun ch => isWhiteSpace ch = false ∧ (ch ≠ 60 ∧ ch ≠ 62)%N) (numberToString t).
Proof.
  unfold numberToString, digits. destruct (t <? 0)%Z.
  - constructor; [done|]. by apply digitsAux_clean.
  - by apply digitsAux_clean.
Qed.

Lemma numberToString_nonempty t : numberToString t ≠ [].
Proof.
  unfold numberToString, digits. destruct (t <? 0)%Z; [done|].
  simpl. destruct (_ <? 10)%N; [done|]. by apply digitsAux_nonempty.
Qed.

Lemma guestName_clean t :
  Forall (fun ch => isWhiteSpace ch = false ∧ (ch ≠ 60 ∧ ch ≠ 62)%N) (guestName t).
Proof.
  unfold guestName. apply Forall_app. split; [|apply numberToString_clean].
  vm_compute. repeat constructor; discriminate.
Qed.

Lemma clean_endsWithWhiteSpace y :
  Forall (fun ch => isWhiteSpace ch = false ∧ (ch ≠ 60 ∧ ch ≠ 62)%N) y →
  endsWithWhiteSpace y = false.
Proof.
  unfold endsWithWhiteSpace. intros H. destruct (last y) as [ch|] eqn:E; [|done].
  apply last_Some in E as [l' ->]. apply Forall_app in H as [_ H].
  by apply Forall_singleton in H as [? _].
Qed.

Lemma guestName_fixed t1 t2 :
  timeValue t1 → sanitizeUsername t2 (JsString (guestName t1)) = guestName t1.
Proof.
  intros Ht. pose proof (guestName_clean t1) as Hclean.
  apply sanitizeUsername_clean.
  - done.
  - unfold noAngles. eapply Forall_impl; [exact Hclean|]. by intros ch [_ ?].
  - done.
  - by apply clean_endsWithWhiteSpace.
  - unfold guestName. rewrite length_app. pose proof (numberToString_length t1 Ht).
    change (length (jsstr "Guest-")) with 6. lia.
Qed.

Lemma sanitizeUsername_string t x :
  sanitizeUsername t (JsString x) =
  if bool_decide (take 50 (trim (stripAngles x)) = []) then guestName t
  else take 50 (trim (stripAngles x)).
Proof.
  unfold sanitizeUsername. simpl. destruct x as [|ch x]; [done|].
  by rewrite bool_decide_eq_false_2.
Qed.

Lemma trimStart_length x : length (trimStart x) ≤ length x.
Proof.
  destruct (trimStart_suffix x) as [ws Hws]. rewrite Hws at 2.
  rewrite length_app. lia.
Qed.

Lemma trimEnd_shorter x : endsWithWhiteSpace x = true → length (trimEnd x) < length x.
Proof.
  unfold endsWithWhiteSpace, trimEnd. rewrite last_rev_head, length_rev.
  rewrite <- (length_rev x). destruct (rev x) as [|ch rest]; simpl; [done|].
  intros ->. pose proof (trimStart_length rest). lia.
Qed.

(** A name that ends in white space is not returned as it is. *)
Lemma sanitizeUsername_trailing_space t y :
  noAngles y → startsClean y → endsWithWhiteSpace y = true →
  sanitizeUsername t (JsString y) ≠ y.
Proof.
  intros Hang Hstart Hend. rewrite sanitizeUsername_string, stripAngles_id by done.
  case_bool_decide as Hempty.
  - intros Heq. pose proof (clean_endsWithWhiteSpace _ (guestName_clean t)) as Hg.
    rewrite Heq in Hg. congruence.
  - intros Heq. apply (f_equal length) in Heq. rewrite length_take in Heq.
    unfold trim in Heq. rewrite trimStart_id in Heq by done.
    pose proof (trimEnd_shorter y Hend). lia.
Qed.

(** ** The palette *)

Lemma getUserColor_palette n :
  ∃ col, USER_COLORS !! (n mod 12) = Some col ∧ getUserColor n = JsString col.
Proof.
  unfold getUserColor. change (length USER_COLORS) with 12.
  destruct (USER_COLORS !! (n mod 12)) as [col|] eqn:E; [eauto|].
  apply lookup_ge_None in E. change (length USER_COLORS) with 12 in E.
  pose proof (Nat.mod_upper_bound n 12). lia.
Qed.

(** ** Who receives an emission *)

Lemma elem_of_inRoom x room s : x ∈ inRoom room (sids s) ↔ room ∈ socketRooms x s.
Proof.
  unfold inRoom, socketRooms. rewrite list_elem_of_In, filter_In, bool_decide_eq_true.
  rewrite <- list_elem_of_In. split; [by intros [_ ?]|].
  intros H. split; [|done].
  destruct (JsMap.get x (sids s)) as [rs|] eqn:Hget; simpl in H.
  - by eapply get_Some_keys.
  - by apply elem_of_nil in H.
Qed.

Lemma elem_of_recipients_others x c room s :
  x ∈ recipients (sids s) (ToOthers c room) ↔ room ∈ socketRooms x s ∧ c ∉ socketRooms x s.
Proof.
  simpl. rewrite list_elem_of_In, filter_In, negb_true_iff, bool_decide_eq_false.
  by rewrite <- list_elem_of_In, !elem_of_inRoom.
Qed.

Lemma inRoom_nil room s : (∀ x, room ∉ socketRooms x s) → inRoom room (sids s) = [].
Proof.
  intros H. destruct (inRoom room (sids s)) as [|x l] eqn:E; [done|].
  destruct (H x). apply elem_of_inRoom. rewrite E. apply list_elem_of_here.
Qed.

(** ** What the small steps touch *)

Lemma emit_rooms t ev p s : rooms (emit t ev p s) = rooms s.
Proof. done. Qed.

Lemma emit_roomMetadata t ev p s : roomMetadata (emit t ev p s) = roomMetadata s.
Proof. done. Qed.

Lemma emit_sids t ev p s : sids (emit t ev p s) = sids s.
Proof. done. Qed.

Lemma socketLeave_rooms c r s : rooms (socketLeave c r s) = rooms s.
Proof. unfold socketLeave. by destruct (JsMap.get c (sids s)). Qed.

Lemma socketLeave_roomMetadata c r s : roomMetadata (socketLeave c r s) = roomMetadata s.
Proof. unfold socketLeave. by destruct (JsMap.get c (sids s)). Qed.

Lemma socketLeave_outbox c r s : outbox (socketLeave c r s) = outbox s.
Proof. unfold socketLeave. by destruct (JsMap.get c (sids s)). Qed.

Lemma socketLeave_disconnected c r s :
  JsMap.get c (sids s) = None → socketLeave c r s = s.
Proof. unfold socketLeave. by intros ->. Qed.

(** The adapter entry of a socket is only touched on its own behalf. *)
Lemma socketLeave_sids_other c c' r s :
  c' ≠ c → JsMap.get c (sids (socketLeave c' r s)) = JsMap.get c (sids s).
Proof.
  intros Hne. unfold socketLeave. destruct (JsMap.get c' (sids s)); [|done].
  simpl. by rewrite get_set_ne.
Qed.

Lemma socketLeave_own_room c k s :
  k ≠ c → (c ∈ socketRooms c (socketLeave c k s) ↔ c ∈ socketRooms c s).
Proof.
  intros Hne. unfold socketLeave, socketRooms.
  destruct (JsMap.get c (sids s)) as [rs|] eqn:Hget; [|by rewrite Hget].
  simpl. rewrite get_set_eq. simpl. rewrite elem_of_set_delete.
  split; [by intros [? _]|]. intros Hin. split; [done | congruence].
Qed.

Lemma socketLeave_nonEmpty c r s : roomsNonEmpty s → roomsNonEmpty (socketLeave c r s).
Proof. unfold roomsNonEmpty. by rewrite socketLeave_rooms. Qed.

Lemma socketRooms_socketJoin c r s : r ∈ socketRooms c (socketJoin c r s).
Proof. unfold socketRooms at 1. simpl. rewrite get_set_eq. apply elem_of_add. Qed.

Lemma socketRooms_connected c s rs : socketRooms c s = rs → rs ≠ [] → connected c s = true.
Proof.
  unfold socketRooms, connected, JsMap.has. destruct (JsMap.get c (sids s)); simpl; [done|].
  by intros <-.
Qed.

Lemma initRoom_sids c r clk s : sids (initRoom c r clk s) = sids s.
Proof. unfold initRoom. by destruct (JsMap.has r (rooms s)). Qed.

Lemma initRoom_outbox c r clk s : outbox (initRoom c r clk s) = outbox s.
Proof. unfold initRoom. by destruct (JsMap.has r (rooms s)). Qed.

Lemma initRoom_get c r clk s :
  JsMap.get r (rooms (initRoom c r clk s)) =
  Some (default [] (JsMap.get r (rooms s))).
Proof.
  unfold initRoom, JsMap.has.
  destruct (JsMap.get r (rooms s)) as [room|] eqn:Hget; simpl; [done|].
  apply get_set_eq.
Qed.

Lemma initRoom_get_other c r r' clk s :
  r ≠ r' → JsMap.get r' (rooms (initRoom c r clk s)) = JsMap.get r' (rooms s).
Proof.
  intros Hne. unfold initRoom. destruct (JsMap.has r (rooms s)); [done|].
  simpl. by rewrite get_set_ne.
Qed.

(** ** What [handleUserLeaving] does to each part of the state *)

Lemma handleUserLeaving_not_string c v s :
  (∀ r, v ≠ JsString r) → handleUserLeaving c v s = s.
Proof. destruct v; try done. intros H. by destruct (H s0). Qed.

Lemma handleUserLeaving_rooms c r s :
  rooms (handleUserLeaving c (JsString r) s) =
  match JsMap.get r (rooms s) with
  | Some room =>
      match JsMap.get c room with
      | Some _ =>
          if 0 <? JsMap.size (JsMap.delete c room)
          then JsMap.set r (JsMap.delete c room) (rooms s)
          else JsMap.delete r (JsMap.set r (JsMap.delete c room) (rooms s))
      | None => rooms s
      end
  | None => rooms s
  end.
Proof.
  unfold handleUserLeaving.
  destruct (JsMap.get r (rooms s)) as [room|]; [|done].
  destruct (JsMap.get c room) as [user|]; [|done].
  rewrite socketLeave_rooms. by destruct (0 <? _).
Qed.

Lemma handleUserLeaving_roomMetadata c r s :
  roomMetadata (handleUserLeaving c (JsString r) s) =
  match JsMap.get r (rooms s) with
  | Some room =>
      match JsMap.get c room with
      | Some _ =>
          if 0 <? JsMap.size (JsMap.delete c room)
          then roomMetadata s else base.delete r (roomMetadata s)
      | None => roomMetadata s
      end
  | None => roomMetadata s
  end.
Proof.
  unfold handleUserLeaving.
  destruct (JsMap.get r (rooms s)) as [room|]; [|done].
  destruct (JsMap.get c room) as [user|]; [|done].
  rewrite socketLeave_roomMetadata. by destruct (0 <? _).
Qed.

Lemma handleUserLeaving_outbox c r s :
  outbox (handleUserLeaving c (JsString r) s) =
  match JsMap.get r (rooms s) with
  | Some room =>
      match JsMap.get c room with
      | Some user =>
          outbox s ++
          {| target := ToOthers c r; delivered := recipients (sids s) (ToOthers c r);
             event := "user-left"; payload := userLeftJs c user |} ::
          (if 0 <? JsMap.size (JsMap.delete c room)
           then [ {| target := ToRoom r; delivered := inRoom r (sids s);
                     event := "room-users";
                     payload := JsArray (List.map userDataJs
                                           (JsMap.values (JsMap.delete c room))) |} ]
           else [])
      | None => outbox s
      end
  | None => outbox s
  end.
Proof.
  unfold handleUserLeaving.
  destruct (JsMap.get r (rooms s)) as [room|]; [|done].
  destruct (JsMap.get c room) as [user|]; [|done].
  rewrite socketLeave_outbox. destruct (0 <? _); simpl; [|done].
  rewrite <- app_assoc. simpl. unfold roomUsersJs, getRoomUsers.
  by rewrite get_set_eq.
Qed.

Lemma handleUserLeaving_sids c v s :
  sids (handleUserLeaving c v s) = sids s ∨
  ∃ r, v = JsString r ∧ sids (handleUserLeaving c v s) = sids (socketLeave c r s).
Proof.
  destruct v as [| | | |r| |]; try by left.
  unfold handleUserLeaving.
  destruct (JsMap.get r (rooms s)) as [room|]; [|by left].
  destruct (JsMap.get c room) as [user|]; [|by left].
  right. exists r. split; [done|].
  unfold socketLeave. simpl. destruct (0 <? _); simpl; by destruct (JsMap.get c (sids s)).
Qed.

Lemma handleUserLeaving_extends c v s :
  ∃ new, outbox (handleUserLeaving c v s) = outbox s ++ new.
Proof.
  destruct v as [| | | |r| |]; try (exists []; by rewrite app_nil_r).
  rewrite handleUserLeaving_outbox.
  destruct (JsMap.get r (rooms s)) as [room|]; [|exists []; by rewrite app_nil_r].
  destruct (JsMap.get c room) as [user|]; [|exists []; by rewrite app_nil_r].
  eauto.
Qed.

Lemma handleUserLeaving_rooms_other c r r' s :
  r ≠ r' → JsMap.get r' (rooms (handleUserLeaving c (JsString r) s)) = JsMap.get r' (rooms s).
Proof.
  intros Hne. rewrite handleUserLeaving_rooms.
  destruct (JsMap.get r (rooms s)) as [room|]; [|done].
  destruct (JsMap.get c room) as [user|]; [|done].
  destruct (0 <? _).
  - by rewrite get_set_ne.
  - by rewrite get_delete_ne, get_set_ne.
Qed.

Lemma handleUserLeaving_sids_disconnected c v s :
  JsMap.get c (sids s) = None → sids (handleUserLeaving c v s) = sids s.
Proof.
  intros H. destruct (handleUserLeaving_sids c v s) as [?|(r & _ & ->)]; [done|].
  by rewrite socketLeave_disconnected.
Qed.

Lemma handleUserLeaving_sids_other c c' v s :
  c' ≠ c → JsMap.get c (sids (handleUserLeaving c' v s)) = JsMap.get c (sids s).
Proof.
  intros Hne. destruct (handleUserLeaving_sids c' v s) as [->|(r & _ & ->)]; [done|].
  by apply socketLeave_sids_other.
Qed.

Lemma handleUserLeaving_own_room c k s :
  k ≠ c →
  (c ∈ socketRooms c (handleUserLeaving c (JsString k) s) ↔ c ∈ socketRooms c s).
Proof.
  intros Hne. unfold socketRooms at 1.
  destruct (handleUserLeaving_sids c (JsString k) s) as [->|(r & [= <-] & ->)]; [done|].
  by apply socketLeave_own_room.
Qed.

Lemma handleUserLeaving_absent c v r s :
  JsMap.get r (rooms s) = None → JsMap.get r (rooms (handleUserLeaving c v s)) = None.
Proof.
  intros Hr. destruct v as [| | | |r0| |]; try done.
  destruct (decide (r0 = r)) as [->|Hne].
  - unfold handleUserLeaving. by rewrite Hr.
  - by rewrite handleUserLeaving_rooms_other.
Qed.

Lemma handleUserLeaving_member_self c r s :
  member c r (handleUserLeaving c (JsString r) s) = None.
Proof.
  unfold member. rewrite handleUserLeaving_rooms.
  destruct (JsMap.get r (rooms s)) as [room|] eqn:Hr; [|by rewrite Hr].
  destruct (JsMap.get c room) as [user|] eqn:Hc; [|by rewrite Hr].
  destruct (0 <? _).
  - rewrite get_set_eq. simpl. apply get_delete_eq.
  - by rewrite get_delete_eq.
Qed.

Lemma handleUserLeaving_member_other c c' v r s :
  c' ≠ c → member c r (handleUserLeaving c' v s) = member c r s.
Proof.
  intros Hne. destruct v as [| | | |r0| |]; try done.
  unfold member. destruct (decide (r0 = r)) as [->|Hr]; [|by rewrite handleUserLeaving_rooms_other].
  rewrite handleUserLeaving_rooms.
  destruct (JsMap.get r (rooms s)) as [room|] eqn:Hroom; [|by rewrite Hroom].
  destruct (JsMap.get c' room) as [user|]; [|by rewrite Hroom].
  destruct (Nat.ltb_spec 0 (JsMap.size (JsMap.delete c' room))) as [Hpos|Hzero].
  - rewrite get_set_eq. simpl. by rewrite get_delete_ne.
  - rewrite get_delete_eq. simpl. rewrite <- (get_delete_ne c' c) by done.
    destruct (JsMap.delete c' room); [done | simpl in Hzero; lia].
Qed.

Lemma handleUserLeaving_nonEmpty c v s :
  roomsNonEmpty s → roomsNonEmpty (handleUserLeaving c v s).
Proof.
  intros Hinv. destruct v as [| | | |r| |]; try done.
  intros r' room'. rewrite handleUserLeaving_rooms.
  destruct (JsMap.get r (rooms s)) as [room|] eqn:Hr; [|apply Hinv].
  destruct (JsMap.get c room) as [user|]; [|apply Hinv].
  destruct (Nat.ltb_spec 0 (JsMap.size (JsMap.delete c room))) as [Hpos|Hzero].
  - destruct (decide (r = r')) as [<-|Hne].
    + rewrite get_set_eq. intros [= <-]. lia.
    + rewrite get_set_ne by done. apply Hinv.
  - destruct (decide (r = r')) as [<-|Hne].
    + by rewrite get_delete_eq.
    + rewrite get_delete_ne, get_set_ne by done. apply Hinv.
Qed.

(** ** The join handler *)

Lemma leaveExistingRooms_fresh c s : socketRooms c s = [c] → leaveExistingRooms c s = s.
Proof.
  intros H. unfold leaveExistingRooms. rewrite H. simpl. unfold leaveVisit.
  by rewrite bool_decide_eq_false_2 by naive_solver.
Qed.

Lemma leaveExistingRooms_absent c r s :
  JsMap.get r (rooms s) = None → JsMap.get r (rooms (leaveExistingRooms c s)) = None.
Proof.
  apply (fold_left_invariant (fun acc => JsMap.get r (rooms acc) = None)).
  intros acc room Hacc. unfold leaveVisit. case_bool_decide; [|done].
  apply handleUserLeaving_absent. by rewrite socketLeave_rooms.
Qed.

Lemma leaveExistingRooms_member_other c c' r s :
  c' ≠ c → member c r (leaveExistingRooms c' s) = member c r s.
Proof.
  intros Hne. unfold leaveExistingRooms.
  apply (fold_left_invariant (fun acc => member c r acc = member c r s)); [|done].
  intros acc room <-. unfold leaveVisit. case_bool_decide; [|done].
  rewrite handleUserLeaving_member_other by done.
  unfold member. by rewrite socketLeave_rooms.
Qed.

Lemma leaveExistingRooms_sids_other c c' s :
  c' ≠ c → JsMap.get c (sids (leaveExistingRooms c' s)) = JsMap.get c (sids s).
Proof.
  intros Hne. unfold leaveExistingRooms.
  apply (fold_left_invariant (fun acc => JsMap.get c (sids acc) = JsMap.get c (sids s))); [|done].
  intros acc room <-. unfold leaveVisit. case_bool_decide; [|done].
  by rewrite handleUserLeaving_sids_other, socketLeave_sids_other.
Qed.

Lemma leaveExistingRooms_own_room c s :
  c ∈ socketRooms c (leaveExistingRooms c s) ↔ c ∈ socketRooms c s.
Proof.
  unfold leaveExistingRooms.
  apply (fold_left_invariant
           (fun acc => c ∈ socketRooms c acc ↔ c ∈ socketRooms c s)); [|done].
  intros acc k <-. unfold leaveVisit. case_bool_decide; [|done].
  by rewrite handleUserLeaving_own_room, socketLeave_own_room.
Qed.

Lemma leaveExistingRooms_nonEmpty c s :
  roomsNonEmpty s → roomsNonEmpty (leaveExistingRooms c s).
Proof.
  apply (fold_left_invariant roomsNonEmpty). intros acc room Hacc. unfold leaveVisit.
  case_bool_decide; [|done].
  by apply handleUserLeaving_nonEmpty, socketLeave_nonEmpty.
Qed.

Lemma leaveVisit_member c k r s :
  member c r (leaveVisit c s k) = if bool_decide (k ≠ c ∧ k = r) then None else member c r s.
Proof.
  unfold leaveVisit. case_bool_decide as Hk.
  - case_bool_decide as Hkr.
    + destruct Hkr as [_ ->]. apply handleUserLeaving_member_self.
    + unfold member. rewrite handleUserLeaving_rooms_other by naive_solver.
      by rewrite socketLeave_rooms.
  - rewrite bool_decide_eq_false_2; [done|]. by intros [? _].
Qed.

Lemma leave_fold_clears c : ∀ l s,
  (∀ r, member c r s ≠ None → r ∈ l ∧ r ≠ c) →
  ∀ r, member c r (fold_left (leaveVisit c) l s) = None.
Proof.
  induction l as [|k l IH]; intros s Hs r; simpl.
  - destruct (member c r s) eqn:E; [|done].
    destruct (Hs r) as [Hin _]; [by rewrite E|]. by apply elem_of_nil in Hin.
  - apply IH. intros r'. rewrite leaveVisit_member. case_bool_decide as Hk; [done|].
    intros Hm. destruct (Hs r' Hm) as [Hin Hne]. split; [|done].
    apply elem_of_cons in Hin as [->|Hin]; [|done].
    destruct Hk. split; [|done]. congruence.
Qed.

Lemma leaveExistingRooms_clears c s :
  membershipsTracked c s → ∀ r, member c r (leaveExistingRooms c s) = None.
Proof. intros H. by apply leave_fold_clears. Qed.

(** The [userData] a valid join builds for [c], given the room it enters. *)
Lemma joinRoom_valid c r uname uid clk s :
  isValidRoomId (JsString r) = true →
  let s3 := initRoom c r clk (socketJoin c r (leaveExistingRooms c s)) in
  let room := default [] (JsMap.get r (rooms s3)) in
  let userData :=
    {| id_ := c; username := sanitizeUsername (guestMillis clk) uname;
       userId := if truthy uid then uid else JsString c;
       color := getUserColor (JsMap.size room); joinedAt := joinedAtIso clk |} in
  let s' := joinRoom c (JsString r) uname uid clk s in
  rooms s' = JsMap.set r (JsMap.set c userData room) (rooms s3) ∧
  roomMetadata s' = roomMetadata s3 ∧
  sids s' = sids s3 ∧
  outbox s' = outbox s3 ++
    [ {| target := ToSocket c; delivered := [c]; event := "room-users";
         payload := JsArray (List.map userDataJs (JsMap.values (JsMap.set c userData room))) |};
      {| target := ToOthers c r; delivered := recipients (sids s3) (ToOthers c r);
         event := "user-joined"; payload := userDataJs userData |};
      {| target := ToRoom r; delivered := inRoom r (sids s3); event := "room-users";
         payload := JsArray (List.map userDataJs (JsMap.values (JsMap.set c userData room))) |};
      {| target := ToSocket c; delivered := [c]; event := "join-success";
         payload := joinSuccessJs r userData (JsMap.size (JsMap.set c userData room)) |} ].
Proof.
  intros Hvalid. simpl. unfold joinRoom. rewrite Hvalid. simpl.
  pose proof (initRoom_get c r clk (socketJoin c r (leaveExistingRooms c s))) as Hget.
  destruct (JsMap.get r (rooms (initRoom c r clk _))) as [room|]; [|done].
  simpl. repeat split; try done.
  rewrite <- !app_assoc. simpl. unfold roomUsersJs, getRoomUsers.
  by rewrite get_set_eq.
Qed.

(** The colour of a join is read off the size of the room once the rooms the
    socket was in have been left. *)
Lemma joinRoom_color c r uname uid clk s :
  isValidRoomId (JsString r) = true →
  ∃ u, member c r (joinRoom c (JsString r) uname uid clk s) = Some u ∧
       id_ u = c ∧
       color u = getUserColor (memberCount r (leaveExistingRooms c s)).
Proof.
  intros Hvalid. destruct (joinRoom_valid c r uname uid clk s Hvalid) as (Hrooms & _).
  unfold member. rewrite Hrooms, get_set_eq. simpl. rewrite get_set_eq.
  eexists. split; [done|]. split; [done|]. simpl.
  by rewrite initRoom_get.
Qed.

Lemma joinRoom_member_other c c' roomId uname uid clk r s :
  c' ≠ c → member c r (joinRoom c' roomId uname uid clk s) = member c r s.
Proof.
  intros Hne. destruct (isValidRoomId roomId) eqn:Hvalid.
  - destruct (isValidRoomId_true _ Hvalid) as (r0 & -> & _).
    destruct (joinRoom_valid c' r0 uname uid clk s Hvalid) as (Hrooms & _).
    rewrite <- (leaveExistingRooms_member_other c c' r s) by done.
    unfold member. rewrite Hrooms. destruct (decide (r0 = r)) as [->|Hr].
    + rewrite get_set_eq. simpl. rewrite get_set_ne by done.
      rewrite initRoom_get. simpl.
      by destruct (JsMap.get r (rooms (leaveExistingRooms c' s))).
    + by rewrite get_set_ne, initRoom_get_other.
  - unfold joinRoom. by rewrite Hvalid.
Qed.

Lemma joinRoom_sids_other c c' roomId uname uid clk s :
  c' ≠ c → JsMap.get c (sids (joinRoom c' roomId uname uid clk s)) = JsMap.get c (sids s).
Proof.
  intros Hne. destruct (isValidRoomId roomId) eqn:Hvalid.
  - destruct (isValidRoomId_true _ Hvalid) as (r & -> & _).
    destruct (joinRoom_valid c' r uname uid clk s Hvalid) as (_ & _ & -> & _).
    rewrite initRoom_sids. unfold socketJoin. simpl.
    rewrite get_set_ne by done. by apply leaveExistingRooms_sids_other.
  - unfold joinRoom. by rewrite Hvalid.
Qed.

(** A join by [c] keeps the room of its own id as it was: [c] stays in it
    and the sets of rooms of the other sockets are not touched. *)
Lemma joinRoom_ownRoomPrivate c roomId uname uid clk s :
  ownRoomPrivate c s → ownRoomPrivate c (joinRoom c roomId uname uid clk s).
Proof.
  intros Hown x. destruct (decide (x = c)) as [->|Hne].
  - split; [done|]. intros _. destruct (isValidRoomId roomId) eqn:Hvalid.
    + destruct (isValidRoomId_true _ Hvalid) as (r & -> & _).
      destruct (joinRoom_valid c r uname uid clk s Hvalid) as (_ & _ & Hsids & _).
      unfold socketRooms. rewrite Hsids, initRoom_sids. unfold socketJoin. simpl.
      rewrite get_set_eq. simpl. apply elem_of_add_other.
      apply leaveExistingRooms_own_room. by apply Hown.
    + unfold joinRoom. rewrite Hvalid. simpl. by apply Hown.
  - unfold socketRooms. rewrite joinRoom_sids_other by done. apply Hown.
Qed.

Lemma joinRoom_nonEmpty c roomId uname uid clk s :
  roomsNonEmpty s → roomsNonEmpty (joinRoom c roomId uname uid clk s).
Proof.
  intros Hinv. destruct (isValidRoomId roomId) eqn:Hvalid.
  - destruct (isValidRoomId_true _ Hvalid) as (r & -> & _).
    destruct (joinRoom_valid c r uname uid clk s Hvalid) as (Hrooms & _).
    intros r' room'. rewrite Hrooms. destruct (decide (r = r')) as [<-|Hne].
    + rewrite get_set_eq. intros [= <-]. apply set_size_pos.
    + rewrite get_set_ne, initRoom_get_other by done. simpl.
      by apply leaveExistingRooms_nonEmpty.
  - unfold joinRoom. by rewrite Hvalid.
Qed.

(** A valid join to a room other than the room of the socket's own id
    leaves the connection in that room and in no other. *)
Lemma joinRoom_single_room c r uname uid clk s :
  isValidRoomId (JsString r) = true → r ≠ c →
  membershipsTracked c s →
  let s' := joinRoom c (JsString r) uname uid clk s in
  (∀ r', member c r' s' ≠ None ↔ r' = r) ∧
  membershipsTracked c s' ∧ connected c s' = true.
Proof.
  intros Hvalid Hne Hinv s'.
  destruct (joinRoom_valid c r uname uid clk s Hvalid) as (Hrooms & _ & Hsids & _).
  fold s' in Hrooms, Hsids.
  assert (∀ r', member c r' s' ≠ None ↔ r' = r) as Honly.
  { intros r'. unfold member. rewrite Hrooms. destruct (decide (r = r')) as [<-|Hr].
    - rewrite get_set_eq. simpl. rewrite get_set_eq. naive_solver.
    - rewrite get_set_ne, initRoom_get_other by done. simpl.
      pose proof (leaveExistingRooms_clears c s Hinv r') as Hnone.
      unfold member in Hnone. rewrite Hnone. naive_solver. }
  rewrite initRoom_sids in Hsids.
  split; [done|]. split.
  - intros r' Hm. apply Honly in Hm as ->. split; [|done].
    unfold socketRooms. rewrite Hsids. apply socketRooms_socketJoin.
  - unfold connected, JsMap.has. rewrite Hsids. unfold socketJoin. simpl.
    by rewrite get_set_eq.
Qed.

(** ** The other handlers and the steps of the server *)

Lemma relay_rooms c e s : isRelay e = true → rooms (handle c e s) = rooms s.
Proof.
  destruct e; try done; intros _; simpl.
  - unfold cursorUpdate. destruct (JsMap.get roomId (rooms s)) as [room|]; [|done].
    by destruct (JsMap.get c room).
  - unfold typing. destruct (JsMap.get roomId (rooms s)) as [room|]; [|done].
    by destruct (JsMap.get c room).
Qed.

Lemma relay_sids c e s : isRelay e = true → sids (handle c e s) = sids s.
Proof.
  destruct e; try done; intros _; simpl.
  - unfold cursorUpdate. destruct (JsMap.get roomId (rooms s)) as [room|]; [|done].
    by destruct (JsMap.get c room).
  - unfold typing. destruct (JsMap.get roomId (rooms s)) as [room|]; [|done].
    by destruct (JsMap.get c room).
Qed.

Lemma handle_member_other c c' e r s :
  c' ≠ c → member c r (handle c' e s) = member c r s.
Proof.
  intros Hne. destruct (isRelay e) eqn:He.
  - unfold member. by rewrite relay_rooms.
  - destruct e; try done; simpl.
    + by apply joinRoom_member_other.
    + by apply handleUserLeaving_member_other.
Qed.

Lemma handle_nonEmpty c e s : roomsNonEmpty s → roomsNonEmpty (handle c e s).
Proof.
  intros Hinv. destruct e; simpl; try done.
  - by apply joinRoom_nonEmpty.
  - unfold cursorUpdate. destruct (JsMap.get roomId (rooms s)) as [room|]; [|done].
    by destruct (JsMap.get c room).
  - unfold typing. destruct (JsMap.get roomId (rooms s)) as [room|]; [|done].
    by destruct (JsMap.get c room).
  - by apply handleUserLeaving_nonEmpty.
Qed.

Lemma disconnectVisit_extends c acc k :
  ∃ new, outbox (disconnectVisit c acc k) = outbox acc ++ new.
Proof.
  unfold disconnectVisit.
  destruct (JsMap.get k (rooms acc)) as [users|]; [|exists []; by rewrite app_nil_r].
  destruct (JsMap.has c users); [|exists []; by rewrite app_nil_r].
  apply handleUserLeaving_extends.
Qed.

Lemma disconnect_fold_extends c l acc :
  ∃ new, outbox (fold_left (disconnectVisit c) l acc) = outbox acc ++ new.
Proof.
  revert acc. induction l as [|k l IH]; intros acc; simpl.
  - exists []. by rewrite app_nil_r.
  - destruct (IH (disconnectVisit c acc k)) as [new2 ->].
    destruct (disconnectVisit_extends c acc k) as [new1 ->].
    exists (new1 ++ new2). by rewrite app_assoc.
Qed.

Lemma disconnect_fold_user_left c r room user l acc :
  JsMap.get c (sids acc) = None →
  JsMap.get r (rooms acc) = Some room → JsMap.get c room = Some user →
  r ∈ l →
  ∃ before after,
    outbox (fold_left (disconnectVisit c) l acc) =
    outbox acc ++ before ++ userLeft c r user (sids acc) :: after.
Proof.
  intros Hc Hr Hu. revert acc Hc Hr. induction l as [|k l IH]; intros acc Hc Hr Hin.
  { by apply elem_of_nil in Hin. }
  simpl. destruct (decide (k = r)) as [->|Hne].
  - destruct (disconnect_fold_extends c l (disconnectVisit c acc r)) as [new ->].
    unfold disconnectVisit. rewrite Hr.
    assert (JsMap.has c room = true) as -> by (apply has_true; eauto).
    rewrite handleUserLeaving_outbox, Hr, Hu.
    exists [], ((if 0 <? JsMap.size (JsMap.delete c room)
                 then [ {| target := ToRoom r; delivered := inRoom r (sids acc);
                           event := "room-users";
                           payload := JsArray (List.map userDataJs
                                                 (JsMap.values (JsMap.delete c room))) |} ]
                 else []) ++ new).
    simpl. by rewrite <- app_assoc.
  - apply elem_of_cons in Hin as [->|Hin]; [done|].
    assert (sids (disconnectVisit c acc k) = sids acc ∧
            JsMap.get r (rooms (disconnectVisit c acc k)) = Some room) as [Hs Hr'].
    { unfold disconnectVisit. destruct (JsMap.get k (rooms acc)) as [users|]; [|done].
      destruct (JsMap.has c users); [|done].
      split; [by apply handleUserLeaving_sids_disconnected|].
      by rewrite handleUserLeaving_rooms_other. }
    destruct (IH (disconnectVisit c acc k)) as (before & after & ->); try done.
    { by rewrite Hs. }
    destruct (disconnectVisit_extends c acc k) as [new ->].
    exists (new ++ before), after. by rewrite Hs, <- !app_assoc.
Qed.

Lemma onDisconnect_member_other c c' r s :
  c' ≠ c → member c r (onDisconnect c' s) = member c r s.
Proof.
  intros Hne. unfold onDisconnect.
  apply (fold_left_invariant (fun acc => member c r acc = member c r s)); [|done].
  intros acc room <-. unfold disconnectVisit.
  destruct (JsMap.get room (rooms acc)) as [users|]; [|done].
  destruct (JsMap.has c' users); [|done].
  by apply handleUserLeaving_member_other.
Qed.

Lemma onDisconnect_sids_other c c' s :
  c' ≠ c → JsMap.get c (sids (onDisconnect c' s)) = JsMap.get c (sids s).
Proof.
  intros Hne. unfold onDisconnect.
  apply (fold_left_invariant (fun acc => JsMap.get c (sids acc) = JsMap.get c (sids s))); [|done].
  intros acc room <-. unfold disconnectVisit.
  destruct (JsMap.get room (rooms acc)) as [users|]; [|done].
  destruct (JsMap.has c' users); [|done].
  by apply handleUserLeaving_sids_other.
Qed.

Lemma onDisconnect_nonEmpty c s : roomsNonEmpty s → roomsNonEmpty (onDisconnect c s).
Proof.
  apply (fold_left_invariant roomsNonEmpty). intros acc room Hacc. unfold disconnectVisit.
  destruct (JsMap.get room (rooms acc)) as [users|]; [|done].
  destruct (JsMap.has c users); [|done]. by apply handleUserLeaving_nonEmpty.
Qed.

Lemma cleanupEmptyRooms_member c r s :
  member c r (cleanupEmptyRooms s).1 = member c r s.
Proof.
  unfold cleanupEmptyRooms.
  apply (fold_left_invariant (fun acc => member c r acc.1 = member c r s)); [|done].
  intros acc roomId <-. unfold sweepVisit.
  destruct (JsMap.get roomId (rooms acc.1)) as [users|] eqn:Hget; [|done].
  case_bool_decide as Hsize; [|done]. unfold member, withMetadata, withRooms. simpl.
  destruct (decide (roomId = r)) as [->|Hne].
  - rewrite get_delete_eq, Hget. simpl. by destruct users.
  - by rewrite get_delete_ne.
Qed.

Lemma cleanupEmptyRooms_sids s : sids (cleanupEmptyRooms s).1 = sids s.
Proof.
  unfold cleanupEmptyRooms.
  apply (fold_left_invariant (fun acc => sids acc.1 = sids s)); [|done].
  intros acc roomId <-. unfold sweepVisit.
  destruct (JsMap.get roomId (rooms acc.1)) as [users|]; [|done].
  by case_bool_decide.
Qed.

Lemma cleanupEmptyRooms_nonEmpty s :
  roomsNonEmpty s → roomsNonEmpty (cleanupEmptyRooms s).1.
Proof.
  intros Hinv. unfold cleanupEmptyRooms.
  apply (fold_left_invariant (fun acc => roomsNonEmpty acc.1)); [|done].
  intros acc roomId Hacc. unfold sweepVisit.
  destruct (JsMap.get roomId (rooms acc.1)) as [users|]; [|done].
  case_bool_decide; [|done]. intros r room. unfold withMetadata, withRooms. simpl.
  destruct (decide (roomId = r)) as [<-|Hne].
  - by rewrite get_delete_eq.
  - rewrite get_delete_ne by done. apply Hacc.
Qed.

(** An event that is not handled on behalf of [c] leaves the member records
    of [c] as they are. *)
Lemma step_member_other c r s ev :
  actsFor ev ≠ Some c → member c r (step s ev) = member c r s.
Proof.
  intros Hev. destruct ev as [c'|c' e|c'|]; simpl.
  - by destruct (connected c' s).
  - destruct (connected c' s); [|done]. apply handle_member_other. naive_solver.
  - destruct (connected c' s); [|done]. rewrite onDisconnect_member_other; [done|].
    naive_solver.
  - apply cleanupEmptyRooms_member.
Qed.

Lemma step_sids_other c s ev :
  actsFor ev ≠ Some c → connected c s = true →
  JsMap.get c (sids (step s ev)) = JsMap.get c (sids s).
Proof.
  intros Hev Hc. destruct ev as [c'|c' e|c'|]; simpl.
  - destruct (connected c' s) eqn:Hc'; [done|]. simpl.
    rewrite get_set_ne; [done|]. intros ->. congruence.
  - destruct (connected c' s); [|done]. assert (c' ≠ c) as Hne by naive_solver.
    destruct (isRelay e) eqn:He; [by rewrite relay_sids|].
    destruct e; try done; simpl.
    + by apply joinRoom_sids_other.
    + by apply handleUserLeaving_sids_other.
  - destruct (connected c' s); [|done]. assert (c' ≠ c) as Hne by naive_solver.
    rewrite onDisconnect_sids_other by done. simpl. by rewrite get_delete_ne.
  - by rewrite cleanupEmptyRooms_sids.
Qed.

Lemma step_nonEmpty s ev : roomsNonEmpty s → roomsNonEmpty (step s ev).
Proof.
  intros Hinv. destruct ev as [c|c e|c|]; simpl.
  - by destruct (connected c s).
  - destruct (connected c s); [|done]. by apply handle_nonEmpty.
  - destruct (connected c s); [|done]. by apply onDisconnect_nonEmpty.
  - by apply cleanupEmptyRooms_nonEmpty.
Qed.

Lemma run_nonEmpty evs : roomsNonEmpty (run evs initial).
Proof.
  unfold run. apply (fold_left_invariant roomsNonEmpty); [apply step_nonEmpty|].
  intros r room. done.
Qed.

(** ** Reachable states are well formed *)

Lemma withRooms_set_wellFormed r (room : JsMap UserData) s :
  NoDup (JsMap.keys room) → wellFormed s → wellFormed (withRooms (JsMap.set r room) s).
Proof.
  intros Hroom (Hrooms & Heach & Hsids). split; [|split]; simpl; [|intros r' room'|done].
  - by apply set_NoDup.
  - destruct (decide (r = r')) as [<-|Hne].
    + rewrite get_set_eq. by intros [= <-].
    + rewrite get_set_ne by done. apply Heach.
Qed.

Lemma withRooms_delete_wellFormed r s :
  wellFormed s → wellFormed (withRooms (JsMap.delete r) s).
Proof.
  intros (Hrooms & Heach & Hsids). split; [|split]; simpl; [|intros r' room'|done].
  - by apply delete_NoDup.
  - destruct (decide (r = r')) as [<-|Hne].
    + by rewrite get_delete_eq.
    + rewrite get_delete_ne by done. apply Heach.
Qed.

Lemma withSids_wellFormed f s :
  NoDup (JsMap.keys (f (sids s))) → wellFormed s → wellFormed (withSids f s).
Proof. by intros Hf (Hrooms & Heach & Hsids). Qed.

Lemma socketLeave_wellFormed c r s : wellFormed s → wellFormed (socketLeave c r s).
Proof.
  intros Hwf. unfold socketLeave. destruct (JsMap.get c (sids s)); [|done].
  apply withSids_wellFormed; [|done]. apply set_NoDup, Hwf.
Qed.

Lemma socketJoin_wellFormed c r s : wellFormed s → wellFormed (socketJoin c r s).
Proof. intros Hwf. apply withSids_wellFormed; [|done]. apply set_NoDup, Hwf. Qed.

Lemma handleUserLeaving_wellFormed c v s :
  wellFormed s → wellFormed (handleUserLeaving c v s).
Proof.
  intros Hwf. destruct v as [| | | |r| |]; try done. unfold handleUserLeaving.
  destruct (JsMap.get r (rooms s)) as [room|] eqn:Hr; [|done].
  destruct (JsMap.get c room) as [user|]; [|done].
  apply socketLeave_wellFormed.
  assert (wellFormed (withRooms (JsMap.set r (JsMap.delete c room)) s)) as Hwf1.
  { apply withRooms_set_wellFormed; [|done]. apply delete_NoDup.
    destruct Hwf as (_ & Heach & _). by apply (Heach r). }
  destruct (0 <? _); [done|].
  by apply (withRooms_delete_wellFormed r) in Hwf1.
Qed.

Lemma leaveExistingRooms_wellFormed c s :
  wellFormed s → wellFormed (leaveExistingRooms c s).
Proof.
  apply (fold_left_invariant wellFormed). intros acc room Hacc. unfold leaveVisit.
  case_bool_decide; [|done].
  by apply handleUserLeaving_wellFormed, socketLeave_wellFormed.
Qed.

Lemma initRoom_wellFormed c r clk s : wellFormed s → wellFormed (initRoom c r clk s).
Proof.
  intros Hwf. unfold initRoom. destruct (JsMap.has r (rooms s)); [done|].
  apply (withRooms_set_wellFormed r []) in Hwf; [done|]. apply NoDup_nil_2.
Qed.

Lemma joinRoom_wellFormed c roomId uname uid clk s :
  wellFormed s → wellFormed (joinRoom c roomId uname uid clk s).
Proof.
  intros Hwf. unfold joinRoom. destruct (isValidRoomId roomId); [|done]. simpl.
  destruct roomId as [| | | |r| |]; try done.
  assert (wellFormed (initRoom c r clk (socketJoin c r (leaveExistingRooms c s)))) as Hwf3
    by by apply initRoom_wellFormed, socketJoin_wellFormed, leaveExistingRooms_wellFormed.
  destruct (JsMap.get r (rooms (initRoom c r clk _))) as [room|] eqn:Hroom; [|done].
  eapply (withRooms_set_wellFormed r) in Hwf3 as Hwf4; [exact Hwf4|].
  apply set_NoDup. destruct Hwf3 as (_ & Heach & _). by apply (Heach r).
Qed.

Lemma handle_wellFormed c e s : wellFormed s → wellFormed (handle c e s).
Proof.
  intros Hwf. destruct e; simpl; try done.
  - by apply joinRoom_wellFormed.
  - unfold cursorUpdate. destruct (JsMap.get roomId (rooms s)) as [room|]; [|done].
    by destruct (JsMap.get c room).
  - unfold typing. destruct (JsMap.get roomId (rooms s)) as [room|]; [|done].
    by destruct (JsMap.get c room).
  - by apply handleUserLeaving_wellFormed.
Qed.

Lemma onDisconnect_wellFormed c s : wellFormed s → wellFormed (onDisconnect c s).
Proof.
  apply (fold_left_invariant wellFormed). intros acc room Hacc. unfold disconnectVisit.
  destruct (JsMap.get room (rooms acc)) as [users|]; [|done].
  destruct (JsMap.has c users); [|done]. by apply handleUserLeaving_wellFormed.
Qed.

Lemma cleanupEmptyRooms_wellFormed s : wellFormed s → wellFormed (cleanupEmptyRooms s).1.
Proof.
  intros Hwf. unfold cleanupEmptyRooms.
  apply (fold_left_invariant (fun acc => wellFormed acc.1)); [|done].
  intros acc roomId Hacc. unfold sweepVisit.
  destruct (JsMap.get roomId (rooms acc.1)) as [users|]; [|done].
  case_bool_decide; [|done]. simpl.
  by apply (withRooms_delete_wellFormed roomId) in Hacc.
Qed.

Lemma step_wellFormed s ev : wellFormed s → wellFormed (step s ev).
Proof.
  intros Hwf. destruct ev as [c|c e|c|]; simpl.
  - destruct (connected c s); [done|].
    apply withSids_wellFormed; [|done]. apply set_NoDup, Hwf.
  - destruct (connected c s); [|done]. by apply handle_wellFormed.
  - destruct (connected c s); [|done]. apply onDisconnect_wellFormed.
    apply withSids_wellFormed; [|done]. apply delete_NoDup, Hwf.
  - by apply cleanupEmptyRooms_wellFormed.
Qed.

(** Every map of a state the server reaches holds each key once. *)
Lemma run_wellFormed evs : wellFormed (run evs initial).
Proof.
  unfold run. apply (fold_left_invariant wellFormed); [apply step_wellFormed|].
  split; [|split]; simpl; [apply NoDup_nil_2 | done | apply NoDup_nil_2].
Qed.

(** ** The metadata follows the registry *)

Lemma has_set k k' (room : JsMap UserData) rms :
  JsMap.has k' (JsMap.set k room rms) = if decide (k = k') then true else JsMap.has k' rms.
Proof.
  unfold JsMap.has. destruct (decide (k = k')) as [<-|Hne].
  - by rewrite get_set_eq.
  - by rewrite get_set_ne.
Qed.

Lemma has_delete k k' (rms : JsMap (JsMap UserData)) :
  JsMap.has k' (JsMap.delete k rms) = if decide (k = k') then false else JsMap.has k' rms.
Proof.
  unfold JsMap.has. destruct (decide (k = k')) as [<-|Hne].
  - by rewrite get_delete_eq.
  - by rewrite get_delete_ne.
Qed.

Lemma handleUserLeaving_metadataInStep c v s :
  metadataInStep s → metadataInStep (handleUserLeaving c v s).
Proof.
  intros Hinv. destruct v as [| | | |r| |]; try done. intros r'.
  rewrite handleUserLeaving_rooms, handleUserLeaving_roomMetadata.
  destruct (JsMap.get r (rooms s)) as [room|] eqn:Hr; [|apply Hinv].
  destruct (JsMap.get c room) as [user|]; [|apply Hinv].
  assert (JsMap.has r (rooms s) = true) as Hhas by (apply has_true; eauto).
  destruct (0 <? _).
  - rewrite has_set. destruct (decide (r = r')) as [<-|Hne]; [|apply Hinv].
    split; [intros _; by apply Hinv | done].
  - rewrite has_delete, has_set. destruct (decide (r = r')) as [<-|Hne].
    + rewrite lookup_delete_eq. split; [done | by intros [? ?]].
    + rewrite lookup_delete_ne by done. apply Hinv.
Qed.

Lemma socketLeave_metadataInStep c r s :
  metadataInStep s → metadataInStep (socketLeave c r s).
Proof. unfold metadataInStep. by rewrite socketLeave_rooms, socketLeave_roomMetadata. Qed.

Lemma leaveExistingRooms_metadataInStep c s :
  metadataInStep s → metadataInStep (leaveExistingRooms c s).
Proof.
  apply (fold_left_invariant metadataInStep). intros acc room Hacc. unfold leaveVisit.
  case_bool_decide; [|done].
  by apply handleUserLeaving_metadataInStep, socketLeave_metadataInStep.
Qed.

Lemma initRoom_metadataInStep c r clk s :
  metadataInStep s → metadataInStep (initRoom c r clk s).
Proof.
  intros Hinv. unfold initRoom. destruct (JsMap.has r (rooms s)) eqn:Hhas; [done|].
  intros r'. simpl. rewrite has_set. destruct (decide (r = r')) as [<-|Hne].
  - rewrite lookup_insert_eq. split; [eauto | done].
  - rewrite lookup_insert_ne by done. apply Hinv.
Qed.

Lemma joinRoom_metadataInStep c roomId uname uid clk s :
  metadataInStep s → metadataInStep (joinRoom c roomId uname uid clk s).
Proof.
  intros Hinv. destruct (isValidRoomId roomId) eqn:Hvalid.
  - destruct (isValidRoomId_true _ Hvalid) as (r & -> & _).
    destruct (joinRoom_valid c r uname uid clk s Hvalid) as (Hrooms & Hmd & _).
    assert (metadataInStep (initRoom c r clk (socketJoin c r (leaveExistingRooms c s)))) as H3.
    { apply initRoom_metadataInStep. by apply leaveExistingRooms_metadataInStep. }
    intros r'. rewrite Hrooms, Hmd, has_set.
    destruct (decide (r = r')) as [<-|Hne]; [|apply H3].
    split; [intros _ | done]. apply H3, has_true. rewrite initRoom_get. eauto.
  - unfold joinRoom. by rewrite Hvalid.
Qed.

Lemma relay_roomMetadata c e s : isRelay e = true → roomMetadata (handle c e s) = roomMetadata s.
Proof.
  destruct e; try done; intros _; simpl.
  - unfold cursorUpdate. destruct (JsMap.get roomId (rooms s)) as [room|]; [|done].
    by destruct (JsMap.get c room).
  - unfold typing. destruct (JsMap.get roomId (rooms s)) as [room|]; [|done].
    by destruct (JsMap.get c room).
Qed.

Lemma handle_metadataInStep c e s : metadataInStep s → metadataInStep (handle c e s).
Proof.
  intros Hinv. destruct (isRelay e) eqn:He.
  - unfold metadataInStep. by rewrite relay_rooms, relay_roomMetadata.
  - destruct e; try done; simpl.
    + by apply joinRoom_metadataInStep.
    + by apply handleUserLeaving_metadataInStep.
Qed.

Lemma onDisconnect_metadataInStep c s : metadataInStep s → metadataInStep (onDisconnect c s).
Proof.
  apply (fold_left_invariant metadataInStep). intros acc room Hacc. unfold disconnectVisit.
  destruct (JsMap.get room (rooms acc)) as [users|]; [|done].
  destruct (JsMap.has c users); [|done]. by apply handleUserLeaving_metadataInStep.
Qed.

Lemma cleanupEmptyRooms_metadataInStep s :
  metadataInStep s → metadataInStep (cleanupEmptyRooms s).1.
Proof.
  intros Hinv. unfold cleanupEmptyRooms.
  apply (fold_left_invariant (fun acc => metadataInStep acc.1)); [|done].
  intros acc roomId Hacc. unfold sweepVisit.
  destruct (JsMap.get roomId (rooms acc.1)) as [users|]; [|done].
  case_bool_decide; [|done]. intros r'. unfold withMetadata, withRooms. simpl.
  rewrite has_delete. destruct (decide (roomId = r')) as [<-|Hne].
  - rewrite lookup_delete_eq. split; [done | by intros [? ?]].
  - rewrite lookup_delete_ne by done. apply Hacc.
Qed.

Lemma step_metadataInStep s ev : metadataInStep s → metadataInStep (step s ev).
Proof.
  intros Hinv. destruct ev as [c|c e|c|]; simpl.
  - by destruct (connected c s).
  - destruct (connected c s); [|done]. by apply handle_metadataInStep.
  - destruct (connected c s); [|done]. by apply onDisconnect_metadataInStep.
  - by apply cleanupEmptyRooms_metadataInStep.
Qed.

(** In every state the server reaches, the rooms with metadata are the rooms
    of the registry. *)
Lemma run_metadataInStep evs : metadataInStep (run evs initial).
Proof.
  unfold run. apply (fold_left_invariant metadataInStep); [apply step_metadataInStep|].
  intros r. simpl. rewrite lookup_empty. split; [done | by intros [? ?]].
Qed.

(** ** The adapter and the registry agree *)

Lemma socketRooms_socketLeave c k s :
  socketRooms c (socketLeave c k s) = JsSet.delete k (socketRooms c s).
Proof.
  unfold socketLeave, socketRooms. destruct (JsMap.get c (sids s)) as [rs|] eqn:Hget.
  - simpl. by rewrite get_set_eq.
  - by rewrite Hget.
Qed.

Lemma socketRooms_handleUserLeaving c r s :
  socketRooms c (handleUserLeaving c (JsString r) s) =
  match member c r s with
  | Some _ => JsSet.delete r (socketRooms c s)
  | None => socketRooms c s
  end.
Proof.
  unfold member, handleUserLeaving.
  destruct (JsMap.get r (rooms s)) as [room|]; simpl; [|done].
  destruct (JsMap.get c room) as [user|]; [|done].
  rewrite socketRooms_socketLeave. by destruct (0 <? _).
Qed.

Lemma connected_socketLeave c k s : connected c (socketLeave c k s) = connected c s.
Proof.
  unfold socketLeave, connected, JsMap.has.
  destruct (JsMap.get c (sids s)) as [rs|] eqn:Hget; [|by rewrite Hget].
  simpl. by rewrite get_set_eq.
Qed.

Lemma connected_handleUserLeaving c v s :
  connected c (handleUserLeaving c v s) = connected c s.
Proof.
  unfold connected at 1.
  destruct (handleUserLeaving_sids c v s) as [->|(r & _ & ->)]; [done|].
  apply connected_socketLeave.
Qed.

Lemma leaveVisit_socketRooms c k s r :
  r ∈ socketRooms c (leaveVisit c s k) → r ∈ socketRooms c s ∧ (k ≠ c → r ≠ k).
Proof.
  unfold leaveVisit. case_bool_decide as Hk; [|done].
  rewrite socketRooms_handleUserLeaving.
  destruct (member c k (socketLeave c k s));
    rewrite ?elem_of_set_delete, socketRooms_socketLeave, elem_of_set_delete; tauto.
Qed.

Lemma leave_fold_socketRooms c : ∀ l s r,
  r ∈ socketRooms c (fold_left (leaveVisit c) l s) →
  r ∈ socketRooms c s ∧ (r ∈ l → r = c).
Proof.
  induction l as [|k l IH]; intros s r Hr; simpl in Hr.
  - split; [done|]. intros Hin. by apply elem_of_nil in Hin.
  - apply IH in Hr as [Hr Hl]. apply leaveVisit_socketRooms in Hr as [Hr Hk].
    split; [done|]. intros Hin. apply elem_of_cons in Hin as [->|Hin]; [|by apply Hl].
    destruct (decide (k = c)) as [|Hne]; [done|]. by destruct (Hk Hne).
Qed.

(** After the leave loop the socket is in no room but, at most, the room of
    its own id. *)
Lemma leaveExistingRooms_socketRooms c s r :
  r ∈ socketRooms c (leaveExistingRooms c s) → r = c.
Proof. intros Hr. apply leave_fold_socketRooms in Hr as [Hr Hl]. by apply Hl. Qed.

Lemma leave_fold_clears_others c : ∀ l s,
  (∀ r, r ≠ c → member c r s ≠ None → r ∈ l) →
  ∀ r, r ≠ c → member c r (fold_left (leaveVisit c) l s) = None.
Proof.
  induction l as [|k l IH]; intros s Hs r Hr; simpl.
  - destruct (member c r s) eqn:E; [|done].
    assert (r ∈ []) as Hin by (apply Hs; [done | by rewrite E]).
    by apply elem_of_nil in Hin.
  - apply IH; [|done]. intros r' Hr'. rewrite leaveVisit_member.
    case_bool_decide as Hk; [done|]. intros Hm.
    pose proof (Hs r' Hr' Hm) as Hin. apply elem_of_cons in Hin as [->|Hin]; [|done].
    destruct Hk. split; [|done]. congruence.
Qed.

Lemma joinRoom_member_self c r uname uid clk s r' :
  isValidRoomId (JsString r) = true → r' ≠ r →
  member c r' (joinRoom c (JsString r) uname uid clk s) = member c r' (leaveExistingRooms c s).
Proof.
  intros Hvalid Hne. destruct (joinRoom_valid c r uname uid clk s Hvalid) as (Hrooms & _).
  unfold member. rewrite Hrooms. by rewrite get_set_ne, initRoom_get_other.
Qed.

Lemma joinRoom_member_joined c r uname uid clk s :
  isValidRoomId (JsString r) = true →
  member c r (joinRoom c (JsString r) uname uid clk s) ≠ None.
Proof.
  intros Hvalid. by destruct (joinRoom_color c r uname uid clk s Hvalid) as (u & -> & _).
Qed.

Lemma socketRooms_joinRoom c r uname uid clk s :
  isValidRoomId (JsString r) = true →
  socketRooms c (joinRoom c (JsString r) uname uid clk s) =
  JsSet.add r (socketRooms c (leaveExistingRooms c s)).
Proof.
  intros Hvalid. destruct (joinRoom_valid c r uname uid clk s Hvalid) as (_ & _ & Hsids & _).
  unfold socketRooms at 1. rewrite Hsids, initRoom_sids. unfold socketJoin. simpl.
  by rewrite get_set_eq.
Qed.

Lemma elem_of_add_iff x y (l : list jsstring) : y ∈ JsSet.add x l ↔ y = x ∨ y ∈ l.
Proof.
  unfold JsSet.add. case_bool_decide as Hx.
  - split; [by right|]. by intros [->|?].
  - rewrite elem_of_app, list_elem_of_singleton. tauto.
Qed.

Lemma disconnectVisit_member c k r s :
  member c r (disconnectVisit c s k) = if decide (k = r) then None else member c r s.
Proof.
  unfold disconnectVisit. destruct (JsMap.get k (rooms s)) as [users|] eqn:Hk.
  - destruct (JsMap.has c users) eqn:Hhas.
    + destruct (decide (k = r)) as [->|Hne]; [apply handleUserLeaving_member_self|].
      unfold member. by rewrite handleUserLeaving_rooms_other.
    + destruct (decide (k = r)) as [->|Hne]; [|done].
      unfold member. rewrite Hk. simpl. by apply has_false.
  - destruct (decide (k = r)) as [->|Hne]; [|done]. unfold member. by rewrite Hk.
Qed.

Lemma disconnect_fold_clears c : ∀ l s,
  (∀ r, member c r s ≠ None → r ∈ l) →
  ∀ r, member c r (fold_left (disconnectVisit c) l s) = None.
Proof.
  induction l as [|k l IH]; intros s Hs r; simpl.
  - destruct (member c r s) eqn:E; [|done].
    assert (r ∈ []) as Hin by (apply Hs; by rewrite E). by apply elem_of_nil in Hin.
  - apply IH. intros r'. rewrite disconnectVisit_member.
    destruct (decide (k = r')) as [->|Hne]; [done|]. intros Hm.
    pose proof (Hs r' Hm) as Hin. by apply elem_of_cons in Hin as [->|Hin].
Qed.

(** A socket that disconnects is a member of no room any more. *)
Lemma onDisconnect_clears c s r : member c r (onDisconnect c s) = None.
Proof.
  apply disconnect_fold_clears. intros r'. unfold member.
  destruct (JsMap.get r' (rooms s)) as [room|] eqn:Hr; [|done].
  intros _. by eapply get_Some_keys.
Qed.

Lemma onDisconnect_sids_disconnected c s :
  JsMap.get c (sids s) = None → JsMap.get c (sids (onDisconnect c s)) = None.
Proof.
  unfold onDisconnect.
  apply (fold_left_invariant (fun acc => JsMap.get c (sids acc) = None)).
  intros acc k Hacc. unfold disconnectVisit.
  destruct (JsMap.get k (rooms acc)) as [users|]; [|done].
  destruct (JsMap.has c users); [|done].
  by rewrite handleUserLeaving_sids_disconnected.
Qed.

(** What is untouched for a socket stays coherent for it. *)
Lemma coherent_frame s s' x :
  JsMap.get x (sids s') = JsMap.get x (sids s) →
  (∀ r, member x r s' = member x r s) →
  (∀ r, r ≠ x → (r ∈ socketRooms x s ↔ member x r s ≠ None)) ∧
  (∀ r, member x r s ≠ None → connected x s = true) →
  (∀ r, r ≠ x → (r ∈ socketRooms x s' ↔ member x r s' ≠ None)) ∧
  (∀ r, member x r s' ≠ None → connected x s' = true).
Proof.
  intros Hsids Hmem [H1 H2]. unfold socketRooms, connected, JsMap.has in *.
  rewrite Hsids. split; intros r; rewrite Hmem; [apply H1 | apply H2].
Qed.

Lemma joinRoom_coherent c roomId uname uid clk s :
  connected c s = true → coherent s → coherent (joinRoom c roomId uname uid clk s).
Proof.
  intros Hconn Hcoh x. destruct (decide (x = c)) as [->|Hne].
  2:{ apply (coherent_frame s); [|intros r|apply Hcoh].
      - by apply joinRoom_sids_other.
      - by apply joinRoom_member_other. }
  destruct (isValidRoomId roomId) eqn:Hvalid.
  - destruct (isValidRoomId_true _ Hvalid) as (r0 & -> & _).
    assert (∀ r, r ≠ c → member c r (leaveExistingRooms c s) = None) as Hcleared.
    { apply leave_fold_clears_others. intros r Hr Hm. by apply (Hcoh c). }
    split.
    + intros r Hr. rewrite socketRooms_joinRoom, elem_of_add_iff by done.
      destruct (decide (r = r0)) as [->|Hr0].
      * split; [intros _; by apply joinRoom_member_joined | by left].
      * rewrite joinRoom_member_self, Hcleared by done.
        split; [|done]. intros [?|Hin]; [done|].
        by apply leaveExistingRooms_socketRooms in Hin.
    + intros _ _. destruct (joinRoom_valid c r0 uname uid clk s Hvalid) as (_ & _ & Hsids & _).
      unfold connected, JsMap.has. rewrite Hsids, initRoom_sids. unfold socketJoin. simpl.
      by rewrite get_set_eq.
  - apply (coherent_frame s); [| |apply Hcoh]; unfold joinRoom; by rewrite Hvalid.
Qed.

Lemma handleUserLeaving_coherent c v s :
  coherent s → coherent (handleUserLeaving c v s).
Proof.
  intros Hcoh x. destruct (decide (x = c)) as [->|Hne].
  2:{ apply (coherent_frame s); [|intros r|apply Hcoh].
      - by apply handleUserLeaving_sids_other.
      - by apply handleUserLeaving_member_other. }
  destruct v as [| | | |r0| |]; try apply Hcoh.
  destruct (Hcoh c) as [H1 H2]. split.
  - intros r Hr. rewrite socketRooms_handleUserLeaving.
    destruct (decide (r0 = r)) as [->|Hr0].
    + rewrite handleUserLeaving_member_self.
      destruct (member c r s) eqn:E.
      * rewrite elem_of_set_delete. split; [by intros [_ ?] | done].
      * rewrite (H1 r Hr), E. done.
    + unfold member at 2. rewrite handleUserLeaving_rooms_other by done.
      fold (member c r s). rewrite <- (H1 r Hr).
      destruct (member c r0 s); [|done].
      rewrite elem_of_set_delete. split; [by intros [? _] | by split].
  - intros r. rewrite connected_handleUserLeaving.
    destruct (decide (r0 = r)) as [->|Hr0].
    + by rewrite handleUserLeaving_member_self.
    + unfold member. rewrite handleUserLeaving_rooms_other by done. apply H2.
Qed.

Lemma handle_coherent c e s :
  connected c s = true → coherent s → coherent (handle c e s).
Proof.
  intros Hconn Hcoh. destruct (isRelay e) eqn:He.
  - intros x. apply (coherent_frame s); [|intros r|apply Hcoh].
    + by rewrite relay_sids.
    + unfold member. by rewrite relay_rooms.
  - destruct e; try done; simpl.
    + by apply joinRoom_coherent.
    + by apply handleUserLeaving_coherent.
Qed.

Lemma step_coherent s ev : coherent s → coherent (step s ev).
Proof.
  intros Hcoh. destruct ev as [c|c e|c|]; simpl.
  - destruct (connected c s) eqn:Hc; [done|]. intros x.
    destruct (decide (x = c)) as [->|Hne].
    + assert (∀ r, member c r s = None) as Hnone.
      { intros r. destruct (member c r s) eqn:E; [|done].
        destruct (Hcoh c) as [_ H2]. rewrite (H2 r) in Hc; [done | by rewrite E]. }
      split.
      * intros r Hr. unfold socketRooms, member. simpl. rewrite get_set_eq. simpl.
        fold (member c r s). rewrite Hnone, list_elem_of_singleton. done.
      * intros _ _. unfold connected, JsMap.has. simpl. by rewrite get_set_eq.
    + apply (coherent_frame s); [|done|apply Hcoh]. simpl. by rewrite get_set_ne.
  - destruct (connected c s) eqn:Hc; [|done]. by apply handle_coherent.
  - destruct (connected c s) eqn:Hc; [|done]. intros x.
    destruct (decide (x = c)) as [->|Hne].
    + split.
      * intros r Hr. rewrite onDisconnect_clears. unfold socketRooms.
        rewrite onDisconnect_sids_disconnected by apply get_delete_eq.
        split; [intros Hin; by apply elem_of_nil in Hin | done].
      * intros r. by rewrite onDisconnect_clears.
    + apply (coherent_frame s); [|intros r|apply Hcoh].
      * rewrite onDisconnect_sids_other by done. simpl. by rewrite get_delete_ne.
      * by rewrite onDisconnect_member_other.
  - intros x. apply (coherent_frame s); [|intros r|apply Hcoh].
    + by rewrite cleanupEmptyRooms_sids.
    + apply cleanupEmptyRooms_member.
Qed.

(** In every state the server reaches, a socket has joined, besides the room
    of its own id, exactly the rooms of the registry that list it. *)
Lemma run_coherent evs : coherent (run evs initial).
Proof.
  unfold run. apply (fold_left_invariant coherent); [apply step_coherent|].
  intros x. split.
  - intros r _. split; [intros Hin; by apply elem_of_nil in Hin | done].
  - done.
Qed.

(** ** Concrete states *)

(** [ownRoomPrivate c s] on a state that computes: the adapter is a list of
    known entries, and a socket outside it has no room. *)
Ltac concrete_own_room :=
  let x := fresh "x" in
  intros x; unfold socketRooms;
  match goal with
  | |- context [sids ?s] => let t := eval vm_compute in (sids s) in change (sids s) with t
  end;
  simpl JsMap.get;
  repeat (case_decide; subst; simpl);
  rewrite ?elem_of_cons, ?elem_of_nil;
  let H := fresh "H" in
  split; intros H;
  first [ by intuition congruence
        | vm_compute in H; vm_compute; by intuition congruence ].

(** ** One room at a time *)

(** C1 on the code: a socket that joins the room named by its own id and
    then the room "r2" is listed in both rooms of the registry.  The loop
    that leaves the previous rooms skips the room whose name is [socket.id],
    so [handleUserLeaving] never runs for it. *)
Theorem join_own_id_then_other_room_keeps_both :
  let c := jsstr "Vq3xZ0aL9c_T-4hBAAAB" in
  let clk := mkClock (jsstr "T0") 0 (jsstr "T1") in
  let s := run [Connect c;
                Receive c (JoinRoom (JsString c) (JsString (jsstr "ann")) JsUndefined clk);
                Receive c (JoinRoom (JsString (jsstr "r2")) (JsString (jsstr "ann")) JsUndefined clk)]
             initial in
  isValidRoomId (JsString c) = true ∧
  memberships c s = [c; jsstr "r2"] ∧
  JsMap.keys (rooms s) = [c; jsstr "r2"] ∧
  List.map (fun e => event e) (outbox s) =
    ["room-users"; "user-joined"; "room-users"; "join-success";
     "room-users"; "user-joined"; "room-users"; "join-success"]%string.
Proof. repeat split; reflexivity. Qed.

(** The single active room, away from the room of the socket's own id.
    While the events handled for a connected [c] are joins that do not name
    the room of its own id, and whatever the other sockets do, [c] is a
    member of the room of its last valid join and of no other room. *)
Lemma single_active_room_away_from_own_id c : ∀ evs s cur,
  connected c s = true →
  membershipsTracked c s →
  (∀ r, member c r s ≠ None ↔ cur = Some r) →
  Forall (onlyJoinsElsewhere c) evs →
  ∀ r, member c r (run evs s) ≠ None ↔ lastValidJoin c cur evs = Some r.
Proof.
  induction evs as [|ev evs IH]; intros s cur Hconn Htracked Hcur Hevs; [done|].
  apply Forall_cons in Hevs as [Hev Hevs]. simpl.
  destruct (decide (actsFor ev = Some c)) as [Hact|Hact].
  - destruct ev as [c'|c' e|c'|]; try done; simpl in Hact; injection Hact as ->.
    + simpl in Hev. specialize (Hev eq_refl).
      destruct e as [roomId uname uid clk| | | | | | |]; try done.
      simpl. rewrite Hconn. simpl. destruct (isValidRoomId roomId) eqn:Hvalid.
      * destruct (isValidRoomId_true _ Hvalid) as (r0 & -> & _).
        rewrite bool_decide_eq_true_2, Hvalid by done. simpl.
        destruct (joinRoom_single_room c r0 uname uid clk s Hvalid) as (Honly & Htr & Hc);
          [congruence | done |].
        apply IH; try done. intros r. rewrite Honly.
        split; [by intros -> | by intros [= ->]].
      * assert (joinRoom c roomId uname uid clk s =
                emit (ToSocket c) "error" (errorJs "Invalid room ID") s) as ->.
        { unfold joinRoom. by rewrite Hvalid. }
        destruct roomId as [| | | |r0| |]; try (by apply IH).
        rewrite Hvalid, andb_false_r. by apply IH.
    + simpl in Hev. done.
  - assert (∀ acc : option jsstring,
              match ev with
              | Receive c' (JoinRoom (JsString r) _ _ _) =>
                  if bool_decide (c' = c) && isValidRoomId (JsString r) then Some r else acc
              | _ => acc
              end = acc) as Hf.
    { intros acc. destruct ev as [c'|c' e|c'|]; try done.
      destruct e as [roomId ? ? ?| | | | | | |]; try done.
      destruct roomId; try done.
      rewrite bool_decide_eq_false_2; [done|]. simpl in Hact. congruence. }
    rewrite Hf. apply IH; try done.
    + unfold connected, JsMap.has. by rewrite step_sids_other.
    + intros r. rewrite step_member_other by done. unfold socketRooms.
      rewrite step_sids_other by done. apply Htracked.
    + intros r. rewrite step_member_other by done. apply Hcur.
Qed.

(** From the moment it connects: a connection whose only events are joins
    away from the room of its own id is in the room of its last valid join,
    and in no room when none of its joins was valid. *)
Lemma single_active_room_from_connection c s0 evs :
  connected c s0 = false →
  (∀ r, member c r s0 = None) →
  Forall (onlyJoinsElsewhere c) evs →
  let s := run (Connect c :: evs) s0 in
  (∀ r, member c r s ≠ None ↔ lastValidJoin c None evs = Some r) ∧
  (lastValidJoin c None evs = None → ∀ r, member c r s = None).
Proof.
  intros Hconn Hnone Hevs s.
  assert (∀ r, member c r s ≠ None ↔ lastValidJoin c None evs = Some r) as H.
  { subst s. simpl. rewrite Hconn. apply single_active_room_away_from_own_id; try done.
    - unfold connected, JsMap.has. simpl. by rewrite get_set_eq.
    - intros r Hr. destruct Hr. apply Hnone.
    - intros r. split; [|done]. intros Hr. destruct Hr. apply Hnone. }
  split; [done|]. intros Hlast r.
  destruct (member c r s) eqn:E; [|done].
  assert (lastValidJoin c None evs = Some r) as Hr by (apply H; by rewrite E).
  congruence.
Qed.

(** ** The registry holds no empty room *)

(** C2.  After every sequence of events handled from the start of the
    server, a [roomId] is in the registry exactly when its map of members has
    a member.  [handleUserLeaving] for the only member of a room removes the
    entry of the room and the entry of its metadata together.  A valid join
    under a [roomId] the registry does not hold first creates the empty room
    and its metadata ([createdAt] read from the clock, [createdBy] the id of
    the socket) and then puts the member in. *)
Theorem room_in_registry_iff_has_member :
  (∀ evs r,
     let s := run evs initial in
     JsMap.has r (rooms s) = true ↔
     ∃ room, JsMap.get r (rooms s) = Some room ∧ 1 ≤ JsMap.size room) ∧
  (∀ c r user s,
     JsMap.get r (rooms s) = Some [(c, user)] →
     let s' := handleUserLeaving c (JsString r) s in
     JsMap.get r (rooms s') = None ∧ roomMetadata s' !! r = None) ∧
  (∀ c r uname uid clk s,
     isValidRoomId (JsString r) = true →
     JsMap.get r (rooms s) = None →
     let s3 := initRoom c r clk (socketJoin c r (leaveExistingRooms c s)) in
     let s' := joinRoom c (JsString r) uname uid clk s in
     let meta := {| createdAt := createdAtIso clk; createdBy := c |} in
     JsMap.get r (rooms s3) = Some [] ∧ roomMetadata s3 !! r = Some meta ∧
     (∃ userData, JsMap.get r (rooms s') = Some [(c, userData)]) ∧
     roomMetadata s' !! r = Some meta).
Proof.
  split; [|split].
  - intros evs r s. rewrite has_true. split.
    + intros [room Hroom]. exists room. split; [done|].
      by apply (run_nonEmpty evs r).
    + intros (room & Hroom & _). eauto.
  - intros c r user s Hr s'. subst s'.
    rewrite handleUserLeaving_rooms, handleUserLeaving_roomMetadata, Hr. simpl.
    rewrite !decide_True by done. simpl.
    by rewrite get_delete_eq, lookup_delete_eq.
  - intros c r uname uid clk s Hvalid Habsent s3 s' meta.
    assert (JsMap.get r (rooms (socketJoin c r (leaveExistingRooms c s))) = None) as Hs2.
    { simpl. by apply leaveExistingRooms_absent. }
    assert (JsMap.get r (rooms s3) = Some []) as Hs3.
    { subst s3. by rewrite initRoom_get, Hs2. }
    assert (roomMetadata s3 !! r = Some meta) as Hmeta.
    { subst s3. unfold initRoom, JsMap.has. rewrite Hs2. simpl. apply lookup_insert_eq. }
    destruct (joinRoom_valid c r uname uid clk s Hvalid) as (Hrooms & Hmd & _).
    fold s3 in Hrooms, Hmd. fold s' in Hrooms, Hmd.
    repeat split; try done.
    + eexists. rewrite Hrooms, Hs3. simpl. apply get_set_eq.
    + by rewrite Hmd.
Qed.

Lemma room_in_registry_iff_has_member_witness :
  let c := jsstr "s1" in
  let r := jsstr "temp-1" in
  let clk := mkClock (jsstr "T0") 0 (jsstr "T1") in
  let s := run [Connect c; Receive c (JoinRoom (JsString r) (JsString (jsstr "ann")) JsUndefined clk)]
             initial in
  let s' := handleUserLeaving c (JsString r) s in
  JsMap.get r (rooms s') = None ∧ roomMetadata s' !! r = None.
Proof.
  intros c r clk s.
  destruct room_in_registry_iff_has_member as (_ & H & _).
  apply (H c r (mkUserData c (jsstr "ann") (JsString c) (getUserColor 0) (jsstr "T1")) s).
  reflexivity.
Defined.

(** ** Rejected joins *)

(** C3.  A [join-room] whose [roomId] fails validation emits one event,
    [error] with the message "Invalid room ID", to the socket that sent it
    and to no other; the registry, the metadata and the adapter are what they
    were, and so are the rooms the connection is a member of and the
    statistics of the registry. *)
Theorem join_invalid_roomId_rejected c roomId uname uid clk s :
  invalidRoomId roomId →
  let s' := joinRoom c roomId uname uid clk s in
  outbox s' = outbox s ++
    [ {| target := ToSocket c; delivered := [c]; event := "error";
         payload := JsObject [("message", JsString (jsstr "Invalid room ID"))]%string |} ] ∧
  rooms s' = rooms s ∧
  roomMetadata s' = roomMetadata s ∧
  sids s' = sids s ∧
  memberships c s' = memberships c s ∧
  socketRooms c s' = socketRooms c s ∧
  getRoomStats (rooms s') = getRoomStats (rooms s).
Proof.
  intros Hbad. apply isValidRoomId_false in Hbad.
  unfold joinRoom. rewrite Hbad. simpl. done.
Qed.

Lemma join_invalid_roomId_rejected_witness :
  let s := run [Connect (jsstr "s1")] initial in
  let s' := joinRoom (jsstr "s1") (JsString (jsstr "bad room!")) (JsString (jsstr "ann"))
              JsUndefined (mkClock [] 0 []) s in
  outbox s' = outbox s ++
    [ {| target := ToSocket (jsstr "s1"); delivered := [jsstr "s1"]; event := "error";
         payload := JsObject [("message", JsString (jsstr "Invalid room ID"))]%string |} ] ∧
  rooms s' = rooms s ∧
  roomMetadata s' = roomMetadata s ∧
  sids s' = sids s ∧
  memberships (jsstr "s1") s' = memberships (jsstr "s1") s ∧
  socketRooms (jsstr "s1") s' = socketRooms (jsstr "s1") s ∧
  getRoomStats (rooms s') = getRoomStats (rooms s).
Proof.
  apply join_invalid_roomId_rejected.
  right. exists (jsstr "bad room!"). split; [reflexivity|].
  right. right. exists 32%N. split; [|reflexivity].
  vm_compute. do 3 apply list_elem_of_further. apply list_elem_of_here.
Defined.

(** ** The [user-left] notification *)

(** C4, as the code has it.  When [c] is a member of room [r] and leaves it,
    by [leave-room] or by disconnecting, a [user-left] event is emitted with
    [socket.to(r)], to the other sockets of the room: those that have [r]
    among their rooms and are not in the room of [c]'s own id.  Its payload
    is [{userId, username}]: the field [userId] carries the id of the
    leaving connection and [username] the member's name; there is no field
    [connectionId].  In a state the server reaches, when the room of [c]'s
    own id is private, a socket other than the one whose id is the name of
    the room receives the event exactly when it is a remaining member of
    [r]; when moreover no connected socket has the name of the room as its
    id, the receivers are exactly the remaining members of [r]. *)
Theorem user_left_payload_is_userId_username c r s room user :
  JsMap.get r (rooms s) = Some room →
  JsMap.get c room = Some user →
  (∃ after, outbox (leaveRoom c (JsString r) s) =
            outbox s ++ userLeft c r user (sids s) :: after) ∧
  (connected c s = true →
   ∃ before after, outbox (step s (Disconnect c)) =
                   outbox s ++ before ++ userLeft c r user (JsMap.delete c (sids s)) :: after) ∧
  (∀ adapter,
     payloadField "userId" (payload (userLeft c r user adapter)) = Some (JsString c) ∧
     payloadField "username" (payload (userLeft c r user adapter)) = Some (JsString (username user)) ∧
     payloadField "connectionId" (payload (userLeft c r user adapter)) = None) ∧
  (∀ x, x ∈ delivered (userLeft c r user (sids s)) ↔
        r ∈ socketRooms x s ∧ c ∉ socketRooms x s) ∧
  (ownRoomPrivate c s →
   ∀ x, x ∈ delivered (userLeft c r user (sids s)) ↔ r ∈ socketRooms x s ∧ x ≠ c) ∧
  (reachable s → ownRoomPrivate c s →
   ∀ x, x ≠ r →
        (x ∈ delivered (userLeft c r user (sids s)) ↔ member x r s ≠ None ∧ x ≠ c) ∧
        (x ∈ delivered (userLeft c r user (JsMap.delete c (sids s))) ↔
         member x r s ≠ None ∧ x ≠ c)) ∧
  (reachable s → ownRoomPrivate c s → connected r s = false →
   ∀ x, (x ∈ delivered (userLeft c r user (sids s)) ↔ member x r s ≠ None ∧ x ≠ c) ∧
        (x ∈ delivered (userLeft c r user (JsMap.delete c (sids s))) ↔
         member x r s ≠ None ∧ x ≠ c)).
Proof.
  intros Hr Hu.
  assert (ownRoomPrivate c s →
          ∀ x, x ∈ delivered (userLeft c r user (sids s)) ↔ r ∈ socketRooms x s ∧ x ≠ c)
    as Hothers.
  { intros Hown x. etrans; [apply elem_of_recipients_others|]. by rewrite (Hown x). }
  assert (reachable s → ownRoomPrivate c s →
          ∀ x, x ≠ r →
               (x ∈ delivered (userLeft c r user (sids s)) ↔ member x r s ≠ None ∧ x ≠ c) ∧
               (x ∈ delivered (userLeft c r user (JsMap.delete c (sids s))) ↔
                member x r s ≠ None ∧ x ≠ c)) as Hmembers.
  { intros [evs ->] Hown x Hx. rewrite (Hothers Hown x).
    destruct (run_coherent evs x) as [Hcoh _]. rewrite (Hcoh r) by done.
    split; [done|].
    etrans; [apply (elem_of_recipients_others x c r (withSids (JsMap.delete c) (run evs initial)))|].
    unfold socketRooms. simpl. destruct (decide (x = c)) as [->|Hne].
    + rewrite get_delete_eq. simpl. split; [intros [Hin _]; by apply elem_of_nil in Hin|].
      by intros [_ ?].
    + rewrite get_delete_ne by done. fold (socketRooms x (run evs initial)).
      by rewrite (Hown x), (Hcoh r) by done. }
  split; [|split; [|split; [|split; [|split; [|split]]]]].
  - unfold leaveRoom. rewrite handleUserLeaving_outbox, Hr, Hu. eauto.
  - intros Hc. simpl. rewrite Hc. unfold onDisconnect.
    apply (disconnect_fold_user_left c r room user); simpl; try done.
    + apply get_delete_eq.
    + by eapply get_Some_keys.
  - done.
  - intros x. apply elem_of_recipients_others.
  - done.
  - done.
  - intros Hreach Hown Hfree x.
    destruct (decide (x = r)) as [->|Hx]; [|by apply Hmembers].
    assert (JsMap.get r (sids s) = None) as Hnone by (by apply has_false).
    assert (member r r s = None) as Hnot.
    { destruct Hreach as [evs ->]. destruct (run_coherent evs r) as [_ Hconn].
      destruct (member r r (run evs initial)) eqn:E; [|done].
      rewrite (Hconn r) in Hfree; [done | congruence]. }
    rewrite Hnot. split.
    + etrans; [apply elem_of_recipients_others|]. unfold socketRooms. rewrite Hnone. simpl.
      split; [intros [Hin _]; by apply elem_of_nil in Hin | by intros [? _]].
    + etrans; [apply (elem_of_recipients_others r c r (withSids (JsMap.delete c) s))|].
      unfold socketRooms. simpl.
      assert (JsMap.get r (JsMap.delete c (sids s)) = None) as ->.
      { destruct (decide (c = r)) as [->|Hcr]; [apply get_delete_eq|].
        by rewrite get_delete_ne. }
      simpl. split; [intros [Hin _]; by apply elem_of_nil in Hin | by intros [? _]].
Qed.

Lemma user_left_payload_is_userId_username_witness :
  let clk := mkClock (jsstr "T0") 0 (jsstr "T1") in
  let s := run [Connect (jsstr "A"); Connect (jsstr "B");
                Receive (jsstr "A") (JoinRoom (JsString (jsstr "r")) (JsString (jsstr "al")) JsUndefined clk);
                Receive (jsstr "B") (JoinRoom (JsString (jsstr "r")) (JsString (jsstr "bo")) JsUndefined clk)]
             initial in
  let user := mkUserData (jsstr "A") (jsstr "al") (JsString (jsstr "A")) (getUserColor 0) (jsstr "T1") in
  (∃ after, outbox (leaveRoom (jsstr "A") (JsString (jsstr "r")) s) =
            outbox s ++ userLeft (jsstr "A") (jsstr "r") user (sids s) :: after) ∧
  (∃ before after, outbox (step s (Disconnect (jsstr "A"))) =
                   outbox s ++ before ++
                   userLeft (jsstr "A") (jsstr "r") user (JsMap.delete (jsstr "A") (sids s)) :: after) ∧
  (∀ x, x ∈ delivered (userLeft (jsstr "A") (jsstr "r") user (sids s)) ↔
        member x (jsstr "r") s ≠ None ∧ x ≠ jsstr "A").
Proof.
  intros clk s user.
  pose (room := [(jsstr "A", user);
                 (jsstr "B", mkUserData (jsstr "B") (jsstr "bo") (JsString (jsstr "B"))
                               (getUserColor 1) (jsstr "T1"))]).
  destruct (user_left_payload_is_userId_username (jsstr "A") (jsstr "r") s room user)
    as (Hleave & Hdisc & _ & _ & _ & _ & Hmembers);
    [vm_compute; reflexivity | vm_compute; reflexivity |].
  split; [exact Hleave|]. split; [apply Hdisc; vm_compute; reflexivity|].
  intros x. apply Hmembers.
  - by eexists.
  - concrete_own_room.
  - vm_compute. reflexivity.
Defined.

(** C4, as the claim has it, fails: no field of the payload is named
    [connectionId].  A and B are in room "r" and A leaves it. *)
Lemma user_left_has_no_connectionId :
  ¬ (∀ evs c r user,
       let s := run evs initial in
       connected c s = true →
       member c r s = Some user →
       ∃ e, e ∈ outbox (step s (Receive c (LeaveRoom (JsString r)))) ∧
            event e = "user-left"%string ∧
            payloadField "connectionId" (payload e) = Some (JsString c) ∧
            payloadField "username" (payload e) = Some (JsString (username user))).
Proof.
  intros H.
  pose (clk := mkClock (jsstr "T0") 0 (jsstr "T1")).
  pose (evs := [Connect (jsstr "A"); Connect (jsstr "B");
                Receive (jsstr "A") (JoinRoom (JsString (jsstr "r")) (JsString (jsstr "al")) JsUndefined clk);
                Receive (jsstr "B") (JoinRoom (JsString (jsstr "r")) (JsString (jsstr "bo")) JsUndefined clk)]).
  pose (user := mkUserData (jsstr "A") (jsstr "al") (JsString (jsstr "A")) (getUserColor 0) (jsstr "T1")).
  destruct (H evs (jsstr "A") (jsstr "r") user) as (e & Hin & _ & Hfield & _);
    [reflexivity | reflexivity |].
  assert (Forall (fun e => payloadField "connectionId" (payload e) = None)
            (outbox (step (run evs initial) (Receive (jsstr "A") (LeaveRoom (JsString (jsstr "r")))))))
    as Hall by (vm_compute; repeat constructor).
  rewrite Forall_forall in Hall. apply Hall in Hin. congruence.
Qed.

(** ** Sanitizing twice *)

(** C5, as the code has it.  For a string [x] without [<] and [>],
    sanitizing the sanitized name gives it back, whatever the clock reads at
    the second call, provided the 50 code units kept of the trimmed [x] do not
    end in white space (the truncation comes after the trim and may cut just
    behind a space). *)
Theorem sanitizeUsername_idempotent_when_not_cut_at_space x t1 t2 :
  noAngles x →
  timeValue t1 →
  endsWithWhiteSpace (take 50 (trim x)) = false →
  sanitizeUsername t2 (JsString (sanitizeUsername t1 (JsString x))) =
  sanitizeUsername t1 (JsString x).
Proof.
  intros Hang Ht Hend. rewrite (sanitizeUsername_string t1 x), stripAngles_id by done.
  case_bool_decide as Hy; [by apply guestName_fixed|].
  apply sanitizeUsername_clean; try done.
  - apply Forall_take. by apply trim_noAngles.
  - eapply prefix_startsClean; [apply prefix_take | apply trim_startsClean].
  - rewrite length_take. lia.
Qed.

Lemma sanitizeUsername_idempotent_when_not_cut_at_space_witness :
  sanitizeUsername 1700000000001
    (JsString (sanitizeUsername 1700000000000 (JsString (jsstr "  Ada Lovelace ")))) =
  sanitizeUsername 1700000000000 (JsString (jsstr "  Ada Lovelace ")).
Proof.
  apply sanitizeUsername_idempotent_when_not_cut_at_space.
  - vm_compute. repeat constructor; discriminate.
  - unfold timeValue. lia.
  - reflexivity.
Defined.

(** C5, as the claim has it, fails: 49 letters, a space and a letter.  The
    first call keeps the 49 letters and the space; the second call trims the
    space away. *)
Lemma sanitizeUsername_not_idempotent :
  let x := repeat 97%N 49 ++ jsstr " b" in
  noAngles x ∧
  sanitizeUsername 0 (JsString x) = repeat 97%N 49 ++ jsstr " " ∧
  sanitizeUsername 0 (JsString (sanitizeUsername 0 (JsString x))) = repeat 97%N 49 ∧
  sanitizeUsername 0 (JsString (sanitizeUsername 0 (JsString x))) ≠
  sanitizeUsername 0 (JsString x).
Proof.
  split; [vm_compute; repeat constructor; discriminate|].
  split; [reflexivity|]. split; [reflexivity|]. vm_compute. discriminate.
Qed.

(** The condition is the exact one: when the 50 code units kept end in
    white space, the second call returns a different name. *)
Lemma sanitizing_again_changes_name_cut_at_space x t1 t2 :
  noAngles x →
  endsWithWhiteSpace (take 50 (trim x)) = true →
  sanitizeUsername t2 (JsString (sanitizeUsername t1 (JsString x))) ≠
  sanitizeUsername t1 (JsString x).
Proof.
  intros Hang Hend. rewrite (sanitizeUsername_string t1 x), stripAngles_id by done.
  case_bool_decide as Hy; [by rewrite Hy in Hend|].
  apply sanitizeUsername_trailing_space; try done.
  - apply Forall_take. by apply trim_noAngles.
  - eapply prefix_startsClean; [apply prefix_take | apply trim_startsClean].
Qed.

(** ** Colours of the members *)

(** Joins in a row: with the sockets [earlier] in the room, in this order
    and with the colours of their indices, and the sockets [later] freshly
    connected, each of [later] takes the colour of its index when they join
    one after the other. *)
Lemma joins_in_a_row r :
  isValidRoomId (JsString r) = true →
  ∀ later earlier s,
    NoDup (List.map joinerId (earlier ++ later)) →
    JsMap.keys (default [] (JsMap.get r (rooms s))) = List.map joinerId earlier →
    (∀ n j, earlier !! n = Some j →
            ∃ u, JsMap.get (joinerId j) (default [] (JsMap.get r (rooms s))) = Some u ∧
                 color u = getUserColor n) →
    (∀ j, j ∈ later → socketRooms (joinerId j) s = [joinerId j]) →
    ∀ n j, (earlier ++ later) !! n = Some j →
           ∃ u, member (joinerId j) r (run (List.map (joinEvent r) later) s) = Some u ∧
                color u = getUserColor n.
Proof.
  intros Hvalid. induction later as [|j0 later IH]; intros earlier s Hnodup Hkeys Hcolors Hfresh n j Hn.
  - rewrite app_nil_r in Hn. destruct (Hcolors n j Hn) as (u & Hu & Hc).
    exists u. split; [|done]. simpl. unfold member.
    destruct (JsMap.get r (rooms s)); [done | simpl in Hu; discriminate Hu].
  - simpl. set (c0 := joinerId j0).
    assert (socketRooms c0 s = [c0]) as Hc0 by (apply Hfresh, list_elem_of_here).
    rewrite (socketRooms_connected c0 s [c0]) by done.
    rewrite map_app, NoDup_app in Hnodup. destruct Hnodup as (Hearlier & Hsep & Hlater).
    simpl in Hlater. apply NoDup_cons in Hlater as [Hc0later Hlater].
    assert (c0 ∉ List.map joinerId earlier) as Hc0earlier.
    { intros Hin. apply (Hsep c0 Hin). apply list_elem_of_here. }
    destruct (joinRoom_valid c0 r (joinerName j0) (joinerUserId j0) (joinerClock j0) s Hvalid)
      as (Hrooms & _ & Hsids & _).
    rewrite leaveExistingRooms_fresh in Hrooms, Hsids by done.
    rewrite initRoom_get in Hrooms. rewrite initRoom_sids in Hsids.
    simpl in Hrooms, Hsids.
    set (room := default [] (JsMap.get r (rooms s))) in *.
    set (s1 := joinRoom c0 (JsString r) (joinerName j0) (joinerUserId j0) (joinerClock j0) s) in *.
    assert (JsMap.get c0 room = None) as Hc0room by (apply get_keys; by rewrite Hkeys).
    rewrite (set_fresh c0 _ room Hc0room) in Hrooms.
    assert (JsMap.get r (rooms s1) = Some (room ++ [(c0,
              {| id_ := c0; username := sanitizeUsername (guestMillis (joinerClock j0)) (joinerName j0);
                 userId := if truthy (joinerUserId j0) then joinerUserId j0 else JsString c0;
                 color := getUserColor (JsMap.size room); joinedAt := joinedAtIso (joinerClock j0) |})]))
      as Hr1 by (rewrite Hrooms; apply get_set_eq).
    apply (IH (earlier ++ [j0]) s1).
    + rewrite <- app_assoc. simpl. rewrite map_app, NoDup_app. simpl.
      split; [done|]. split; [done|]. by apply NoDup_cons.
    + rewrite Hr1. simpl. unfold JsMap.keys in *. by rewrite !map_app, Hkeys.
    + intros n' j' Hn'. rewrite Hr1. simpl.
      apply lookup_app_Some in Hn' as [Hn'|[Hlen Hn']].
      * destruct (Hcolors n' j' Hn') as (u & Hu & Hc). exists u. split; [|done].
        by apply get_app_l.
      * apply list_lookup_singleton_Some in Hn' as [Hn' <-].
        eexists. split.
        { rewrite <- (set_fresh c0 _ room Hc0room). apply get_set_eq. }
        simpl. f_equal. unfold JsMap.size. unfold JsMap.keys in Hkeys.
        rewrite <- (length_map fst room), Hkeys, length_map. lia.
    + intros j' Hj'. assert (c0 ≠ joinerId j') as Hne.
      { intros Heq. apply Hc0later. fold c0. rewrite Heq. by apply elem_of_map. }
      unfold socketRooms. rewrite Hsids. unfold socketJoin. simpl.
      rewrite get_set_ne by done. apply Hfresh. by apply list_elem_of_further.
    + by rewrite <- app_assoc.
Qed.

(** C6, as the code has it.  A join takes the colour [palette[k mod 12]],
    [k] being the number of members the room has at that instant (once the
    joiner has left the rooms it was in); so when distinct, freshly connected
    sockets join a room that did not exist one after the other, the one of
    index [n] takes [palette[n mod 12]].  Afterwards the member record, and
    with it the colour, is left as it is by every event handled for another
    socket (joins, leaves and disconnections included), by the sweep, and by
    the member's own relay events. *)
Theorem color_is_palette_at_member_count :
  (∀ c r uname uid clk s,
     isValidRoomId (JsString r) = true →
     ∃ u col,
       member c r (joinRoom c (JsString r) uname uid clk s) = Some u ∧
       USER_COLORS !! (memberCount r (leaveExistingRooms c s) mod 12) = Some col ∧
       color u = JsString col) ∧
  (∀ r js s,
     isValidRoomId (JsString r) = true →
     JsMap.get r (rooms s) = None →
     NoDup (List.map joinerId js) →
     (∀ j, j ∈ js → socketRooms (joinerId j) s = [joinerId j]) →
     ∀ n j, js !! n = Some j →
       ∃ u col,
         member (joinerId j) r (run (List.map (joinEvent r) js) s) = Some u ∧
         USER_COLORS !! (n mod 12) = Some col ∧
         color u = JsString col) ∧
  (∀ c r u s ev,
     member c r s = Some u →
     (actsFor ev ≠ Some c ∨ ∃ e, ev = Receive c e ∧ isRelay e = true) →
     member c r (step s ev) = Some u).
Proof.
  split; [|split].
  - intros c r uname uid clk s Hvalid.
    destruct (joinRoom_color c r uname uid clk s Hvalid) as (u & Hu & _ & Hcol).
    destruct (getUserColor_palette (memberCount r (leaveExistingRooms c s))) as (col & Hp & Hg).
    exists u, col. by rewrite Hcol, Hg.
  - intros r js s Hvalid Habsent Hnodup Hfresh n j Hn.
    destruct (joins_in_a_row r Hvalid js [] s) with (n := n) (j := j) as (u & Hu & Hcol);
      try done.
    { by rewrite Habsent. }
    destruct (getUserColor_palette n) as (col & Hp & Hg).
    exists u, col. by rewrite Hcol, Hg.
  - intros c r u s ev Hu [Hev|(e & -> & He)].
    + by rewrite step_member_other.
    + simpl. destruct (connected c s); [|done].
      unfold member. by rewrite relay_rooms.
Qed.

Lemma color_is_palette_at_member_count_witness :
  let r := jsstr "r" in
  let clk := mkClock (jsstr "T0") 0 (jsstr "T1") in
  let js := [mkJoiner (jsstr "A") (JsString (jsstr "al")) JsUndefined clk;
             mkJoiner (jsstr "B") (JsString (jsstr "bo")) JsUndefined clk;
             mkJoiner (jsstr "C") (JsString (jsstr "cy")) JsUndefined clk] in
  let s := run [Connect (jsstr "A"); Connect (jsstr "B"); Connect (jsstr "C")] initial in
  ∃ u col,
    member (jsstr "C") r (run (List.map (joinEvent r) js) s) = Some u ∧
    USER_COLORS !! (2 mod 12) = Some col ∧
    color u = JsString col.
Proof.
  intros r clk js s.
  destruct color_is_palette_at_member_count as (_ & H & _).
  apply (H r js s) with
    (n := 2) (j := mkJoiner (jsstr "C") (JsString (jsstr "cy")) JsUndefined clk);
    try reflexivity.
  - vm_compute. repeat constructor; intros Hin;
      repeat (apply elem_of_cons in Hin as [Hin|Hin]; [discriminate Hin|]);
      by apply elem_of_nil in Hin.
  - intros j Hj. repeat (apply elem_of_cons in Hj as [->|Hj]; [reflexivity|]).
    by apply elem_of_nil in Hj.
Defined.

(** C6, as the claim has it, fails once a member has left: A and B join the
    new room "r", A leaves, C joins.  C is the member of index 2 to join the
    room, the room has one member at that instant, and C takes
    [palette[1]], the colour B has. *)
Lemma third_joiner_takes_second_color :
  let r := JsString (jsstr "r") in
  let clk := mkClock (jsstr "T0") 0 (jsstr "T1") in
  let s := run [Connect (jsstr "A"); Connect (jsstr "B"); Connect (jsstr "C");
                Receive (jsstr "A") (JoinRoom r (JsString (jsstr "al")) JsUndefined clk);
                Receive (jsstr "B") (JoinRoom r (JsString (jsstr "bo")) JsUndefined clk);
                Receive (jsstr "A") (LeaveRoom r);
                Receive (jsstr "C") (JoinRoom r (JsString (jsstr "cy")) JsUndefined clk)]
             initial in
  USER_COLORS !! (1 mod 12) = Some (jsstr "#4ECDC4") ∧
  USER_COLORS !! (2 mod 12) = Some (jsstr "#45B7D1") ∧
  color <$> member (jsstr "B") (jsstr "r") s = Some (JsString (jsstr "#4ECDC4")) ∧
  color <$> member (jsstr "C") (jsstr "r") s = Some (JsString (jsstr "#4ECDC4")) ∧
  color <$> member (jsstr "C") (jsstr "r") s ≠ Some (JsString (jsstr "#45B7D1")).
Proof. repeat split; try reflexivity. vm_compute. discriminate. Qed.

(** ** The emissions of a join *)

(** C7 on the code: the [user-joined] of a join is sent with
    [socket.to(roomId)], which leaves out the sockets of the room named by
    the joiner's own id.  First run: Y is a member of the room named by the
    socket id of X, and X joins that room; the four events are emitted in
    order, with the payloads of the claim, but [user-joined] is delivered to
    nobody, though Y is another connection of the room.  Second run: X has
    joined and left the room of its own id, so that [socket.leave] took it
    out of that room, and joins the room "r1" that Y is in; [user-joined] is
    delivered to the joiner X as well as to Y. *)
Theorem join_user_joined_misses_room_named_by_joiner_id :
  let X := jsstr "Vq3xZ0aL9c_T-4hBAAAB" in
  let Y := jsstr "Yq3xZ0aL9c_T-4hBAAAC" in
  let yan := JsObject [("id", JsString Y); ("username", JsString (jsstr "yan"));
                       ("userId", JsString Y); ("color", JsString (jsstr "#FF6B6B"));
                       ("joinedAt", JsString (jsstr "T1"))]%string in
  let xie := JsObject [("id", JsString X); ("username", JsString (jsstr "xie"));
                       ("userId", JsString X); ("color", JsString (jsstr "#4ECDC4"));
                       ("joinedAt", JsString (jsstr "T3"))]%string in
  let first := mkClock (jsstr "T0") 0 (jsstr "T1") in
  let second := mkClock (jsstr "T2") 0 (jsstr "T3") in
  let join r name clk := JoinRoom (JsString r) (JsString name) JsUndefined clk in
  let s := run [Connect X; Connect Y; Receive Y (join X (jsstr "yan") first)] initial in
  let s' := step s (Receive X (join X (jsstr "xie") second)) in
  let t := run [Connect X; Connect Y; Receive Y (join (jsstr "r1") (jsstr "yan") first);
                Receive X (join X (jsstr "xie") first); Receive X (LeaveRoom (JsString X))]
             initial in
  let t' := step t (Receive X (join (jsstr "r1") (jsstr "xie") second)) in
  isValidRoomId (JsString X) = true ∧
  memberships Y s = [X] ∧
  memberships Y s' = [X] ∧ memberships X s' = [X] ∧
  outbox s' = outbox s ++
    [ {| target := ToSocket X; delivered := [X]; event := "room-users";
         payload := JsArray [yan; xie] |};
      {| target := ToOthers X X; delivered := []; event := "user-joined"; payload := xie |};
      {| target := ToRoom X; delivered := [X; Y]; event := "room-users";
         payload := JsArray [yan; xie] |};
      {| target := ToSocket X; delivered := [X]; event := "join-success";
         payload := JsObject [("roomId", JsString X); ("userData", xie);
                              ("userCount", JsNumber 2)]%string |} ] ∧
  memberships Y t = [jsstr "r1"] ∧ memberships X t = [] ∧ socketRooms X t = [] ∧
  List.map (fun e => (event e, delivered e)) (drop (length (outbox t)) (outbox t')) =
    [ ("room-users", [X]); ("user-joined", [X; Y]); ("room-users", [X; Y]);
      ("join-success", [X]) ]%string.
Proof.
  split; [|split; [|split; [|split; [|split; [|split; [|split; [|split]]]]]]];
    vm_compute; reflexivity.
Qed.

(** The emissions of a valid join in general.  A join with a valid [roomId]
    first runs the leave of the rooms the socket was in; then, with [c]
    recorded in room [r] of the registry, it emits four events and no more,
    in this order: [room-users] with the
    members of [r] to the joiner; [user-joined] with the new member with
    [socket.to(r)], to the sockets of [r] outside the joiner's own room;
    [room-users] with the same list with [io.to(r)], to every socket of [r],
    the joiner among them; [join-success] with [{roomId, userData,
    userCount}] to the joiner.  In a state the server reaches, and when the
    room of the joiner's own id is private, [user-joined] goes to the other
    members of [r] and the second [room-users] to all its members (a socket
    whose id is the name of the room set aside). *)
Theorem join_emits_four_events_in_order c r uname uid clk s :
  isValidRoomId (JsString r) = true →
  let s' := joinRoom c (JsString r) uname uid clk s in
  ∃ room userData,
    JsMap.get r (rooms s') = Some room ∧
    JsMap.get c room = Some userData ∧
    outbox s' = outbox (leaveExistingRooms c s) ++
      [ {| target := ToSocket c; delivered := [c]; event := "room-users";
           payload := JsArray (List.map userDataJs (JsMap.values room)) |};
        {| target := ToOthers c r; delivered := recipients (sids s') (ToOthers c r);
           event := "user-joined"; payload := userDataJs userData |};
        {| target := ToRoom r; delivered := inRoom r (sids s'); event := "room-users";
           payload := JsArray (List.map userDataJs (JsMap.values room)) |};
        {| target := ToSocket c; delivered := [c]; event := "join-success";
           payload := JsObject [("roomId", JsString r); ("userData", userDataJs userData);
                                ("userCount", JsNumber (Z.of_nat (JsMap.size room)))]%string |} ] ∧
    c ∈ inRoom r (sids s') ∧
    (∀ x, x ∈ inRoom r (sids s') ↔ r ∈ socketRooms x s') ∧
    (∀ x, x ∈ recipients (sids s') (ToOthers c r) ↔
          r ∈ socketRooms x s' ∧ c ∉ socketRooms x s') ∧
    (ownRoomPrivate c s →
     ∀ x, x ∈ recipients (sids s') (ToOthers c r) ↔ r ∈ socketRooms x s' ∧ x ≠ c) ∧
    (reachable s → connected c s = true → ownRoomPrivate c s →
     ∀ x, x ≠ r →
          (x ∈ recipients (sids s') (ToOthers c r) ↔ member x r s' ≠ None ∧ x ≠ c) ∧
          (x ∈ inRoom r (sids s') ↔ member x r s' ≠ None)).
Proof.
  intros Hvalid s'.
  destruct (joinRoom_valid c r uname uid clk s Hvalid) as (Hrooms & _ & Hsids & Hout).
  fold s' in Hrooms, Hsids, Hout.
  assert (ownRoomPrivate c s →
          ∀ x, x ∈ recipients (sids s') (ToOthers c r) ↔ r ∈ socketRooms x s' ∧ x ≠ c)
    as Hothers.
  { intros Hown x. rewrite elem_of_recipients_others.
    pose proof (joinRoom_ownRoomPrivate c (JsString r) uname uid clk s Hown x) as Hx.
    fold s' in Hx. by rewrite Hx. }
  eexists _, _. split; [|split; [|split; [|split; [|split; [|split; [|split]]]]]].
  - rewrite Hrooms. apply get_set_eq.
  - apply get_set_eq.
  - rewrite Hout, Hsids, initRoom_outbox. reflexivity.
  - apply elem_of_inRoom. unfold socketRooms. rewrite Hsids, initRoom_sids.
    apply socketRooms_socketJoin.
  - intros x. apply elem_of_inRoom.
  - intros x. apply elem_of_recipients_others.
  - done.
  - intros [evs ->] Hconn Hown x Hx.
    assert (coherent s') as Hcoh.
    { subst s'. by apply joinRoom_coherent, run_coherent. }
    destruct (Hcoh x) as [Hcoh1 _].
    by rewrite (Hothers Hown x), elem_of_inRoom, (Hcoh1 r) by done.
Qed.

Lemma join_emits_four_events_in_order_witness :
  let clk := mkClock (jsstr "T0") 0 (jsstr "T1") in
  let s := run [Connect (jsstr "A"); Connect (jsstr "B");
                Receive (jsstr "A") (JoinRoom (JsString (jsstr "r")) (JsString (jsstr "al")) JsUndefined clk)]
             initial in
  let s' := joinRoom (jsstr "B") (JsString (jsstr "r")) (JsString (jsstr "bo")) JsUndefined clk s in
  (∃ room userData,
     JsMap.get (jsstr "r") (rooms s') = Some room ∧
     JsMap.get (jsstr "B") room = Some userData ∧
     outbox s' = outbox (leaveExistingRooms (jsstr "B") s) ++
       [ {| target := ToSocket (jsstr "B"); delivered := [jsstr "B"]; event := "room-users";
            payload := JsArray (List.map userDataJs (JsMap.values room)) |};
         {| target := ToOthers (jsstr "B") (jsstr "r");
            delivered := recipients (sids s') (ToOthers (jsstr "B") (jsstr "r"));
            event := "user-joined"; payload := userDataJs userData |};
         {| target := ToRoom (jsstr "r"); delivered := inRoom (jsstr "r") (sids s');
            event := "room-users";
            payload := JsArray (List.map userDataJs (JsMap.values room)) |};
         {| target := ToSocket (jsstr "B"); delivered := [jsstr "B"]; event := "join-success";
            payload := JsObject [("roomId", JsString (jsstr "r")); ("userData", userDataJs userData);
                                 ("userCount", JsNumber (Z.of_nat (JsMap.size room)))]%string |} ]) ∧
  (jsstr "A" ∈ recipients (sids s') (ToOthers (jsstr "B") (jsstr "r")) ↔
   member (jsstr "A") (jsstr "r") s' ≠ None ∧ jsstr "A" ≠ jsstr "B") ∧
  (jsstr "A" ∈ inRoom (jsstr "r") (sids s') ↔ member (jsstr "A") (jsstr "r") s' ≠ None).
Proof.
  intros clk s s'.
  destruct (join_emits_four_events_in_order (jsstr "B") (jsstr "r") (JsString (jsstr "bo"))
              JsUndefined clk s eq_refl)
    as (room & userData & Hroom & Huser & Hout & _ & _ & _ & _ & Hmembers).
  split; [exists room, userData; repeat split; assumption|].
  apply Hmembers.
  - by eexists.
  - vm_compute. reflexivity.
  - concrete_own_room.
  - vm_compute. discriminate.
Defined.

(** ** Relay of sync state *)

(** C8 on the code: [receive-sync] is addressed with [io.to(to)], to the
    room named [to] and not to the connection [to].  W has joined the room
    named by the socket id of Z; X's [send-sync] to the peer Z is delivered
    to Z and to W.  Once Z has disconnected, the same [send-sync] is not a
    no-op: it is delivered to W. *)
Theorem send_sync_to_peer_reaches_room_named_by_its_id :
  let X := jsstr "Xq3xZ0aL9c_T-4hBAAAB" in
  let Z := jsstr "Zq3xZ0aL9c_T-4hBAAAD" in
  let W := jsstr "Wq3xZ0aL9c_T-4hBAAAF" in
  let s := run [Connect X; Connect Z; Connect W;
                Receive W (JoinRoom (JsString Z) (JsString (jsstr "win")) JsUndefined
                             (mkClock (jsstr "T0") 0 (jsstr "T1")))] initial in
  let sync := Receive X (SendSync Z (JsString (jsstr "r1")) (JsString (jsstr "S"))) in
  let sent to := {| target := ToRoom Z; delivered := to; event := "receive-sync";
                    payload := JsObject [("from", JsString X);
                                         ("roomId", JsString (jsstr "r1"));
                                         ("state", JsString (jsstr "S"))]%string |} in
  let s2 := step s (Disconnect Z) in
  isValidRoomId (JsString Z) = true ∧
  connected Z s = true ∧ memberships W s = [Z] ∧
  outbox (step s sync) = outbox s ++ [sent [Z; W]] ∧
  connected Z s2 = false ∧
  outbox (step s2 sync) = outbox s2 ++ [sent [W]] ∧
  rooms (step s2 sync) = rooms s2 ∧ sids (step s2 sync) = sids s2.
Proof.
  split; [|split; [|split; [|split; [|split; [|split; [|split]]]]]];
    vm_compute; reflexivity.
Qed.

(** What [send-sync] does in general.  [send-sync] emits one [receive-sync] carrying
    [{from, roomId, state}], addressed with [io.to(to)], whatever the registry
    says about the sender, [to] or [roomId]; nothing in the state changes and
    no error is emitted.  The adapter hands it to every socket that has [to]
    among its rooms: to the connection [to] while it is in the room of its
    own id, and to nobody when no socket is in a room of that name. *)
Theorem send_sync_addresses_room_named_to c to roomId state s :
  let s' := sendSync c to roomId state s in
  let e := {| target := ToRoom to; delivered := inRoom to (sids s);
              event := "receive-sync";
              payload := JsObject [("from", JsString c); ("roomId", roomId);
                                   ("state", state)]%string |} in
  outbox s' = outbox s ++ [e] ∧
  rooms s' = rooms s ∧ roomMetadata s' = roomMetadata s ∧ sids s' = sids s ∧
  (∀ x, x ∈ delivered e ↔ to ∈ socketRooms x s) ∧
  (to ∈ socketRooms to s → to ∈ delivered e) ∧
  ((∀ x, to ∉ socketRooms x s) → delivered e = []).
Proof.
  simpl. repeat split; try done.
  - by apply elem_of_inRoom.
  - by apply elem_of_inRoom.
  - by apply elem_of_inRoom.
  - apply inRoom_nil.
Qed.

Lemma send_sync_addresses_room_named_to_witness :
  let s := run [Connect (jsstr "X"); Connect (jsstr "Z")] initial in
  jsstr "Z" ∈ delivered
    {| target := ToRoom (jsstr "Z"); delivered := inRoom (jsstr "Z") (sids s);
       event := "receive-sync";
       payload := JsObject [("from", JsString (jsstr "X")); ("roomId", JsString (jsstr "r1"));
                            ("state", JsNull)]%string |}.
Proof.
  intros s.
  destruct (send_sync_addresses_room_named_to (jsstr "X") (jsstr "Z")
              (JsString (jsstr "r1")) JsNull s) as (_ & _ & _ & _ & _ & H & _).
  apply H. vm_compute. apply list_elem_of_here.
Defined.

(** [to] may name a room: Z has joined the room "r1", no connection has the
    id "r1", and X's [send-sync] to "r1" reaches Z. *)
Lemma send_sync_to_room_name_reaches_the_room :
  let join := JoinRoom (JsString (jsstr "r1")) (JsString (jsstr "zoe")) JsUndefined
                (mkClock (jsstr "T0") 0 (jsstr "T1")) in
  let s := run [Connect (jsstr "X"); Connect (jsstr "Z"); Receive (jsstr "Z") join] initial in
  let s' := step s (Receive (jsstr "X") (SendSync (jsstr "r1") (JsString (jsstr "r1")) JsNull)) in
  connected (jsstr "r1") s = false ∧
  last (outbox s') =
    Some {| target := ToRoom (jsstr "r1"); delivered := [jsstr "Z"];
            event := "receive-sync";
            payload := JsObject [("from", JsString (jsstr "X"));
                                 ("roomId", JsString (jsstr "r1"));
                                 ("state", JsNull)]%string |}.
Proof. split; reflexivity. Qed.

(** A [send-sync] to a connection that is gone is not always a no-op.  W has joined the room named by the id of Z
    and Z has disconnected; X's [send-sync] to Z is delivered to W. *)
Lemma send_sync_to_unconnected_id_is_delivered :
  ¬ (∀ evs c to roomId state,
       let s := run evs initial in
       connected to s = false →
       ∀ e, e ∈ outbox (step s (Receive c (SendSync to roomId state))) →
            e ∈ outbox s ∨ delivered e = []).
Proof.
  intros H.
  pose (Z := jsstr "Zq3xZ0aL9c_T-4hBAAAD").
  pose (join := JoinRoom (JsString Z) (JsString (jsstr "win")) JsUndefined
                  (mkClock (jsstr "T0") 0 (jsstr "T1"))).
  pose (evs := [Connect (jsstr "X"); Connect Z; Connect (jsstr "W");
                Receive (jsstr "W") join; Disconnect Z]).
  pose (e := {| target := ToRoom Z; delivered := [jsstr "W"];
                event := "receive-sync";
                payload := JsObject [("from", JsString (jsstr "X"));
                                     ("roomId", JsString (jsstr "r1"));
                                     ("state", JsNull)]%string |}).
  destruct (H evs (jsstr "X") Z (JsString (jsstr "r1")) JsNull eq_refl e) as [Hin|Hd].
  - vm_compute. do 4 apply list_elem_of_further. apply list_elem_of_here.
  - vm_compute in Hin. repeat (apply elem_of_cons in Hin as [Hin|Hin]; [discriminate Hin|]).
    by apply elem_of_nil in Hin.
  - discriminate Hd.
Qed.

(** ** Leaving a room one is not in *)

(** C9.  A [leave-room] naming a room that the registry does not hold, or
    that does not list the sender, changes nothing: the state after
    [handleUserLeaving] is the state before it, so the registry and the
    metadata are untouched and nothing is emitted. *)
Theorem leave_room_not_member_noop c roomId s :
  notMemberOf c roomId s →
  let s' := leaveRoom c roomId s in
  s' = s ∧ rooms s' = rooms s ∧ roomMetadata s' = roomMetadata s ∧ outbox s' = outbox s.
Proof.
  intros H. cut (leaveRoom c roomId s = s); [by intros ->|].
  unfold leaveRoom, handleUserLeaving.
  destruct roomId as [| | | |r| |]; try done.
  destruct (H r eq_refl) as [->|(room & -> & Hhas)]; [done|].
  apply has_false in Hhas. by rewrite Hhas.
Qed.

Lemma leave_room_not_member_noop_witness :
  let s := run [Connect (jsstr "s1")] initial in
  let s' := leaveRoom (jsstr "s1") (JsString (jsstr "r1")) s in
  s' = s ∧ rooms s' = rooms s ∧ roomMetadata s' = roomMetadata s ∧ outbox s' = outbox s.
Proof.
  apply leave_room_not_member_noop.
  intros r Hr. left. injection Hr as <-. reflexivity.
Defined.

(** ** Room ids are strings *)

(** C10.  [isValidRoomId] returns a boolean for every value and never reads a
    property of a value that is not a string: it is [false] for [null],
    [undefined], numbers, booleans, arrays and objects, in general for every
    value that is not a string, and [true] only for strings. *)
Theorem isValidRoomId_strings_only (v : JsValue) :
  (isValidRoomId v = true ∨ isValidRoomId v = false) ∧
  ((∀ r, v ≠ JsString r) → isValidRoomId v = false) ∧
  (isValidRoomId v = true → ∃ r, v = JsString r) ∧
  isValidRoomId JsNull = false ∧
  isValidRoomId JsUndefined = false ∧
  (∀ n, isValidRoomId (JsNumber n) = false) ∧
  (∀ fields, isValidRoomId (JsObject fields) = false).
Proof.
  repeat split; try done.
  - destruct (isValidRoomId v); auto.
  - intros H. apply isValidRoomId_false. by left.
  - intros H. apply isValidRoomId_true in H as (r & -> & _). eauto.
Qed.

Lemma isValidRoomId_strings_only_witness :
  isValidRoomId (JsArray [JsString (jsstr "r1")]) = false.
Proof.
  destruct (isValidRoomId_strings_only (JsArray [JsString (jsstr "r1")])) as (_ & H & _).
  apply H. intros r. discriminate.
Defined.

(** * Further properties of the code *)

(** ** Colours and names *)

Lemma USER_COLORS_NoDup : NoDup USER_COLORS.
Proof. apply (bool_decide_unpack (NoDup USER_COLORS)). by vm_compute. Qed.

(** X1.  The colour [getUserColor] returns for an integer index.  For an
    index that is not negative, as the size of a room is, the result is a
    colour of the palette, never [undefined], and two such indices get the
    same colour exactly when they are congruent modulo 12: the twelve colours
    are distinct.  For a negative index the result is [undefined], unless the
    index is a multiple of 12. *)
Theorem getUserColor_same_iff_congruent :
  (∀ n : nat, getUserColorAt (Z.of_nat n) = getUserColor n) ∧
  (∀ n : nat, ∃ col, col ∈ USER_COLORS ∧ getUserColor n = JsString col) ∧
  (∀ n m : nat, getUserColor n = getUserColor m ↔ n mod 12 = m mod 12) ∧
  (∀ i : Z, getUserColorAt i = JsUndefined ↔ (i < 0 ∧ Z.rem i 12 ≠ 0)%Z).
Proof.
  split; [|split; [|split]].
  - intros n. unfold getUserColorAt, getUserColor. cbv zeta.
    change (length USER_COLORS) with 12.
    rewrite Z.rem_mod_nonneg, <- Nat2Z.inj_mod by lia.
    rewrite (proj2 (Z.ltb_ge _ _)) by lia. by rewrite Nat2Z.id.
  - intros n. destruct (getUserColor_palette n) as (cn & Hn & Hgn).
    exists cn. split; [|done]. by eapply list_elem_of_lookup_2.
  - intros n m. destruct (getUserColor_palette n) as (cn & Hn & Hgn).
    destruct (getUserColor_palette m) as (cm & Hm & Hgm).
    rewrite Hgn, Hgm. split.
    + intros [= <-]. by eapply NoDup_lookup; [apply USER_COLORS_NoDup| |].
    + intros Heq. rewrite Heq in Hn. congruence.
  - intros i. unfold getUserColorAt. cbv zeta.
    change (Z.of_nat (length USER_COLORS)) with 12%Z.
    assert ((0 ≤ i → 0 ≤ Z.rem i 12 < 12) ∧ (i < 0 → -12 < Z.rem i 12 ≤ 0))%Z as Hrem.
    { split; intros Hi; [apply Z.rem_bound_pos; lia|].
      pose proof (Z.rem_bound_pos_neg i 12) as H. lia. }
    revert Hrem. generalize (Z.rem i 12). intros k [Hpos Hneg].
    destruct (Z.ltb_spec k 0) as [Hk|Hk].
    + split; [intros _; lia | done].
    + destruct (USER_COLORS !! Z.to_nat k) eqn:E.
      * split; [done | lia].
      * apply lookup_ge_None in E. change (length USER_COLORS) with 12 in E. lia.
Qed.

Lemma stripAngles_noAngles x : noAngles (stripAngles x).
Proof.
  unfold noAngles, stripAngles. apply Forall_forall. intros ch Hin.
  apply list_elem_of_In, filter_In in Hin as [_ Hch].
  apply negb_true_iff, orb_false_iff in Hch as [H60 H62].
  by apply N.eqb_neq in H60, H62.
Qed.

Lemma guestName_length t : timeValue t → length (guestName t) ≤ 23.
Proof.
  intros Ht. unfold guestName. rewrite length_app.
  pose proof (numberToString_length t Ht). change (length (jsstr "Guest-")) with 6. lia.
Qed.

Lemma sanitizeUsername_not_string now v :
  (∀ x, v ≠ JsString x) → sanitizeUsername now v = guestName now.
Proof.
  intros Hv. destruct v as [| |b|n|x| |]; try done.
  - by destruct b.
  - unfold sanitizeUsername. simpl. by rewrite orb_true_r.
  - by destruct (Hv x).
Qed.

Lemma sanitizeUsername_sound now v :
  sanitizeUsername now v ≠ [] ∧ noAngles (sanitizeUsername now v) ∧
  startsClean (sanitizeUsername now v).
Proof.
  assert (guestName now ≠ [] ∧ noAngles (guestName now) ∧ startsClean (guestName now))
    as Hguest.
  { split; [done|]. split; [|done].
    unfold noAngles. eapply Forall_impl; [apply guestName_clean|]. by intros ch [_ ?]. }
  assert ((∃ x, v = JsString x) ∨ ∀ x, v ≠ JsString x) as [[x ->]|Hv]
    by (destruct v; eauto; by right).
  2:{ by rewrite sanitizeUsername_not_string. }
  rewrite sanitizeUsername_string.
  case_bool_decide as Hempty; [exact Hguest|].
  split; [done|]. split.
  - apply Forall_take, trim_noAngles, stripAngles_noAngles.
  - eapply prefix_startsClean; [apply prefix_take | apply trim_startsClean].
Qed.

(** X2.  Whatever value it is given, [sanitizeUsername] returns a name that
    is not empty, holds neither [<] nor [>] and does not begin with white
    space; with the clock in the range of time values the name has at most 50
    code units. *)
Theorem sanitizeUsername_result_is_usable (now : Z) (v : JsValue) :
  let name := sanitizeUsername now v in
  name ≠ [] ∧ noAngles name ∧ startsClean name ∧ (timeValue now → length name ≤ 50).
Proof.
  intros name. subst name.
  destruct (sanitizeUsername_sound now v) as (Hne & Hang & Hstart).
  repeat (split; [done|]). intros Ht.
  assert ((∃ x, v = JsString x) ∨ ∀ x, v ≠ JsString x) as [[x ->]|Hv]
    by (destruct v; eauto; by right).
  - rewrite sanitizeUsername_string. case_bool_decide.
    + pose proof (guestName_length now Ht). lia.
    + rewrite length_take. lia.
  - rewrite sanitizeUsername_not_string by done.
    pose proof (guestName_length now Ht). lia.
Qed.

Lemma sanitizeUsername_result_is_usable_witness :
  length (sanitizeUsername 1700000000000 (JsString (repeat 60%N 10 ++ repeat 97%N 80))) ≤ 50.
Proof.
  apply (sanitizeUsername_result_is_usable 1700000000000). unfold timeValue. lia.
Defined.

Lemma trimStart_blank x : Forall (fun ch => isWhiteSpace ch = true) x → trimStart x = [].
Proof. induction 1 as [|ch x Hch _ IH]; simpl; [done|]. by rewrite Hch. Qed.

Lemma stripAngles_blank x :
  blankOrAngles x → Forall (fun ch => isWhiteSpace ch = true) (stripAngles x).
Proof.
  unfold blankOrAngles, stripAngles. induction 1 as [|ch x Hch _ IH]; simpl; [done|].
  destruct Hch as [Hws|[->| ->]]; try done.
  destruct (negb _); [by constructor | done].
Qed.

(** X3.  [sanitizeUsername] falls back to the guest name
    [Guest-<Date.now()>] for every value that is not a string, for the empty
    string and for every string made only of white space and angle brackets
    (nothing is left once the brackets are stripped and the rest trimmed). *)
Theorem sanitizeUsername_guest_fallback (now : Z) (v : JsValue) :
  ((∀ x, v ≠ JsString x) ∨ ∃ x, v = JsString x ∧ blankOrAngles x) →
  sanitizeUsername now v = jsstr "Guest-" ++ numberToString now.
Proof.
  intros [Hv|(x & -> & Hx)].
  - by apply sanitizeUsername_not_string.
  - rewrite sanitizeUsername_string. unfold trim.
    by rewrite (trimStart_blank _ (stripAngles_blank x Hx)).
Qed.

Lemma sanitizeUsername_guest_fallback_witness :
  sanitizeUsername 1700000000000 (JsString (jsstr " <> ")) =
  jsstr "Guest-" ++ numberToString 1700000000000.
Proof.
  apply sanitizeUsername_guest_fallback. right. exists (jsstr " <> ").
  split; [reflexivity|]. unfold blankOrAngles.
  repeat (apply Forall_cons; split; [vm_compute; auto|]). apply Forall_nil_2.
Defined.

Lemma digitsAux_digits fuel : ∀ n acc,
  Forall (fun ch => (48 ≤ ch ≤ 57)%N) acc →
  Forall (fun ch => (48 ≤ ch ≤ 57)%N) (digitsAux fuel n acc).
Proof.
  induction fuel as [|fuel IH]; intros n acc Hacc; simpl; [done|].
  assert (Forall (fun ch => (48 ≤ ch ≤ 57)%N) ((48 + n mod 10)%N :: acc)) as Hacc'.
  { constructor; [|done]. pose proof (N.mod_lt n 10 ltac:(done)) as Hmod. revert Hmod.
    generalize (n mod 10)%N. intros d Hd. lia. }
  destruct (n <? 10)%N; [done|]. by apply IH.
Qed.

Lemma digits_head n : ∃ d ds, digits n = d :: ds ∧ (48 ≤ d ≤ 57)%N.
Proof.
  pose proof (digitsAux_digits (S (N.to_nat (N.log2 n))) n [] (Forall_nil_2 _)) as Hd.
  fold (digits n) in Hd. destruct (digits n) as [|d ds] eqn:E.
  - unfold digits in E. simpl in E. destruct (n <? 10)%N; [done|].
    by apply digitsAux_nonempty in E.
  - apply Forall_cons in Hd as [Hd _]. eauto.
Qed.

Lemma digits_inj n m : digits n = digits m → n = m.
Proof. intros H. by rewrite <- (digits_value n), <- (digits_value m), H. Qed.

Lemma numberToString_inj t1 t2 : numberToString t1 = numberToString t2 → t1 = t2.
Proof.
  unfold numberToString.
  destruct (Z.ltb_spec t1 0) as [H1|H1], (Z.ltb_spec t2 0) as [H2|H2]; intros H.
  - injection H as H. apply digits_inj in H. lia.
  - destruct (digits_head (Z.to_N t2)) as (d & ds & Hd & Hr). rewrite Hd in H.
    injection H as H _. lia.
  - destruct (digits_head (Z.to_N t1)) as (d & ds & Hd & Hr). rewrite Hd in H.
    injection H as H _. lia.
  - apply digits_inj in H. lia.
Qed.

(** X4.  The guest name determines the clock reading it was built from:
    two fallbacks give the same name exactly when [Date.now()] returned the
    same millisecond, and every guest name begins with [Guest-]. *)
Theorem guest_names_equal_iff_same_millisecond (t1 t2 : Z) (v1 v2 : JsValue) :
  (∀ x, v1 ≠ JsString x) → (∀ x, v2 ≠ JsString x) →
  (sanitizeUsername t1 v1 = sanitizeUsername t2 v2 ↔ t1 = t2) ∧
  take 6 (sanitizeUsername t1 v1) = jsstr "Guest-".
Proof.
  intros H1 H2.
  rewrite (sanitizeUsername_not_string t1 v1), (sanitizeUsername_not_string t2 v2) by done.
  unfold guestName. split; [|done]. split.
  - intros H. apply app_inv_head in H. by apply numberToString_inj.
  - by intros ->.
Qed.

Lemma guest_names_equal_iff_same_millisecond_witness :
  sanitizeUsername 1700000000000 JsUndefined = sanitizeUsername 1700000000001 JsNull ↔
  1700000000000%Z = 1700000000001%Z.
Proof.
  apply (guest_names_equal_iff_same_millisecond 1700000000000 1700000000001 JsUndefined JsNull);
    intros x; discriminate.
Defined.

(** ** Member records *)

Lemma handleUserLeaving_member_sub c c' v r u s :
  member c r (handleUserLeaving c' v s) = Some u → member c r s = Some u.
Proof.
  destruct (decide (c' = c)) as [->|Hne]; [|by rewrite handleUserLeaving_member_other].
  assert ((∃ k, v = JsString k) ∨ ∀ k, v ≠ JsString k) as [[k ->]|Hv]
    by (destruct v; eauto; by right).
  2:{ by rewrite handleUserLeaving_not_string. }
  destruct (decide (k = r)) as [->|Hk].
  - by rewrite handleUserLeaving_member_self.
  - unfold member. by rewrite handleUserLeaving_rooms_other.
Qed.

Lemma leaveExistingRooms_member_sub c c' r u s :
  member c r (leaveExistingRooms c' s) = Some u → member c r s = Some u.
Proof.
  destruct (decide (c' = c)) as [->|Hne]; [|by rewrite leaveExistingRooms_member_other].
  unfold leaveExistingRooms.
  apply (fold_left_invariant (fun acc => member c r acc = Some u → member c r s = Some u));
    [|done].
  intros acc k Hacc. rewrite leaveVisit_member. by case_bool_decide.
Qed.

Lemma joinRoom_record c r uname uid clk s :
  isValidRoomId (JsString r) = true →
  ∃ u, member c r (joinRoom c (JsString r) uname uid clk s) = Some u ∧
       writtenByJoin c uname uid clk (memberCount r (leaveExistingRooms c s)) u.
Proof.
  intros Hvalid. destruct (joinRoom_valid c r uname uid clk s Hvalid) as (Hrooms & _).
  unfold member. rewrite Hrooms, get_set_eq. simpl. rewrite get_set_eq.
  eexists. split; [done|]. unfold writtenByJoin. by rewrite initRoom_get.
Qed.

(** A step keeps the member records it finds, or removes them; the only
    record it can write is the one of the socket that joins. *)
Lemma step_member_sub c r u s ev :
  member c r (step s ev) = Some u →
  member c r s = Some u ∨
  ∃ uname uid clk,
    ev = Receive c (JoinRoom (JsString r) uname uid clk) ∧
    writtenByJoin c uname uid clk (memberCount r (leaveExistingRooms c s)) u.
Proof.
  destruct (decide (actsFor ev = Some c)) as [Hev|Hev];
    [|left; by rewrite <- (step_member_other c r s ev)].
  destruct ev as [c'|c' e|c'|]; simpl in Hev; try done; injection Hev as ->; simpl.
  - destruct (connected c s); [|by left].
    destruct (isRelay e) eqn:He.
    { intros H. left. unfold member in *. by rewrite (relay_rooms c e s He) in H. }
    destruct e as [roomId uname uid clk| | | | | | |roomId]; try done; simpl.
    + destruct (isValidRoomId roomId) eqn:Hvalid.
      * destruct (isValidRoomId_true _ Hvalid) as (k & -> & _).
        destruct (decide (k = r)) as [->|Hk].
        -- destruct (joinRoom_record c r uname uid clk s Hvalid) as (u' & -> & Hu').
           intros [= <-]. right. by exists uname, uid, clk.
        -- rewrite joinRoom_member_self by done. intros H. left.
           by eapply leaveExistingRooms_member_sub.
      * unfold joinRoom. rewrite Hvalid. simpl. by left.
    + intros H. left. by eapply handleUserLeaving_member_sub.
  - destruct (connected c s); [|by left]. by rewrite onDisconnect_clears.
Qed.

(** X5.  Every member record of the registry was written by a [join-room]
    of its own socket for that room, and no later event has altered it: the
    record found after a run of events was already there at the start, or it
    is the [userData] object of one of the joins of the run, with the colour
    of the member count at that join. *)
Theorem member_record_written_by_own_join c r u : ∀ evs s,
  member c r (run evs s) = Some u →
  member c r s = Some u ∨
  ∃ before uname uid clk after,
    evs = before ++ Receive c (JoinRoom (JsString r) uname uid clk) :: after ∧
    writtenByJoin c uname uid clk
      (memberCount r (leaveExistingRooms c (run before s))) u.
Proof.
  induction evs as [|ev evs IH]; intros s; simpl; [by left|].
  intros H. apply IH in H as [H|(before & uname & uid & clk & after & -> & Hu)].
  - apply step_member_sub in H as [H|(uname & uid & clk & -> & Hu)]; [by left|].
    right. by exists [], uname, uid, clk, evs.
  - right. by exists (ev :: before), uname, uid, clk, after.
Qed.

Lemma member_record_written_by_own_join_witness :
  let c := jsstr "A" in
  let r := jsstr "r" in
  let clk := mkClock (jsstr "T0") 0 (jsstr "T1") in
  let u := mkUserData c (jsstr "al") (JsString c) (getUserColor 0) (jsstr "T1") in
  let evs := [Connect c; Receive c (JoinRoom (JsString r) (JsString (jsstr "al")) JsUndefined clk)] in
  member c r initial = Some u ∨
  ∃ before uname uid clk' after,
    evs = before ++ Receive c (JoinRoom (JsString r) uname uid clk') :: after ∧
    writtenByJoin c uname uid clk'
      (memberCount r (leaveExistingRooms c (run before initial))) u.
Proof.
  apply member_record_written_by_own_join. vm_compute. reflexivity.
Defined.

Lemma recordOk_writtenByJoin c uname uid clk n u :
  writtenByJoin c uname uid clk n u → recordOk c u.
Proof.
  intros ->. unfold recordOk. simpl.
  destruct (sanitizeUsername_sound (guestMillis clk) uname) as (Hne & Hang & Hstart).
  repeat (split; [done|]).
  destruct (getUserColor_palette n) as (col & Hcol & Hget).
  exists col. split; [by eapply list_elem_of_lookup_2 | done].
Qed.

Lemma run_recordOk evs : ∀ c r u, member c r (run evs initial) = Some u → recordOk c u.
Proof.
  unfold run.
  apply (fold_left_invariant (fun s => ∀ c r u, member c r s = Some u → recordOk c u));
    [|done].
  intros s ev Hs c r u H.
  apply step_member_sub in H as [H|(uname & uid & clk & _ & Hu)]; [by eapply Hs|].
  by eapply recordOk_writtenByJoin.
Qed.

Lemma values_keys {V} (f : V → list N) (m : JsMap V) :
  NoDup (JsMap.keys m) →
  (∀ k v, JsMap.get k m = Some v → f v = k) →
  List.map f (JsMap.values m) = JsMap.keys m.
Proof.
  unfold JsMap.values, JsMap.keys. induction m as [|[k0 v0] m IH]; simpl; [done|].
  rewrite NoDup_cons. intros [Hk0 Hm] Hf. f_equal.
  - apply Hf. by rewrite decide_True.
  - apply IH; [done|]. intros k v Hget. apply Hf.
    rewrite decide_False; [done|]. intros ->. by apply get_Some_keys in Hget.
Qed.

Lemma get_values {V} (v : V) (m : JsMap V) :
  NoDup (JsMap.keys m) → v ∈ JsMap.values m → ∃ k, JsMap.get k m = Some v.
Proof.
  unfold JsMap.values, JsMap.keys. induction m as [|[k0 v0] m IH]; simpl.
  - intros _ H. by apply elem_of_nil in H.
  - rewrite NoDup_cons. intros [Hk0 Hm] [->|Hin]%elem_of_cons.
    + exists k0. by rewrite decide_True.
    + destruct (IH Hm Hin) as (k & Hget). exists k.
      rewrite decide_False; [done|]. intros ->. by apply get_Some_keys in Hget.
Qed.

(** X6.  What [getRoomUsers] returns in a state the server reaches: the
    [id]s of the user objects are the keys of the room, in the order of the
    joins and without repetition; every object listed is the record stored
    under its own [id], its name is not empty, holds no angle bracket and
    does not begin with white space, and its colour is one of the palette;
    the list is empty only for a room that is not in the registry. *)
Theorem getRoomUsers_lists_each_member_once evs r :
  let s := run evs initial in
  let listed := getRoomUsers (rooms s) r in
  List.map id_ listed = JsMap.keys (default [] (JsMap.get r (rooms s))) ∧
  NoDup (List.map id_ listed) ∧
  (∀ u, u ∈ listed → member (id_ u) r s = Some u ∧ recordOk (id_ u) u) ∧
  (listed = [] ↔ JsMap.has r (rooms s) = false).
Proof.
  intros s listed. subst listed. unfold getRoomUsers.
  destruct (run_wellFormed evs) as (_ & Hrooms & _). fold s in Hrooms.
  pose proof (run_recordOk evs) as Hok. fold s in Hok.
  pose proof (run_nonEmpty evs) as Hne. fold s in Hne.
  unfold JsMap.has. destruct (JsMap.get r (rooms s)) as [room|] eqn:Hget; simpl.
  2:{ split; [done|]. split; [apply NoDup_nil_2|]. split; [|done].
      intros u Hu. by apply elem_of_nil in Hu. }
  assert (∀ k v, JsMap.get k room = Some v → id_ v = k) as Hid.
  { intros k v Hv. apply (Hok k r v). unfold member. by rewrite Hget. }
  rewrite (values_keys id_ room) by eauto.
  split; [done|]. split; [by eapply Hrooms|]. split.
  - intros u Hu. destruct (get_values u room) as (k & Hk); [by eapply Hrooms|done|].
    rewrite (Hid k u Hk).
    assert (member k r s = Some u) as Hm by (unfold member; by rewrite Hget).
    split; [done | by eapply Hok].
  - split; [|done]. intros Hnil. apply Hne in Hget.
    unfold JsMap.values in Hnil. apply map_eq_nil in Hnil. subst room. simpl in Hget. lia.
Qed.

(** ** Statistics, sweep and summary of the registry *)

Lemma fold_left_sizes {V} (l : list (JsMap V)) (a : nat) :
  fold_left (fun acc room => acc + JsMap.size room) l a = a + sum_list (JsMap.size <$> l).
Proof.
  revert a. induction l as [|room l IH]; intros a; simpl; [lia|].
  rewrite IH. symmetry. apply Nat.add_assoc.
Qed.

Lemma getRoomStats_sum (rms : JsMap (JsMap UserData)) :
  totalRooms (getRoomStats rms) = length (statsRooms (getRoomStats rms)) ∧
  totalUsers (getRoomStats rms) = sum_list (userCount <$> statsRooms (getRoomStats rms)).
Proof.
  simpl. split; [by rewrite length_map|].
  rewrite fold_left_sizes. simpl. f_equal. unfold JsMap.values.
  induction rms as [|e rms IH]; [done|]. simpl in *. by f_equal.
Qed.

(** X7.  The three parts of [getRoomStats] agree with one another and with
    the registry: [totalRooms] is the number of entries of [rooms],
    [totalUsers] is the sum of their [userCount]s, the entries come in the
    order of the registry, and each [userCount] is the length of the [users]
    array beside it. *)
Theorem getRoomStats_totals_agree (rms : JsMap (JsMap UserData)) :
  let st := getRoomStats rms in
  totalRooms st = length (statsRooms st) ∧
  totalUsers st = sum_list (userCount <$> statsRooms st) ∧
  statsRoomId <$> statsRooms st = JsMap.keys rms ∧
  Forall (fun e => userCount e = length (users e)) (statsRooms st).
Proof.
  intros st. subst st. destruct (getRoomStats_sum rms) as (Hrooms & Husers).
  split; [done|]. split; [done|]. clear Hrooms Husers. simpl. split.
  - unfold JsMap.keys. induction rms as [|e rms IH]; [done|]. simpl in *. by f_equal.
  - apply Forall_forall. intros e Hin. apply list_elem_of_In, in_map_iff in Hin as (x & <- & _).
    simpl. unfold JsMap.values, JsMap.size. by rewrite !length_map.
Qed.

Lemma get_entry {V} (k : list N) (v : V) (m : JsMap V) :
  NoDup (JsMap.keys m) → (k, v) ∈ m → JsMap.get k m = Some v.
Proof.
  unfold JsMap.keys. induction m as [|[k0 v0] m IH]; simpl.
  - intros _ H. by apply elem_of_nil in H.
  - rewrite NoDup_cons. intros [Hk0 Hm] [[= -> ->]|Hin]%elem_of_cons.
    + by rewrite decide_True.
    + rewrite decide_False; [by apply IH|]. intros ->. apply Hk0.
      by apply (elem_of_map fst (k, v)).
Qed.

Lemma sum_list_ge_length (l : list nat) : Forall (fun n => 1 ≤ n) l → length l ≤ sum_list l.
Proof. induction 1 as [|n l Hn _ IH]; simpl; lia. Qed.

(** X8.  In every state the server reaches the statistics count at least
    one user for each room: no entry of [getRoomStats] has a [userCount] of 0,
    so [totalRooms] never exceeds [totalUsers]. *)
Theorem getRoomStats_counts_a_user_per_room evs :
  let st := getRoomStats (rooms (run evs initial)) in
  Forall (fun e => 1 ≤ userCount e) (statsRooms st) ∧ totalRooms st ≤ totalUsers st.
Proof.
  set (s := run evs initial).
  assert (Forall (fun e => 1 ≤ userCount e) (statsRooms (getRoomStats (rooms s)))) as Hall.
  { apply Forall_forall. intros e Hin. simpl in Hin.
    apply list_elem_of_In, in_map_iff in Hin as ([r room] & <- & Hin). simpl.
    apply (run_nonEmpty evs r). apply get_entry; [apply run_wellFormed|].
    by apply list_elem_of_In. }
  intros st. subst st. split; [done|].
  destruct (getRoomStats_sum (rooms s)) as (Hrooms & Husers).
  rewrite Hrooms, Husers.
  etrans; [|apply sum_list_ge_length; by apply Forall_fmap].
  by rewrite length_fmap.
Qed.

Lemma sweepVisit_spec s a k :
  let res := sweepVisit (s, a) k in
  (∀ r, JsMap.get r (rooms res.1) =
        if emptyRoom k s && bool_decide (r = k) then None else JsMap.get r (rooms s)) ∧
  (∀ r, roomMetadata res.1 !! r =
        if emptyRoom k s && bool_decide (r = k) then None else roomMetadata s !! r) ∧
  sids res.1 = sids s ∧ outbox res.1 = outbox s ∧
  res.2 = if emptyRoom k s then a ++ [k] else a.
Proof.
  unfold sweepVisit, emptyRoom. simpl.
  destruct (JsMap.get k (rooms s)) as [users|] eqn:Hk; simpl; [|done].
  case_bool_decide as Hsize; simpl; [|done].
  split; [|split; [|done]]; intros r; case_bool_decide as Hr; subst.
  - apply get_delete_eq.
  - apply get_delete_ne. congruence.
  - apply lookup_delete_eq.
  - apply lookup_delete_ne. congruence.
Qed.

Lemma sweep_fold l : ∀ s a,
  let res := fold_left sweepVisit l (s, a) in
  (∀ r, JsMap.get r (rooms res.1) =
        if emptyRoom r s && bool_decide (r ∈ l) then None else JsMap.get r (rooms s)) ∧
  (∀ r, roomMetadata res.1 !! r =
        if emptyRoom r s && bool_decide (r ∈ l) then None else roomMetadata s !! r) ∧
  sids res.1 = sids s ∧ outbox res.1 = outbox s ∧
  (∀ r, r ∈ res.2 ↔ r ∈ a ∨ (r ∈ l ∧ emptyRoom r s = true)).
Proof.
  induction l as [|k l IH]; intros s a; simpl.
  { repeat split; try done; try (intros r; by rewrite andb_false_r).
    - by left.
    - intros [?|[H _]]; [done | by apply elem_of_nil in H]. }
  destruct (sweepVisit_spec s a k) as (H1 & H2 & H3 & H4 & H5).
  destruct (sweepVisit (s, a) k) as [s1 a1]. simpl in H1, H2, H3, H4, H5.
  destruct (IH s1 a1) as (I1 & I2 & I3 & I4 & I5).
  assert (∀ r, emptyRoom r s1 =
               if emptyRoom k s && bool_decide (r = k) then false else emptyRoom r s) as Hem.
  { intros r. unfold emptyRoom at 1. rewrite H1.
    by destruct (emptyRoom k s && bool_decide (r = k)). }
  assert (∀ r, r ≠ k → bool_decide (r ∈ k :: l) = bool_decide (r ∈ l)) as Hin.
  { intros r Hr. apply bool_decide_ext. rewrite elem_of_cons.
    split; [by intros [?|?] | by right]. }
  assert (bool_decide (k = k) = true ∧ bool_decide (k ∈ k :: l) = true) as [Hkk Hkl].
  { split; apply bool_decide_eq_true_2; [done | apply list_elem_of_here]. }
  clear IH.
  split; [|split; [|split; [congruence|split; [congruence|]]]]; intros r.
  - rewrite I1, Hem, H1. destruct (decide (r = k)) as [->|Hr].
    + rewrite Hkk, Hkl, andb_true_r. by destruct (emptyRoom k s).
    + rewrite (bool_decide_eq_false_2 (r = k)), andb_false_r, Hin by done. done.
  - rewrite I2, Hem, H2. destruct (decide (r = k)) as [->|Hr].
    + rewrite Hkk, Hkl, andb_true_r. by destruct (emptyRoom k s).
    + rewrite (bool_decide_eq_false_2 (r = k)), andb_false_r, Hin by done. done.
  - rewrite I5, Hem, H5, elem_of_cons. clear I1 I2 I3 I4 I5 H1 H2 H3 H4 H5 Hem Hin.
    destruct (decide (r = k)) as [->|Hr].
    + rewrite Hkk, andb_true_r.
      destruct (emptyRoom k s) eqn:Ek; simpl;
        rewrite ?elem_of_app, ?list_elem_of_singleton; intuition (try done; try congruence).
    + rewrite (bool_decide_eq_false_2 (r = k)), andb_false_r by done.
      destruct (emptyRoom k s) eqn:Ek; simpl;
        rewrite ?elem_of_app, ?list_elem_of_singleton; intuition (try done; try congruence).
Qed.

Lemma cleanupEmptyRooms_noop s : roomsNonEmpty s → cleanupEmptyRooms s = (s, []).
Proof.
  intros Hne. unfold cleanupEmptyRooms.
  apply (fold_left_invariant (fun acc => acc = (s, []))); [|done].
  intros acc k ->. unfold sweepVisit. simpl.
  destruct (JsMap.get k (rooms s)) as [users|] eqn:Hk; [|done].
  apply Hne in Hk. case_bool_decide; [lia | done].
Qed.

(** X9.  [cleanupEmptyRooms] deletes the rooms without a member and no
    other: the ids it returns are those of the empty rooms; these rooms and
    their metadata are gone, every other room and every other metadata entry
    is as before; the adapter is not touched and nothing is emitted; a second
    sweep right after finds nothing to delete. *)
Theorem cleanupEmptyRooms_removes_exactly_empty_rooms s :
  let s' := (cleanupEmptyRooms s).1 in
  let emptied := (cleanupEmptyRooms s).2 in
  (∀ r, r ∈ emptied ↔ emptyRoom r s = true) ∧
  (∀ r, JsMap.get r (rooms s') = if emptyRoom r s then None else JsMap.get r (rooms s)) ∧
  (∀ r, roomMetadata s' !! r = if emptyRoom r s then None else roomMetadata s !! r) ∧
  sids s' = sids s ∧ outbox s' = outbox s ∧
  cleanupEmptyRooms s' = (s', []).
Proof.
  intros s' emptied. subst s' emptied. unfold cleanupEmptyRooms at 1 2 3 4 5.
  destruct (sweep_fold (JsMap.keys (rooms s)) s []) as (H1 & H2 & H3 & H4 & H5).
  fold (cleanupEmptyRooms s) in *.
  assert (∀ r, emptyRoom r s && bool_decide (r ∈ JsMap.keys (rooms s)) = emptyRoom r s) as Hk.
  { intros r. destruct (emptyRoom r s) eqn:E; [|done]. simpl.
    apply bool_decide_eq_true_2. unfold emptyRoom in E.
    destruct (JsMap.get r (rooms s)) eqn:Hget; [|done]. by eapply get_Some_keys. }
  assert (∀ r, JsMap.get r (rooms (cleanupEmptyRooms s).1) =
               if emptyRoom r s then None else JsMap.get r (rooms s)) as Hrooms.
  { intros r. by rewrite H1, Hk. }
  split; [|split; [done|split; [|split; [done|split; [done|]]]]].
  - intros r. rewrite H5. split.
    + intros [H|[_ H]]; [by apply elem_of_nil in H | done].
    + intros H. right. split; [|done]. rewrite <- Hk in H.
      apply andb_true_iff in H as [_ H]. by apply bool_decide_eq_true in H.
  - intros r. by rewrite H2, Hk.
  - apply cleanupEmptyRooms_noop. intros r room. rewrite Hrooms.
    unfold emptyRoom. destruct (JsMap.get r (rooms s)) as [users|]; [|done].
    case_bool_decide as Hsize; [done|]. intros [= <-]. lia.
Qed.

(** X10.  The handlers never leave an empty room behind: in every state the
    server reaches [cleanupEmptyRooms] returns the empty list and changes
    nothing, so the sweep is a step without effect. *)
Theorem sweep_finds_nothing_in_reachable_states evs :
  let s := run evs initial in
  cleanupEmptyRooms s = (s, []) ∧ step s Sweep = s.
Proof.
  simpl. rewrite cleanupEmptyRooms_noop by apply run_nonEmpty. done.
Qed.

(** X11.  [getRoomMetadata] in a state the server reaches: it returns
    [null] exactly for the ids that are not in the registry, and these have
    no metadata either; for a room of the registry the summary names the
    room, counts at least one user, lists as many users as it counts, and its
    [createdAt] and [createdBy] are defined. *)
Theorem getRoomMetadata_of_reachable_state evs r :
  let s := run evs initial in
  match getRoomMetadata (rooms s) (roomMetadata s) r with
  | None => JsMap.has r (rooms s) = false ∧ roomMetadata s !! r = None
  | Some info =>
      JsMap.has r (rooms s) = true ∧
      infoRoomId info = r ∧
      1 ≤ infoUserCount info ∧
      length (infoUsers info) = infoUserCount info ∧
      is_Some (infoCreatedAt info) ∧ is_Some (infoCreatedBy info)
  end.
Proof.
  intros s. pose proof (run_metadataInStep evs r) as Hmd. fold s in Hmd.
  pose proof (run_nonEmpty evs r) as Hne. fold s in Hne.
  unfold getRoomMetadata, getRoomUsers. unfold JsMap.has in *.
  destruct (JsMap.get r (rooms s)) as [room|] eqn:Hget; simpl.
  - split; [done|]. split; [done|]. split; [by apply Hne|].
    split; [unfold JsMap.values, JsMap.size; by rewrite length_map|].
    rewrite !fmap_is_Some. split; by apply Hmd.
  - split; [done|]. apply eq_None_not_Some. intros H. by apply Hmd in H.
Qed.

(** ** Leaving and disconnecting *)

Lemma handleUserLeaving_not_member c r s :
  member c r s = None → handleUserLeaving c (JsString r) s = s.
Proof.
  unfold member, handleUserLeaving.
  destruct (JsMap.get r (rooms s)) as [room|]; [|done]. simpl. by intros ->.
Qed.

(** X12.  Leaving is idempotent: a second [leave-room] for the same room
    right after the first changes nothing and emits nothing, whatever the
    value of [roomId]. *)
Theorem leaving_twice_is_leaving_once c roomId s :
  leaveRoom c roomId (leaveRoom c roomId s) = leaveRoom c roomId s ∧
  outbox (leaveRoom c roomId (leaveRoom c roomId s)) = outbox (leaveRoom c roomId s).
Proof.
  assert (leaveRoom c roomId (leaveRoom c roomId s) = leaveRoom c roomId s) as H;
    [|by rewrite H].
  unfold leaveRoom.
  assert ((∃ r, roomId = JsString r) ∨ ∀ r, roomId ≠ JsString r) as [[r ->]|Hv]
    by (destruct roomId; eauto; by right).
  - apply handleUserLeaving_not_member, handleUserLeaving_member_self.
  - by rewrite !handleUserLeaving_not_string.
Qed.

Lemma run_snoc evs ev s : run (evs ++ [ev]) s = step (run evs s) ev.
Proof. unfold run. by rewrite fold_left_app. Qed.

Lemma nonEmpty_has_member r room s :
  roomsNonEmpty s → JsMap.get r (rooms s) = Some room → ∃ x u, member x r s = Some u.
Proof.
  intros Hne Hget. pose proof (Hne r room Hget) as Hsize.
  destruct room as [|[x u] room]; [simpl in Hsize; lia|].
  exists x, u. unfold member. rewrite Hget. simpl. by rewrite decide_True.
Qed.

(** X13.  A disconnect takes the socket out of every room of the registry,
    the room named by its own id included, and out of the adapter; the
    records and the rooms of the other sockets are as before; a room in which
    the socket was the only member is deleted together with its metadata. *)
Theorem disconnect_removes_socket_everywhere evs c :
  let s := run evs initial in
  connected c s = true →
  let s' := step s (Disconnect c) in
  connected c s' = false ∧
  socketRooms c s' = [] ∧
  (∀ r, member c r s' = None) ∧
  (∀ x r, x ≠ c → member x r s' = member x r s ∧ socketRooms x s' = socketRooms x s) ∧
  (∀ r, (∀ x, member x r s ≠ None → x = c) →
        JsMap.get r (rooms s') = None ∧ roomMetadata s' !! r = None).
Proof.
  intros s Hc s'.
  assert (s' = onDisconnect c (withSids (JsMap.delete c) s)) as Hs'.
  { subst s'. simpl. by rewrite Hc. }
  assert (JsMap.get c (sids s') = None) as Hgone.
  { rewrite Hs'. apply onDisconnect_sids_disconnected. simpl. apply get_delete_eq. }
  assert (∀ r, member c r s' = None) as Hclear.
  { intros r. rewrite Hs'. apply onDisconnect_clears. }
  assert (∀ x r, x ≠ c → member x r s' = member x r s) as Hother.
  { intros x r Hx. rewrite Hs'. by rewrite onDisconnect_member_other. }
  split; [by apply has_false|]. split; [unfold socketRooms; by rewrite Hgone|].
  split; [done|]. split.
  - intros x r Hx. split; [by apply Hother|].
    unfold socketRooms. rewrite Hs', onDisconnect_sids_other by done. simpl.
    by rewrite get_delete_ne.
  - intros r Halone.
    assert (s' = run (evs ++ [Disconnect c]) initial) as Hrun by (by rewrite run_snoc).
    assert (JsMap.get r (rooms s') = None) as Hnone.
    { destruct (JsMap.get r (rooms s')) as [room|] eqn:Hget; [|done]. exfalso.
      destruct (nonEmpty_has_member r room s') as (x & u & Hm); [|done|].
      { rewrite Hrun. apply run_nonEmpty. }
      destruct (decide (x = c)) as [->|Hx]; [by rewrite Hclear in Hm|].
      apply Hx, (Halone x). rewrite <- (Hother x r Hx). congruence. }
    split; [done|]. apply eq_None_not_Some. intros Hmd.
    rewrite Hrun in Hmd. apply run_metadataInStep in Hmd. rewrite <- Hrun in Hmd.
    apply has_true in Hmd as [room Hroom]. congruence.
Qed.

Lemma disconnect_removes_socket_everywhere_witness :
  let c := jsstr "A" in
  let clk := mkClock (jsstr "T0") 0 (jsstr "T1") in
  let s := run [Connect c; Connect (jsstr "B");
                Receive c (JoinRoom (JsString c) (JsString (jsstr "al")) JsUndefined clk);
                Receive c (JoinRoom (JsString (jsstr "r")) (JsString (jsstr "al")) JsUndefined clk)]
             initial in
  memberships c s = [c; jsstr "r"] ∧
  connected c (step s (Disconnect c)) = false ∧
  ∀ r, member c r (step s (Disconnect c)) = None.
Proof.
  split; [vm_compute; reflexivity|].
  destruct (disconnect_removes_socket_everywhere
              [Connect (jsstr "A"); Connect (jsstr "B");
               Receive (jsstr "A") (JoinRoom (JsString (jsstr "A")) (JsString (jsstr "al"))
                                      JsUndefined (mkClock (jsstr "T0") 0 (jsstr "T1")));
               Receive (jsstr "A") (JoinRoom (JsString (jsstr "r")) (JsString (jsstr "al"))
                                      JsUndefined (mkClock (jsstr "T0") 0 (jsstr "T1")))]
              (jsstr "A")) as (H1 & _ & H3 & _).
  { vm_compute. reflexivity. }
  split; [exact H1 | exact H3].
Defined.

(** X14.  In every state the server reaches the adapter and the registry
    agree: [io.to(r)] reaches the sockets registered as members of [r] and,
    apart from the socket whose own id is [r], no other; every member and
    every receiver is a connected socket. *)
Theorem room_broadcast_reaches_exactly_the_members evs r :
  let s := run evs initial in
  (∀ x, x ≠ r → (x ∈ recipients (sids s) (ToRoom r) ↔ member x r s ≠ None)) ∧
  (∀ x, member x r s ≠ None → connected x s = true) ∧
  (∀ x, x ∈ recipients (sids s) (ToRoom r) → connected x s = true).
Proof.
  intros s. split; [|split].
  - intros x Hx. simpl. rewrite elem_of_inRoom.
    destruct (run_coherent evs x) as [H _]. by apply H.
  - intros x. destruct (run_coherent evs x) as [_ H]. apply H.
  - intros x. simpl. rewrite elem_of_inRoom. unfold socketRooms, connected, JsMap.has.
    destruct (JsMap.get x (sids s)); [done|]. simpl. intros H. by apply elem_of_nil in H.
Qed.

Lemma last_two {A} (l : list A) (a b : A) : last (l ++ [a; b]) = Some b.
Proof. change (l ++ [a; b]) with (l ++ [a] ++ [b]). by rewrite app_assoc, last_snoc. Qed.

(** X15.  Who gets the final [room-users] list when a socket leaves a room
    that others remain in.  On [leave-room] the list is broadcast before
    [socket.leave], so the leaver receives the list it is no longer on; when
    the room is left by the loop of [join-room], [socket.leave] comes first
    and the leaver does not receive it. *)
Theorem leaver_gets_roster_on_leave_room_only c r s room user :
  JsMap.get r (rooms s) = Some room →
  JsMap.get c room = Some user →
  JsMap.delete c room ≠ [] →
  r ∈ socketRooms c s →
  let roster := JsArray (List.map userDataJs (JsMap.values (JsMap.delete c room))) in
  (∃ e, last (outbox (leaveRoom c (JsString r) s)) = Some e ∧
        event e = "room-users"%string ∧ payload e = roster ∧ c ∈ delivered e) ∧
  (r ≠ c →
   ∃ e, last (outbox (leaveVisit c s r)) = Some e ∧
        event e = "room-users"%string ∧ payload e = roster ∧ c ∉ delivered e) ∧
  member c r (leaveRoom c (JsString r) s) = None.
Proof.
  intros Hr Hu Hrest Hin roster.
  assert ((0 <? JsMap.size (JsMap.delete c room)) = true) as Hsize.
  { apply Nat.ltb_lt. destruct (JsMap.delete c room); [done | simpl; lia]. }
  split; [|split].
  - unfold leaveRoom. rewrite handleUserLeaving_outbox, Hr, Hu, Hsize, last_two.
    eexists. split; [done|]. simpl. split; [done|]. split; [done|].
    by apply elem_of_inRoom.
  - intros Hne. unfold leaveVisit. rewrite bool_decide_eq_true_2 by done.
    rewrite handleUserLeaving_outbox, socketLeave_rooms, Hr, Hu, Hsize, last_two.
    eexists. split; [done|]. simpl. split; [done|]. split; [done|].
    rewrite elem_of_inRoom, socketRooms_socketLeave, elem_of_set_delete. by intros [_ ?].
  - apply handleUserLeaving_member_self.
Qed.

Lemma leaver_gets_roster_on_leave_room_only_witness :
  let clk := mkClock (jsstr "T0") 0 (jsstr "T1") in
  let s := run [Connect (jsstr "A"); Connect (jsstr "B");
                Receive (jsstr "A") (JoinRoom (JsString (jsstr "r")) (JsString (jsstr "al")) JsUndefined clk);
                Receive (jsstr "B") (JoinRoom (JsString (jsstr "r")) (JsString (jsstr "bo")) JsUndefined clk)]
             initial in
  ∃ e, last (outbox (leaveRoom (jsstr "A") (JsString (jsstr "r")) s)) = Some e ∧
       event e = "room-users"%string ∧
       payload e = JsArray [userDataJs (mkUserData (jsstr "B") (jsstr "bo") (JsString (jsstr "B"))
                                          (getUserColor 1) (jsstr "T1"))] ∧
       jsstr "A" ∈ delivered e.
Proof.
  set (clk := mkClock (jsstr "T0") 0 (jsstr "T1")).
  set (ua := mkUserData (jsstr "A") (jsstr "al") (JsString (jsstr "A")) (getUserColor 0) (jsstr "T1")).
  set (ub := mkUserData (jsstr "B") (jsstr "bo") (JsString (jsstr "B")) (getUserColor 1) (jsstr "T1")).
  destruct (leaver_gets_roster_on_leave_room_only (jsstr "A") (jsstr "r")
              (run [Connect (jsstr "A"); Connect (jsstr "B");
                    Receive (jsstr "A") (JoinRoom (JsString (jsstr "r")) (JsString (jsstr "al")) JsUndefined clk);
                    Receive (jsstr "B") (JoinRoom (JsString (jsstr "r")) (JsString (jsstr "bo")) JsUndefined clk)]
                 initial)
              [(jsstr "A", ua); (jsstr "B", ub)] ua) as (H & _).
  - vm_compute. reflexivity.
  - vm_compute. reflexivity.
  - vm_compute. discriminate.
  - apply (bool_decide_unpack _). vm_compute. reflexivity.
  - exact H.
Defined.

(** ** Joining and leaving again *)

Section JsMapUpdates.
Context {V : Type}.
Implicit Types (k : list N) (v : V) (m : JsMap V).

Lemma set_set k v w m : JsMap.set k v (JsMap.set k w m) = JsMap.set k v m.
Proof.
  induction m as [|[k' v'] m IH]; simpl.
  - by rewrite decide_True.
  - destruct (decide (k' = k)) as [->|Hne]; simpl.
    + by rewrite decide_True.
    + rewrite decide_False by done. by rewrite IH.
Qed.

Lemma set_same k v m : JsMap.get k m = Some v → JsMap.set k v m = m.
Proof.
  induction m as [|[k' v'] m IH]; simpl; [done|].
  destruct (decide (k' = k)) as [->|Hne].
  - by intros [= ->].
  - intros H. by rewrite IH.
Qed.

Lemma delete_absent k m : JsMap.get k m = None → JsMap.delete k m = m.
Proof.
  induction m as [|[k' v'] m IH]; simpl; [done|].
  destruct (decide (k' = k)); [done|]. intros H. by rewrite IH.
Qed.

Lemma delete_set_fresh k v m : JsMap.get k m = None → JsMap.delete k (JsMap.set k v m) = m.
Proof.
  induction m as [|[k' v'] m IH]; simpl.
  - by rewrite decide_True.
  - destruct (decide (k' = k)) as [->|Hne]; [done|]. intros H. simpl.
    rewrite decide_False by done. by rewrite IH.
Qed.
End JsMapUpdates.

Lemma handleUserLeaving_sids_member c r s u :
  member c r s = Some u →
  sids (handleUserLeaving c (JsString r) s) = sids (socketLeave c r s).
Proof.
  unfold member, handleUserLeaving. destruct (JsMap.get r (rooms s)) as [room|]; [|done].
  simpl. intros ->. unfold socketLeave.
  destruct (0 <? _); simpl; by destruct (JsMap.get c (sids s)).
Qed.

(** X16.  Joining a room and leaving it again is a round trip on the
    registry: for a socket that is in no room but the one of its own id, a
    valid [join-room] to another room followed by [leave-room] for that room
    gives back the rooms, the metadata and the adapter of before, whether the
    join created the room or found it. *)
Theorem join_then_leave_restores_registry evs c r uname uid clk :
  let s := run evs initial in
  socketRooms c s = [c] →
  isValidRoomId (JsString r) = true →
  r ≠ c →
  let s' := leaveRoom c (JsString r) (joinRoom c (JsString r) uname uid clk s) in
  rooms s' = rooms s ∧ roomMetadata s' = roomMetadata s ∧ sids s' = sids s.
Proof.
  intros s Hfresh Hvalid Hne s'.
  assert (member c r s = None) as Hnot.
  { destruct (member c r s) eqn:E; [|done]. exfalso.
    destruct (run_coherent evs c) as [Hcoh _]. fold s in Hcoh.
    assert (r ∈ socketRooms c s) as Hin by (apply Hcoh; [done | congruence]).
    rewrite Hfresh in Hin. by apply list_elem_of_singleton in Hin. }
  assert (JsMap.get c (sids s) = Some [c]) as Hsid.
  { unfold socketRooms in Hfresh. destruct (JsMap.get c (sids s)); simpl in Hfresh; by subst. }
  destruct (joinRoom_valid c r uname uid clk s Hvalid) as (Hrooms & Hmd & Hsids & _).
  rewrite (leaveExistingRooms_fresh c s Hfresh) in Hrooms, Hmd, Hsids.
  set (sJ := joinRoom c (JsString r) uname uid clk s) in *.
  set (s3 := initRoom c r clk (socketJoin c r s)) in *.
  set (room0 := default [] (JsMap.get r (rooms s))).
  assert (JsMap.get r (rooms s3) = Some room0) as Hget3 by apply initRoom_get.
  rewrite Hget3 in Hrooms. simpl in Hrooms.
  match type of Hrooms with context [JsMap.set c ?x room0] => set (u := x) in * end.
  assert (JsMap.get c room0 = None) as Hc0.
  { unfold member in Hnot. subst room0. by destruct (JsMap.get r (rooms s)). }
  assert (member c r sJ = Some u) as HmJ.
  { unfold member. rewrite Hrooms, get_set_eq. simpl. apply get_set_eq. }
  subst s'. unfold leaveRoom. split; [|split].
  - rewrite handleUserLeaving_rooms, Hrooms, get_set_eq, get_set_eq, delete_set_fresh by done.
    rewrite set_set.
    subst s3 room0. unfold initRoom, JsMap.has. simpl.
    destruct (JsMap.get r (rooms s)) as [room|] eqn:Hr; simpl.
    + assert (1 ≤ JsMap.size room) by (by apply (run_nonEmpty evs r)).
      destruct (0 <? JsMap.size room) eqn:Hlt; [|apply Nat.ltb_ge in Hlt; lia].
      by apply set_same.
    + rewrite set_set. by apply delete_set_fresh.
  - rewrite handleUserLeaving_roomMetadata, Hrooms, get_set_eq, get_set_eq, delete_set_fresh by done.
    rewrite Hmd. subst s3 room0. unfold initRoom, JsMap.has. simpl.
    destruct (JsMap.get r (rooms s)) as [room|] eqn:Hr; simpl.
    + assert (1 ≤ JsMap.size room) by (by apply (run_nonEmpty evs r)).
      destruct (0 <? JsMap.size room) eqn:Hlt; [done|apply Nat.ltb_ge in Hlt; lia].
    + apply delete_insert_id. apply eq_None_not_Some. intros H.
      apply (run_metadataInStep evs r) in H. fold s in H.
      apply has_true in H as [room Hroom]. congruence.
  - rewrite (handleUserLeaving_sids_member c r sJ u HmJ).
    unfold socketLeave. rewrite Hsids. subst s3. rewrite initRoom_sids.
    unfold socketJoin. simpl. rewrite Hfresh, get_set_eq. simpl.
    rewrite Hsids, initRoom_sids. simpl. rewrite Hfresh, set_set.
    assert (JsSet.delete r (JsSet.add r [c]) = [c]) as ->.
    { unfold JsSet.add, JsSet.delete.
      rewrite bool_decide_eq_false_2 by (rewrite list_elem_of_singleton; done).
      simpl. rewrite (bool_decide_eq_false_2 (c = r)) by congruence.
      by rewrite bool_decide_eq_true_2. }
    by apply set_same.
Qed.

Lemma join_then_leave_restores_registry_witness :
  let s := run [Connect (jsstr "A")] initial in
  let s' := leaveRoom (jsstr "A") (JsString (jsstr "r"))
              (joinRoom (jsstr "A") (JsString (jsstr "r")) (JsString (jsstr "al")) JsUndefined
                 (mkClock (jsstr "T0") 0 (jsstr "T1")) s) in
  rooms s' = rooms s ∧ roomMetadata s' = roomMetadata s ∧ sids s' = sids s.
Proof.
  apply (join_then_leave_restores_registry [Connect (jsstr "A")]).
  - vm_compute. reflexivity.
  - vm_compute. reflexivity.
  - vm_compute. discriminate.
Defined.

(** ** The relay handlers *)

(** X17.  [yjs-update], [awareness-update] and [request-sync] emit one event
    each with [socket.to(roomId)] and touch nothing else; the payload carries
    the update as received and the sender's socket id as [from].  The sender's
    own membership is not looked at.  In a state the server reaches in which
    the room named by the sender's id holds the sender and no other socket,
    the sender does not receive the event, and a socket other than the one
    whose id is [roomId] receives it exactly when it is a registered member
    of [roomId] other than the sender; when moreover no connected socket has
    [roomId] as its id, the receivers are exactly the registered members of
    [roomId] other than the sender, whether or not the sender is one. *)
Theorem relays_reach_the_room_without_membership_check evs c roomId update :
  let s := run evs initial in
  let to := recipients (sids s) (ToOthers c roomId) in
  let sent ev p := {| target := ToOthers c roomId; delivered := to; event := ev; payload := p |} in
  (∀ e, isRelay e = true →
        rooms (handle c e s) = rooms s ∧ roomMetadata (handle c e s) = roomMetadata s ∧
        sids (handle c e s) = sids s) ∧
  outbox (yjsUpdate c roomId update s) =
    outbox s ++ [sent "yjs-update"%string
                   (JsObject [("update", update); ("from", JsString c)]%string)] ∧
  outbox (awarenessUpdate c roomId update s) =
    outbox s ++ [sent "awareness-update"%string
                   (JsObject [("update", update); ("from", JsString c)]%string)] ∧
  outbox (requestSync c roomId s) =
    outbox s ++ [sent "sync-requested"%string (JsObject [("from", JsString c)]%string)] ∧
  (∀ x, x ∈ to ↔ roomId ∈ socketRooms x s ∧ c ∉ socketRooms x s) ∧
  (ownRoomPrivate c s →
   (c ∉ to) ∧ ∀ x, x ≠ roomId → (x ∈ to ↔ member x roomId s ≠ None ∧ x ≠ c)) ∧
  (ownRoomPrivate c s → connected roomId s = false →
   ∀ x, x ∈ to ↔ member x roomId s ≠ None ∧ x ≠ c).
Proof.
  intros s to sent.
  assert (∀ x, x ∈ to ↔ roomId ∈ socketRooms x s ∧ c ∉ socketRooms x s) as Hto.
  { intros x. apply elem_of_recipients_others. }
  assert (ownRoomPrivate c s →
          ∀ x, x ≠ roomId → (x ∈ to ↔ member x roomId s ≠ None ∧ x ≠ c)) as Hmembers.
  { intros Hown x Hx. rewrite Hto. destruct (run_coherent evs x) as [Hcoh _]. fold s in Hcoh.
    rewrite (Hcoh roomId) by done. rewrite (Hown x). done. }
  split.
  { intros e He. by rewrite relay_rooms, relay_roomMetadata, relay_sids. }
  do 3 (split; [done|]). split; [done|]. split.
  - intros Hown. split; [|by apply Hmembers].
    rewrite Hto. intros [_ Hc]. apply Hc. by apply Hown.
  - intros Hown Hfree x.
    destruct (decide (x = roomId)) as [->|Hx]; [|by apply Hmembers].
    assert (member roomId roomId s = None) as Hnot.
    { destruct (run_coherent evs roomId) as [_ Hconn]. fold s in Hconn.
      destruct (member roomId roomId s) eqn:E; [|done].
      rewrite (Hconn roomId) in Hfree; [done | congruence]. }
    rewrite Hto, Hnot. unfold socketRooms.
    assert (JsMap.get roomId (sids s) = None) as -> by (by apply has_false).
    simpl. split; [intros [Hin _]; by apply elem_of_nil in Hin | by intros [? _]].
Qed.

(** X18.  [cursor-update] and [typing] are relayed for members only, and
    under the identity stored at the join: when the registry does not list the
    sender in [roomId] nothing happens at all; when it does, one event goes
    out with [socket.to(roomId)] whose [userId] is the socket id and whose
    [username] and [color] are those of the stored record, so the name is the
    sanitized one and the colour one of the palette, whatever the client puts
    in this payload. *)
Theorem cursor_and_typing_speak_for_the_stored_record evs c roomId v :
  let s := run evs initial in
  let sent ev p := {| target := ToOthers c roomId;
                      delivered := recipients (sids s) (ToOthers c roomId);
                      event := ev; payload := p |} in
  match member c roomId s with
  | None => cursorUpdate c roomId v s = s ∧ typing c roomId v s = s
  | Some u =>
      recordOk c u ∧
      outbox (cursorUpdate c roomId v s) =
        outbox s ++ [sent "cursor-update"%string
                       (JsObject [("userId", JsString c); ("username", JsString (username u));
                                  ("color", color u); ("position", v)]%string)] ∧
      outbox (typing c roomId v s) =
        outbox s ++ [sent "user-typing"%string
                       (JsObject [("userId", JsString c); ("username", JsString (username u));
                                  ("isTyping", v)]%string)] ∧
      rooms (cursorUpdate c roomId v s) = rooms s ∧ rooms (typing c roomId v s) = rooms s
  end.
Proof.
  intros s sent. pose proof (run_recordOk evs c roomId) as Hok. fold s in Hok.
  unfold member, cursorUpdate, typing in *.
  destruct (JsMap.get roomId (rooms s)) as [room|]; simpl in *; [|done].
  destruct (JsMap.get c room) as [u|]; [|done].
  split; [by apply Hok | done].
Qed.

(** ** Joining again, and the list of memberships *)

(** X19.  A socket that is alone in a room other than the one named by its
    own id, and in no further room, and joins that same room again destroys
    the room and creates it anew: the loop that leaves the existing rooms
    removes the last member, so the room and its metadata are deleted, and
    the join that follows finds no room; [createdAt] becomes the time of the
    second join, the member record is a new one with the first colour of the
    palette, and the only trace of the leave is a [user-left] event. *)
Theorem rejoining_alone_recreates_the_room c r u uname uid clk s :
  isValidRoomId (JsString r) = true →
  r ≠ c →
  socketRooms c s = [c; r] →
  JsMap.get r (rooms s) = Some [(c, u)] →
  let s' := joinRoom c (JsString r) uname uid clk s in
  roomMetadata s' !! r = Some {| createdAt := createdAtIso clk; createdBy := c |} ∧
  (∃ u', JsMap.get r (rooms s') = Some [(c, u')] ∧ writtenByJoin c uname uid clk 0 u') ∧
  socketRooms c s' = [c; r] ∧
  List.map event (drop (length (outbox s)) (outbox s')) =
    ["user-left"; "room-users"; "user-joined"; "room-users"; "join-success"]%string.
Proof.
  intros Hvalid Hne Hsr Hget s'.
  set (s1 := leaveExistingRooms c s).
  assert (s1 = handleUserLeaving c (JsString r) (socketLeave c r s)) as Hs1.
  { subst s1. unfold leaveExistingRooms. rewrite Hsr. simpl. unfold leaveVisit.
    rewrite (bool_decide_eq_false_2 (c ≠ c)) by (intros H; by apply H).
    by rewrite (bool_decide_eq_true_2 (r ≠ c)). }
  assert (JsMap.get c [(c, u)] = Some u) as Hcu by (simpl; by rewrite decide_True).
  assert (JsMap.get r (rooms s1) = None) as Hgone.
  { rewrite Hs1, handleUserLeaving_rooms, socketLeave_rooms, Hget, Hcu, delete_nil. simpl.
    apply get_delete_eq. }
  assert (outbox s1 = outbox s ++ [userLeft c r u (sids (socketLeave c r s))]) as Hout1.
  { rewrite Hs1, handleUserLeaving_outbox, socketLeave_rooms, Hget, Hcu, delete_nil. simpl.
    by rewrite socketLeave_outbox. }
  assert (socketRooms c s1 = [c]) as Hsr1.
  { rewrite Hs1, socketRooms_handleUserLeaving. unfold member.
    rewrite socketLeave_rooms, Hget. simpl. rewrite decide_True by done.
    rewrite socketRooms_socketLeave, Hsr. unfold JsSet.delete. simpl.
    rewrite (bool_decide_eq_false_2 (c = r)) by congruence.
    rewrite (bool_decide_eq_true_2 (r = r)) by done. simpl.
    by rewrite (bool_decide_eq_false_2 (c = r)) by congruence. }
  destruct (joinRoom_valid c r uname uid clk s Hvalid) as (Hrooms & Hmd & Hsids & Hout).
  fold s1 s' in Hrooms, Hmd, Hsids, Hout.
  set (s2 := socketJoin c r s1) in *.
  assert (JsMap.get r (rooms (initRoom c r clk s2)) = Some []) as Hinit.
  { rewrite initRoom_get. subst s2. simpl. by rewrite Hgone. }
  rewrite Hinit in Hrooms, Hout. simpl in Hrooms, Hout.
  split; [|split; [|split]].
  - rewrite Hmd. unfold initRoom, JsMap.has. subst s2. simpl. rewrite Hgone. simpl.
    apply lookup_insert_eq.
  - eexists. split; [by rewrite Hrooms, get_set_eq|]. done.
  - unfold socketRooms at 1. rewrite Hsids, initRoom_sids. subst s2. unfold socketJoin. simpl.
    rewrite get_set_eq, Hsr1. simpl. unfold JsSet.add.
    by rewrite bool_decide_eq_false_2 by (rewrite list_elem_of_singleton; done).
  - rewrite Hout, initRoom_outbox. subst s2. simpl. rewrite Hout1, <- app_assoc.
    by rewrite drop_app_length.
Qed.

Lemma rejoining_alone_recreates_the_room_witness :
  let c := jsstr "A" in
  let r := jsstr "r" in
  let s := run [Connect c;
                Receive c (JoinRoom (JsString r) (JsString (jsstr "al")) JsUndefined
                             (mkClock (jsstr "T0") 0 (jsstr "T1")))] initial in
  let s' := joinRoom c (JsString r) (JsString (jsstr "al")) JsUndefined
              (mkClock (jsstr "T2") 0 (jsstr "T3")) s in
  roomMetadata s !! r = Some {| createdAt := jsstr "T0"; createdBy := c |} ∧
  roomMetadata s' !! r = Some {| createdAt := jsstr "T2"; createdBy := c |}.
Proof.
  split; [vm_compute; reflexivity|].
  destruct (rejoining_alone_recreates_the_room (jsstr "A") (jsstr "r")
              (mkUserData (jsstr "A") (jsstr "al") (JsString (jsstr "A")) (getUserColor 0) (jsstr "T1"))
              (JsString (jsstr "al")) JsUndefined (mkClock (jsstr "T2") 0 (jsstr "T3"))
              (run [Connect (jsstr "A");
                    Receive (jsstr "A") (JoinRoom (JsString (jsstr "r")) (JsString (jsstr "al"))
                                           JsUndefined (mkClock (jsstr "T0") 0 (jsstr "T1")))]
                 initial)) as (H & _).
  - vm_compute. reflexivity.
  - vm_compute. discriminate.
  - vm_compute. reflexivity.
  - vm_compute. reflexivity.
  - exact H.
Defined.

Lemma elem_of_memberships_keys c r (m : JsMap (JsMap UserData)) :
  r ∈ List.map fst (List.filter (fun e => JsMap.has c e.2) m) → r ∈ JsMap.keys m.
Proof.
  rewrite list_elem_of_In, in_map_iff. intros ([k room] & <- & Hin).
  apply filter_In in Hin as [Hin _]. apply (elem_of_map fst (k, room)).
  by apply list_elem_of_In.
Qed.

Lemma elem_of_memberships c r s :
  NoDup (JsMap.keys (rooms s)) → (r ∈ memberships c s ↔ member c r s ≠ None).
Proof.
  unfold memberships, member. generalize (rooms s). intros m.
  induction m as [|[k0 room0] m IH]; simpl.
  { intros _. split; [intros H; by apply elem_of_nil in H | done]. }
  unfold JsMap.keys. simpl. rewrite NoDup_cons. intros [Hk0 Hm].
  specialize (IH Hm). destruct (decide (k0 = r)) as [->|Hk]; simpl.
  - unfold JsMap.has. destruct (JsMap.get c room0) as [u|]; simpl.
    + split; [done|]. intros _. apply list_elem_of_here.
    + split; [|done]. intros H. by apply elem_of_memberships_keys in H.
  - rewrite <- IH. destruct (JsMap.has c room0); simpl; [|done].
    rewrite elem_of_cons. split; [by intros [?|?] | by right].
Qed.

Lemma memberships_NoDup c s : NoDup (JsMap.keys (rooms s)) → NoDup (memberships c s).
Proof.
  unfold memberships. generalize (rooms s). intros m.
  induction m as [|[k0 room0] m IH]; simpl; [intros _; apply NoDup_nil_2|].
  unfold JsMap.keys. simpl. rewrite NoDup_cons. intros [Hk0 Hm].
  destruct (JsMap.has c room0); simpl; [|by apply IH].
  apply NoDup_cons. split; [|by apply IH].
  intros H. by apply elem_of_memberships_keys in H.
Qed.

Lemma NoDup_only (l : list jsstring) (r0 : jsstring) :
  NoDup l → (∀ r, r ∈ l ↔ r = r0) → l = [r0].
Proof.
  intros Hnd Hl. destruct l as [|a l].
  - assert (r0 ∈ @nil jsstring) as H by (by apply Hl). by apply elem_of_nil in H.
  - assert (a = r0) as -> by (apply Hl, list_elem_of_here).
    apply NoDup_cons in Hnd as [Ha _]. destruct l as [|b l]; [done|].
    assert (b = r0) as -> by (apply Hl, list_elem_of_further, list_elem_of_here).
    exfalso. apply Ha, list_elem_of_here.
Qed.

(** X20.  One room at a time, away from the room of the socket's own id: for
    a socket that connects and then sends nothing but [join-room]s, none of
    them naming its own socket id, the rooms of the registry that list it are
    exactly the room of its last valid join, or none when no join was valid,
    whatever the other sockets do in between. *)
Theorem memberships_is_the_last_valid_join c evs :
  Forall (onlyJoinsElsewhere c) evs →
  memberships c (run (Connect c :: evs) initial) =
  match lastValidJoin c None evs with
  | Some r => [r]
  | None => []
  end.
Proof.
  intros Hevs.
  destruct (single_active_room_from_connection c initial evs) as [Hiff Hnone]; try done.
  destruct (run_wellFormed (Connect c :: evs)) as (Hnd & _).
  set (s := run (Connect c :: evs) initial) in *.
  destruct (lastValidJoin c None evs) as [r0|].
  - apply NoDup_only; [by apply memberships_NoDup|].
    intros r. rewrite elem_of_memberships, Hiff by done.
    split; [by intros [= ->] | by intros ->].
  - destruct (memberships c s) as [|r l] eqn:E; [done|]. exfalso.
    assert (r ∈ memberships c s) as Hin by (rewrite E; apply list_elem_of_here).
    apply elem_of_memberships in Hin; [|done]. apply Hin. by apply Hnone.
Qed.

Lemma memberships_is_the_last_valid_join_witness :
  let clk := mkClock (jsstr "T0") 0 (jsstr "T1") in
  let evs := [Receive (jsstr "A") (JoinRoom (JsString (jsstr "r1")) (JsString (jsstr "al")) JsUndefined clk);
              Connect (jsstr "B");
              Receive (jsstr "B") (JoinRoom (JsString (jsstr "r1")) (JsString (jsstr "bo")) JsUndefined clk);
              Receive (jsstr "A") (JoinRoom (JsString (jsstr "bad room")) JsNull JsUndefined clk);
              Receive (jsstr "A") (JoinRoom (JsString (jsstr "r2")) (JsString (jsstr "al")) JsUndefined clk)] in
  memberships (jsstr "A") (run (Connect (jsstr "A") :: evs) initial) =
  match lastValidJoin (jsstr "A") None evs with
  | Some r => [r]
  | None => []
  end.
Proof.
  apply memberships_is_the_last_valid_join.
  repeat (apply Forall_cons; split; [simpl; try done; intros _; vm_compute; discriminate|]).
  apply Forall_nil_2.
Defined.

(** ** What a valid join emits *)

Lemma handleUserLeaving_emits c v s :
  ∃ new, outbox (handleUserLeaving c v s) = outbox s ++ new ∧
         Forall (fun e => event e = "user-left"%string ∨ event e = "room-users"%string) new.
Proof.
  assert ((∃ r, v = JsString r) ∨ ∀ r, v ≠ JsString r) as [[r ->]|Hv]
    by (destruct v; eauto; by right).
  2:{ exists []. by rewrite handleUserLeaving_not_string, app_nil_r. }
  rewrite handleUserLeaving_outbox.
  destruct (JsMap.get r (rooms s)) as [room|]; [|exists []; by rewrite app_nil_r].
  destruct (JsMap.get c room) as [user|]; [|exists []; by rewrite app_nil_r].
  eexists. split; [done|]. apply Forall_cons. split; [by left|].
  destruct (0 <? _); [|apply Forall_nil_2].
  apply Forall_cons. split; [by right | apply Forall_nil_2].
Qed.

Lemma leaveExistingRooms_emits c s :
  ∃ new, outbox (leaveExistingRooms c s) = outbox s ++ new ∧
         Forall (fun e => event e = "user-left"%string ∨ event e = "room-users"%string) new.
Proof.
  unfold leaveExistingRooms.
  apply (fold_left_invariant
           (fun acc => ∃ new, outbox acc = outbox s ++ new ∧
              Forall (fun e => event e = "user-left"%string ∨ event e = "room-users"%string) new)).
  - intros acc k (new & Hnew & Hall). unfold leaveVisit. case_bool_decide; [|eauto].
    destruct (handleUserLeaving_emits c (JsString k) (socketLeave c k acc)) as (new' & -> & Hall').
    rewrite socketLeave_outbox, Hnew. exists (new ++ new').
    split; [by rewrite app_assoc | by apply Forall_app].
  - exists []. by rewrite app_nil_r.
Qed.

(** X21.  The [catch] branch of [join-room] is never taken, and a valid
    join reports no error: everything the handler emits for a valid [roomId]
    is a [user-left] or [room-users] of the rooms it leaves, followed by the
    four events of the join; no [error] event is among them. *)
Theorem valid_join_never_reports_an_error c r uname uid clk s :
  isValidRoomId (JsString r) = true →
  ∃ left joined,
    outbox (joinRoom c (JsString r) uname uid clk s) = outbox s ++ left ++ joined ∧
    Forall (fun e => event e = "user-left"%string ∨ event e = "room-users"%string) left ∧
    List.map event joined = ["room-users"; "user-joined"; "room-users"; "join-success"]%string ∧
    Forall (fun e => event e ≠ "error"%string) (left ++ joined).
Proof.
  intros Hvalid.
  destruct (joinRoom_valid c r uname uid clk s Hvalid) as (_ & _ & _ & Hout).
  rewrite initRoom_outbox in Hout. simpl in Hout.
  destruct (leaveExistingRooms_emits c s) as (left & Hleft & Hall).
  rewrite Hleft, <- app_assoc in Hout.
  eexists left, _. split; [exact Hout|]. split; [done|]. split; [done|].
  apply Forall_app. split.
  - eapply Forall_impl; [exact Hall|]. simpl. by intros e [-> | ->].
  - repeat constructor; simpl; done.
Qed.

Lemma valid_join_never_reports_an_error_witness :
  let clk := mkClock (jsstr "T0") 0 (jsstr "T1") in
  let s := run [Connect (jsstr "A");
                Receive (jsstr "A") (JoinRoom (JsString (jsstr "r1")) (JsString (jsstr "al")) JsUndefined clk)]
             initial in
  ∃ left joined,
    outbox (joinRoom (jsstr "A") (JsString (jsstr "r2")) (JsString (jsstr "al")) JsUndefined clk s) =
      outbox s ++ left ++ joined ∧
    Forall (fun e => event e = "user-left"%string ∨ event e = "room-users"%string) left ∧
    List.map event joined = ["room-users"; "user-joined"; "room-users"; "join-success"]%string ∧
    Forall (fun e => event e ≠ "error"%string) (left ++ joined).
Proof.
  apply valid_join_never_reports_an_error. vm_compute. reflexivity.
Defined.

(** ** Names that pass unchanged *)

(** X22.  The strings [sanitizeUsername] returns as they are: those that are
    not empty, have at most 50 code units, hold no angle bracket and neither
    begin nor end with white space, and no other string. *)
Theorem sanitizeUsername_fixed_points (t : Z) (y : jsstring) :
  sanitizeUsername t (JsString y) = y ↔
  y ≠ [] ∧ length y ≤ 50 ∧ noAngles y ∧ startsClean y ∧ endsWithWhiteSpace y = false.
Proof.
  split.
  - intros Hfix. destruct (sanitizeUsername_sound t (JsString y)) as (Hne & Hang & Hstart).
    rewrite Hfix in Hne, Hang, Hstart.
    assert (endsWithWhiteSpace y = false) as Hend.
    { destruct (endsWithWhiteSpace y) eqn:E; [|done].
      by destruct (sanitizeUsername_trailing_space t y Hang Hstart E). }
    repeat (split; [done|]). split; [|done].
    rewrite sanitizeUsername_string, stripAngles_id, trim_id in Hfix by done.
    case_bool_decide as Hempty.
    + destruct y; [done|]. simpl in Hempty. done.
    + apply (f_equal length) in Hfix. rewrite length_take in Hfix. lia.
  - intros (Hne & Hlen & Hang & Hstart & Hend). by apply sanitizeUsername_clean.
Qed.
